(** * LinearCPP: the matrix container, the multiplication engine and the LU
    solver of [MatrixLibrary/include], embedded and verified.

    The embedding follows the C++ sources statement by statement.

    - [int] is the 32-bit signed integer: values are carried in [Z]; a signed
      overflow is undefined behaviour in C++ and is an [Undefined] outcome here.
    - [size_t] is the 64-bit unsigned integer: arithmetic wraps modulo [2^64].
    - [std::vector<T>] is [list T]; [operator[]] outside the vector is
      undefined behaviour and is an [Undefined] outcome.
    - exceptions are values of [exn]; a computation is a function from the
      state it may touch to an outcome, and a thrown exception keeps the
      state reached at the throw.
    - the element type [T] of the templates is a type class ([Numeric],
      [Floating]); [double] is the instance on binary64 primitive floats. *)

From Stdlib Require Import ZArith List Lia Bool String Permutation Ring.
From Stdlib Require Import DecimalString DecimalZ Floats.
From Stdlib Require QArith Qcanon Qcabs.
Import ListNotations.
Local Open Scope Z_scope.

(* ================================================================== *)
(** * Part I: definitions *)
(* ================================================================== *)

(** ** Machine integers *)

Definition INT_MAX : Z := 2147483647.
Definition INT_MIN : Z := -2147483648.

(** [in_int x]: the mathematical integer [x] is a value of [int]. *)
Definition in_int (x : Z) : bool := (INT_MIN <=? x) && (x <=? INT_MAX).

(** Width of [size_t] (LP64). *)
Definition SIZE_BITS : Z := 64.

(** Conversion of an integer to [size_t], and arithmetic in [size_t]:
    reduction modulo [2^64]. *)
Definition to_size_t (x : Z) : Z := x mod 2 ^ SIZE_BITS.

(** Conversion of a [size_t] to [int]: the value modulo [2^32], read as a
    two's complement number. *)
Definition to_int (x : Z) : Z := (x + 2 ^ 31) mod 2 ^ 32 - 2 ^ 31.

(** [std::to_string(int)]. *)
Definition to_string (i : Z) : string := NilEmpty.string_of_int (Z.to_int i).

(** ** Exceptions *)

Inductive exn : Type :=
| invalid_argument (what : string)
| runtime_error (what : string)
| length_error.

(** ** Computations *)

(** The outcome of running a computation from a state: a value and the new
    state, an exception thrown at some state, undefined behaviour, or no
    outcome within the fuel given to the loops that have no bound of
    their own. *)
Inductive res (S A : Type) : Type :=
| Ok (a : A) (s : S)
| Throw (e : exn) (s : S)
| Undefined
| Diverge.

Arguments Ok {S A} a s.
Arguments Throw {S A} e s.
Arguments Undefined {S A}.
Arguments Diverge {S A}.

Definition prog (S A : Type) : Type := S -> res S A.

Definition ret {S A} (a : A) : prog S A := fun s => Ok a s.

Definition bind {S A B} (c : prog S A) (k : A -> prog S B) : prog S B :=
  fun s =>
    match c s with
    | Ok a s' => k a s'
    | Throw e s' => Throw e s'
    | Undefined => Undefined
    | Diverge => Diverge
    end.

Definition throw {S A} (e : exn) : prog S A := fun s => Throw e s.
Definition undefined {S A} : prog S A := fun _ => Undefined.
Definition diverge {S A} : prog S A := fun _ => Diverge.
Definition gets {S A} (f : S -> A) : prog S A := fun s => Ok (f s) s.
Definition modify {S} (f : S -> S) : prog S unit := fun s => Ok tt (f s).

Declare Scope prog_scope.
Delimit Scope prog_scope with prog.
Notation "x <- c ;; k" := (bind c (fun x => k))
  (at level 61, c at next level, right associativity) : prog_scope.
Notation "c ;; k" := (bind c (fun _ => k))
  (at level 61, right associativity) : prog_scope.
Notation "' pat <- c ;; k" := (bind c (fun x => match x with pat => k end))
  (at level 61, pat pattern, c at next level, right associativity) : prog_scope.
Local Open Scope prog_scope.

(** A function that touches no state of its caller is run on the unit
    state. *)
Definition run {A} (c : prog unit A) : res unit A := c tt.

(** [for (int i = lo; i < hi; ++i) body], with the variables the body
    assigns carried in [x]. *)
Fixpoint for_count {S X} (n : nat) (i : Z) (body : Z -> X -> prog S X) (x : X)
  : prog S X :=
  match n with
  | O => ret x
  | Datatypes.S n' => x' <- body i x ;; for_count n' (i + 1) body x'
  end.

Definition for_fold {S X} (lo hi : Z) (body : Z -> X -> prog S X) (x : X)
  : prog S X :=
  for_count (Z.to_nat (hi - lo)) lo body x.

Definition for_ {S} (lo hi : Z) (body : Z -> prog S unit) : prog S unit :=
  for_fold lo hi (fun i _ => body i) tt.

(** [for (int i = hi; i >= 0; --i) body]. *)
Fixpoint for_down_count {S X} (n : nat) (i : Z) (body : Z -> X -> prog S X)
  (x : X) : prog S X :=
  match n with
  | O => ret x
  | Datatypes.S n' => x' <- body i x ;; for_down_count n' (i - 1) body x'
  end.

Definition for_down {S X} (hi : Z) (body : Z -> X -> prog S X) (x : X)
  : prog S X :=
  for_down_count (Z.to_nat (hi + 1)) hi body x.

(** [while (cond) body]: the loop has no bound of its own, [fuel] bounds the
    number of iterations that are run. *)
Fixpoint while_ {S X} (fuel : nat) (cond : X -> bool) (body : X -> prog S X)
  (x : X) : prog S X :=
  match fuel with
  | O => diverge
  | Datatypes.S fuel' =>
      if cond x then x' <- body x ;; while_ fuel' cond body x' else ret x
  end.

(** ** Helper.hpp: nextPowerOfTwo *)

Definition nextPowerOfTwo {S} (fuel : nat) (n : Z) : prog S Z :=
  if n =? 0 then ret 1
  else if Z.land n (to_size_t (n - 1)) =? 0 then ret n
  else
    while_ fuel (fun power => power <? n)
      (fun power => ret (to_size_t (Z.shiftl power 1))) 1.

(** [n] is a power of two. *)
Definition is_pow2 (n : Z) : Prop := exists k, 0 <= k /\ n = 2 ^ k.

(** ** std::vector *)

Fixpoint list_upd {A} (l : list A) (n : nat) (a : A) : list A :=
  match l, n with
  | [], _ => []
  | _ :: t, O => a :: t
  | h :: t, Datatypes.S n' => h :: list_upd t n' a
  end.

(** [std::vector<A>(n, a)], the [int] [n] converted to [size_t]: a negative
    [n] becomes a size above [max_size()]. *)
Definition vec_new {S A} (n : Z) (a : A) : prog S (list A) :=
  if n <? 0 then throw length_error else ret (repeat a (Z.to_nat n)).

(** [v[i]] read. *)
Definition vec_at {S A} (v : list A) (i : Z) : prog S A :=
  if i <? 0 then undefined
  else match nth_error v (Z.to_nat i) with
       | Some a => ret a
       | None => undefined
       end.

(** [v[i] = a]. *)
Definition vec_set {S A} (v : list A) (i : Z) (a : A) : prog S (list A) :=
  if (0 <=? i) && (i <? Z.of_nat (List.length v))
  then ret (list_upd v (Z.to_nat i) a)
  else undefined.

(** The result of an [int] operation whose mathematical value is [x]. *)
Definition int_op {S} (x : Z) : prog S Z :=
  if in_int x then ret x else undefined.

(** ** The element type of the templates *)

(** What [Matrix<T>] and the products ask of [T]: [T(0)], [+], [-], [*]. *)
Class Numeric (T : Type) : Type := {
  Tzero : T;
  Tadd : T -> T -> T;
  Tsub : T -> T -> T;
  Tmul : T -> T -> T
}.

(** What [decomposeLU] and [solve] ask besides: [/], [std::abs], [a > b], and
    the comparison [a < 1e-15] against the [double] literal. *)
Class Floating (T : Type) {N : Numeric T} : Type := {
  Tdiv : T -> T -> T;
  Tabs : T -> T;
  Tgt : T -> T -> bool;
  Tlt_tol : T -> bool
}.

(** ** Matrix.hpp *)

Record Matrix (T : Type) : Type := mkMatrix {
  m_rows : Z;
  m_cols : Z;
  m_data : list T
}.

Arguments mkMatrix {T} m_rows m_cols m_data.
Arguments m_rows {T} m.
Arguments m_cols {T} m.
Arguments m_data {T} m.

Definition add_msg : string := "Matrix dimensions must agree for addition."%string.
Definition sub_msg : string := "Matrix dimensions must agree for subtraction."%string.
Definition mul_msg : string := "Incompatible matrix dimensions for multiplication."%string.

Section MatrixOps.
Context {T : Type} {N : Numeric T}.

(** [Matrix(int rows, int cols)]: [m_data(rows * cols, 0)]. *)
Definition Matrix_new {S} (rows cols : Z) : prog S (Matrix T) :=
  n <- int_op (rows * cols) ;;
  data <- vec_new n Tzero ;;
  ret (mkMatrix rows cols data).

(** The index [row * m_cols + col] of [operator()]. *)
Definition Matrix_index {S} (M : Matrix T) (row col : Z) : prog S Z :=
  p <- int_op (row * m_cols M) ;;
  int_op (p + col).

(** [M(row, col)] read. *)
Definition Matrix_at {S} (M : Matrix T) (row col : Z) : prog S T :=
  k <- Matrix_index M row col ;;
  vec_at (m_data M) k.

(** [M(row, col) = v]. *)
Definition Matrix_set {S} (M : Matrix T) (row col : Z) (v : T)
  : prog S (Matrix T) :=
  k <- Matrix_index M row col ;;
  d <- vec_set (m_data M) k v ;;
  ret (mkMatrix (m_rows M) (m_cols M) d).

(** [operator+]. *)
Definition Matrix_add {S} (this other : Matrix T) : prog S (Matrix T) :=
  if negb (m_rows this =? m_rows other) || negb (m_cols this =? m_cols other)
  then throw (invalid_argument add_msg)
  else
    result <- Matrix_new (m_rows this) (m_cols this) ;;
    for_fold 0 (m_rows this) (fun i result =>
      for_fold 0 (m_cols this) (fun j result =>
        a <- Matrix_at this i j ;;
        b <- Matrix_at other i j ;;
        Matrix_set result i j (Tadd a b)) result) result.

(** [operator-]. *)
Definition Matrix_sub {S} (this other : Matrix T) : prog S (Matrix T) :=
  if negb (m_rows this =? m_rows other) || negb (m_cols this =? m_cols other)
  then throw (invalid_argument sub_msg)
  else
    result <- Matrix_new (m_rows this) (m_cols this) ;;
    for_fold 0 (m_rows this) (fun i result =>
      for_fold 0 (m_cols this) (fun j result =>
        a <- Matrix_at this i j ;;
        b <- Matrix_at other i j ;;
        Matrix_set result i j (Tsub a b)) result) result.

Definition getSubMatrix {S} (this : Matrix T) (startRow startCol size : Z)
  : prog S (Matrix T) :=
  sub <- Matrix_new size size ;;
  for_fold 0 (m_rows sub) (fun i sub =>
    for_fold 0 (m_cols sub) (fun j sub =>
      r <- int_op (startRow + i) ;;
      c <- int_op (startCol + j) ;;
      v <- Matrix_at this r c ;;
      Matrix_set sub i j v) sub) sub.

(** [setSubMatrix] assigns into [*this]: the matrix returned is the new value
    of [*this]. *)
Definition setSubMatrix {S} (this : Matrix T) (startRow startCol : Z)
  (sub : Matrix T) : prog S (Matrix T) :=
  for_fold 0 (m_rows sub) (fun i this =>
    for_fold 0 (m_cols sub) (fun j this =>
      v <- Matrix_at sub i j ;;
      r <- int_op (startRow + i) ;;
      c <- int_op (startCol + j) ;;
      Matrix_set this r c v) this) this.

Definition matrixPadding {S} (A : Matrix T) (newSize : Z) : prog S (Matrix T) :=
  if (newSize =? m_rows A) && (newSize =? m_cols A) then ret A
  else
    padded <- Matrix_new newSize newSize ;;
    for_fold 0 newSize (fun i padded =>
      for_fold 0 newSize (fun j padded =>
        if (i <? m_rows A) && (j <? m_cols A)
        then v <- Matrix_at A i j ;; Matrix_set padded i j v
        else Matrix_set padded i j Tzero) padded) padded.

Definition matrixUnpadding {S} (this : Matrix T) (rows cols : Z)
  : prog S (Matrix T) :=
  result <- Matrix_new rows cols ;;
  for_fold 0 rows (fun i result =>
    for_fold 0 cols (fun j result =>
      v <- Matrix_at this i j ;;
      Matrix_set result i j v) result) result.

(** ** Product.hpp *)

Definition matrixMultiply {S} (A B : Matrix T) : prog S (Matrix T) :=
  result <- Matrix_new (m_rows A) (m_cols B) ;;
  for_fold 0 (m_rows A) (fun i result =>
    for_fold 0 (m_cols A) (fun k result =>
      tmp <- Matrix_at A i k ;;
      for_fold 0 (m_cols B) (fun j result =>
        b <- Matrix_at B k j ;;
        r <- Matrix_at result i j ;;
        Matrix_set result i j (Tadd r (Tmul tmp b))) result) result) result.

(** The recursion of [strassenMultiply] has no bound of its own: [fuel]
    bounds its depth.  The operands of each call are evaluated left to
    right. *)
Fixpoint strassenMultiply {S} (fuel : nat) (A B : Matrix T)
  : prog S (Matrix T) :=
  match fuel with
  | O => diverge
  | Datatypes.S fuel' =>
      let n := m_rows A in
      let treshold := 64 in
      let newSize := Z.quot n 2 in
      if n <=? treshold then matrixMultiply A B
      else
        A11 <- getSubMatrix A 0 0 newSize ;;
        A12 <- getSubMatrix A 0 newSize newSize ;;
        A21 <- getSubMatrix A newSize 0 newSize ;;
        A22 <- getSubMatrix A newSize newSize newSize ;;
        B11 <- getSubMatrix B 0 0 newSize ;;
        B12 <- getSubMatrix B 0 newSize newSize ;;
        B21 <- getSubMatrix B newSize 0 newSize ;;
        B22 <- getSubMatrix B newSize newSize newSize ;;
        a1 <- Matrix_add A11 A22 ;; b1 <- Matrix_add B11 B22 ;;
        M1 <- strassenMultiply fuel' a1 b1 ;;
        a2 <- Matrix_add A21 A22 ;;
        M2 <- strassenMultiply fuel' a2 B11 ;;
        b3 <- Matrix_sub B12 B22 ;;
        M3 <- strassenMultiply fuel' A11 b3 ;;
        b4 <- Matrix_sub B21 B11 ;;
        M4 <- strassenMultiply fuel' A22 b4 ;;
        a5 <- Matrix_add A11 A12 ;;
        M5 <- strassenMultiply fuel' a5 B22 ;;
        a6 <- Matrix_sub A21 A11 ;; b6 <- Matrix_add B11 B12 ;;
        M6 <- strassenMultiply fuel' a6 b6 ;;
        a7 <- Matrix_sub A12 A22 ;; b7 <- Matrix_add B21 B22 ;;
        M7 <- strassenMultiply fuel' a7 b7 ;;
        c1 <- Matrix_add M1 M4 ;; c2 <- Matrix_sub c1 M5 ;;
        C11 <- Matrix_add c2 M7 ;;
        C12 <- Matrix_add M3 M5 ;;
        C21 <- Matrix_add M2 M4 ;;
        d1 <- Matrix_sub M1 M2 ;; d2 <- Matrix_add d1 M3 ;;
        C22 <- Matrix_add d2 M6 ;;
        C <- Matrix_new n n ;;
        C <- setSubMatrix C 0 0 C11 ;;
        C <- setSubMatrix C 0 newSize C12 ;;
        C <- setSubMatrix C newSize 0 C21 ;;
        C <- setSubMatrix C newSize newSize C22 ;;
        ret C
  end.

(** [std::max({a, b, c, d})]. *)
Definition max4 (a b c d : Z) : Z := Z.max (Z.max (Z.max a b) c) d.

(** The recursive path of [operator*]: pad, multiply recursively, unpad. *)
Definition recursive_product {S} (fuel : nat) (this other : Matrix T)
  : prog S (Matrix T) :=
  let maxDim := max4 (m_rows this) (m_cols this) (m_rows other) (m_cols other) in
  p <- nextPowerOfTwo fuel (to_size_t maxDim) ;;
  let paddedSize := to_int p in
  APadded <- matrixPadding this paddedSize ;;
  BPadded <- matrixPadding other paddedSize ;;
  CPadded <- strassenMultiply fuel APadded BPadded ;;
  matrixUnpadding CPadded (m_rows this) (m_cols other).

(** [operator*]. *)
Definition Matrix_mul {S} (fuel : nat) (this other : Matrix T)
  : prog S (Matrix T) :=
  if negb (m_cols this =? m_rows other)
  then throw (invalid_argument mul_msg)
  else
    let treshold := 64 in
    a <- int_op (m_cols this * m_rows this) ;;
    if a <? treshold then matrixMultiply this other
    else
      b <- int_op (m_cols other * m_rows other) ;;
      if b <? treshold then matrixMultiply this other
      else recursive_product fuel this other.

(** *** The matrices the constructors build *)

(** [wf M]: the dimensions are those of a matrix [Matrix(rows, cols)] builds
    and the storage has [rows * cols] elements. *)
Definition wf (M : Matrix T) : Prop :=
  0 <= m_rows M <= INT_MAX /\ 0 <= m_cols M <= INT_MAX /\
  m_rows M * m_cols M <= INT_MAX /\
  Z.of_nat (List.length (m_data M)) = m_rows M * m_cols M.

(** The element at [(r, c)] of the storage. *)
Definition entry (M : Matrix T) (r c : Z) : T :=
  nth (Z.to_nat (r * m_cols M + c)) (m_data M) Tzero.

(** [is_matrix M rows cols f]: [M] is the [rows] x [cols] matrix whose
    element at [(r, c)] is [f r c]. *)
Definition is_matrix (M : Matrix T) (rows cols : Z) (f : Z -> Z -> T) : Prop :=
  wf M /\ m_rows M = rows /\ m_cols M = cols /\
  forall r c, 0 <= r < rows -> 0 <= c < cols -> entry M r c = f r c.

(** The sum [((0 + f 0) + f 1) + ... + f (n-1)], in the order the classical
    product accumulates it. *)
Fixpoint msum (n : nat) (f : Z -> T) : T :=
  match n with
  | O => Tzero
  | Datatypes.S n' => Tadd (msum n' f) (f (Z.of_nat n'))
  end.

End MatrixOps.

(** ** LinearSolver.hpp *)

Record LUResult (T : Type) : Type := mkLUResult {
  LU : Matrix T;
  P : list Z;
  toggleSign : Z
}.

Arguments mkLUResult {T} LU P toggleSign.
Arguments LU {T} l.
Arguments P {T} l.
Arguments toggleSign {T} l.

(** What a call of [decomposeLU] can touch: the matrix of the caller, which
    it receives by reference to const, and its local variable [result]. *)
Record lu_mem (T : Type) : Type := mkLuMem {
  caller_A : Matrix T;
  result : LUResult T
}.

Arguments mkLuMem {T} caller_A result.
Arguments caller_A {T} l.
Arguments result {T} l.

(** The text of the singular-matrix error. *)
Definition singular_msg (i : Z) : string :=
  ("Error: Singular matrix. Null pivot at index " ++ to_string i)%string.

(** [v.resize(n)], the [int] [n] converted to [size_t]; new elements are
    [a]. *)
Definition vec_resize {S A} (v : list A) (n : Z) (a : A) : prog S (list A) :=
  if n <? 0 then throw length_error
  else ret (firstn (Z.to_nat n) v
              ++ repeat a (Z.to_nat n - List.length v)).

Section LinearSolver.
Context {T : Type} {N : Numeric T} {F : Floating T}.

Definition set_LU (M : Matrix T) (s : lu_mem T) : lu_mem T :=
  mkLuMem (caller_A s)
    (mkLUResult M (P (result s)) (toggleSign (result s))).

Definition set_P (p : list Z) (s : lu_mem T) : lu_mem T :=
  mkLuMem (caller_A s)
    (mkLUResult (LU (result s)) p (toggleSign (result s))).

Definition set_toggleSign (t : Z) (s : lu_mem T) : lu_mem T :=
  mkLuMem (caller_A s) (mkLUResult (LU (result s)) (P (result s)) t).

(** [result.LU(i, j)] read and written. *)
Definition LU_at (i j : Z) : prog (lu_mem T) T :=
  M <- gets (fun s => LU (result s)) ;;
  Matrix_at M i j.

Definition LU_set (i j : Z) (v : T) : prog (lu_mem T) unit :=
  M <- gets (fun s => LU (result s)) ;;
  M' <- Matrix_set M i j v ;;
  modify (set_LU M').

(** [result.P[i]] read and written. *)
Definition P_at (i : Z) : prog (lu_mem T) Z :=
  p <- gets (fun s => P (result s)) ;;
  vec_at p i.

Definition P_set (i x : Z) : prog (lu_mem T) unit :=
  p <- gets (fun s => P (result s)) ;;
  p' <- vec_set p i x ;;
  modify (set_P p').

(** [result.LU = A; result.P.resize(dim); result.toggleSign = 1;] and the
    loop that sets [P] to the identity. *)
Definition lu_init (dim : Z) : prog (lu_mem T) unit :=
  A <- gets caller_A ;;
  modify (set_LU A) ;;
  p <- gets (fun s => P (result s)) ;;
  p' <- vec_resize p dim 0 ;;
  modify (set_P p') ;;
  modify (set_toggleSign 1) ;;
  for_ 0 dim (fun i => P_set i i).

(** The search of the row with the largest magnitude in column [i]. *)
Definition pivot_search (dim i : Z) : prog (lu_mem T) Z :=
  d <- LU_at i i ;;
  r <- for_fold (i + 1) dim (fun j '(maxVal, maxIndex) =>
         v <- LU_at j i ;;
         if Tgt (Tabs v) maxVal
         then v' <- LU_at j i ;; ret (Tabs v', j)
         else ret (maxVal, maxIndex)) (Tabs d, i) ;;
  ret (snd r).

(** The exchange of the rows [i] and [maxIndex], of the two entries of [P],
    and the change of sign. *)
Definition pivot_swap (dim i maxIndex : Z) : prog (lu_mem T) unit :=
  for_ i dim (fun j =>
    tmp <- LU_at i j ;;
    v <- LU_at maxIndex j ;;
    LU_set i j v ;;
    LU_set maxIndex j tmp) ;;
  tmp <- P_at i ;;
  v <- P_at maxIndex ;;
  P_set i v ;;
  P_set maxIndex tmp ;;
  t <- gets (fun s => toggleSign (result s)) ;;
  t' <- int_op (t * -1) ;;
  modify (set_toggleSign t').

(** Row pivoting at step [i]. *)
Definition lu_pivot (dim i : Z) : prog (lu_mem T) unit :=
  maxIndex <- pivot_search dim i ;;
  if negb (maxIndex =? i) then pivot_swap dim i maxIndex else ret tt.

(** The test of the pivot against the tolerance. *)
Definition singular_check (i : Z) : prog (lu_mem T) unit :=
  d <- LU_at i i ;;
  if Tlt_tol (Tabs d) then throw (runtime_error (singular_msg i)) else ret tt.

(** The elimination below the pivot. *)
Definition eliminate (dim i : Z) : prog (lu_mem T) unit :=
  for_ (i + 1) dim (fun j =>
    a <- LU_at j i ;;
    b <- LU_at i i ;;
    let mult := Tdiv a b in
    LU_set j i mult ;;
    for_ (i + 1) dim (fun k =>
      x <- LU_at j k ;;
      y <- LU_at i k ;;
      LU_set j k (Tsub x (Tmul mult y)))).

(** One iteration of the main loop. *)
Definition lu_step (dim i : Z) : prog (lu_mem T) unit :=
  lu_pivot dim i ;;
  singular_check i ;;
  eliminate dim i.

(** [int dim = A.getRows()]. *)
Definition get_dim : prog (lu_mem T) Z := gets (fun s => m_rows (caller_A s)).

(** The body of [decomposeLU], on the memory of the call. *)
Definition decomposeLU_body : prog (lu_mem T) unit :=
  dim <- get_dim ;;
  lu_init dim ;;
  for_ 0 dim (lu_step dim).

(** The memory at the entry of [decomposeLU(A)]: [result] is
    default-constructed (its [toggleSign] is not initialised; it is written
    before it is read). *)
Definition lu_entry (A : Matrix T) : lu_mem T :=
  mkLuMem A (mkLUResult (mkMatrix 0 0 []) [] 0).

(** [decomposeLU(A)], as its caller sees it: the value returned or the
    exception thrown. *)
Definition decomposeLU {S} (A : Matrix T) : prog S (LUResult T) :=
  fun s =>
    match decomposeLU_body (lu_entry A) with
    | Ok _ m => Ok (result m) s
    | Throw e _ => Throw e s
    | Undefined => Undefined
    | Diverge => Diverge
    end.

(** The body up to the end of the first [i] iterations of the main loop. *)
Definition lu_prefix (i : Z) : prog (lu_mem T) unit :=
  dim <- get_dim ;;
  lu_init dim ;;
  for_ 0 i (lu_step dim).

(** The row chosen as pivot at step [i] of [decomposeLU(A)], when the
    execution reaches that step. *)
Definition pivot_row (A : Matrix T) (i : Z) : option Z :=
  match (lu_prefix i ;; pivot_search (m_rows A) i) (lu_entry A) with
  | Ok maxIndex _ => Some maxIndex
  | _ => None
  end.

(** The diagonal entry [(i, i)] after the row pivoting of step [i] of
    [decomposeLU(A)], when the execution reaches that point. *)
Definition pivoted_diagonal (A : Matrix T) (i : Z) : option T :=
  match (lu_prefix i ;; lu_pivot (m_rows A) i ;; LU_at i i) (lu_entry A) with
  | Ok d _ => Some d
  | _ => None
  end.

(** The steps [0 .. dim-1], and the number of row exchanges performed: the
    steps at which the pivot row is not the row of the step. *)
Definition steps (dim : Z) : list Z := map Z.of_nat (seq 0 (Z.to_nat dim)).

Definition swapped_at (A : Matrix T) (i : Z) : bool :=
  match pivot_row A i with
  | Some maxIndex => negb (maxIndex =? i)
  | None => false
  end.

Definition swaps_performed (A : Matrix T) : nat :=
  List.length (filter (swapped_at A) (steps (m_rows A))).

(** [solve], step 1: the permuted right-hand side. *)
Definition permute_rhs {S} (m_LU : LUResult T) (b : list T) : prog S (list T) :=
  let dim := m_rows (LU m_LU) in
  pb <- vec_new dim Tzero ;;
  for_fold 0 dim (fun i pb =>
    p <- vec_at (P m_LU) i ;;
    v <- vec_at b p ;;
    vec_set pb i v) pb.

(** [solve], step 2: the forward substitution. *)
Definition forward_substitution {S} (m_LU : LUResult T) (pb : list T)
  : prog S (list T) :=
  let dim := m_rows (LU m_LU) in
  y <- vec_new dim Tzero ;;
  for_fold 0 dim (fun i y =>
    sum <- for_fold 0 i (fun j sum =>
             l <- Matrix_at (LU m_LU) i j ;;
             yj <- vec_at y j ;;
             ret (Tadd sum (Tmul l yj))) Tzero ;;
    pbi <- vec_at pb i ;;
    vec_set y i (Tsub pbi sum)) y.

(** One row of the backward substitution, with its division as a
    parameter. *)
Definition backward_row {S} (divide : T -> T -> prog S T)
  (m_LU : LUResult T) (y : list T) (i : Z) (x : list T) : prog S (list T) :=
  let dim := m_rows (LU m_LU) in
  sum <- for_fold (i + 1) dim (fun j sum =>
           u <- Matrix_at (LU m_LU) i j ;;
           xj <- vec_at x j ;;
           ret (Tadd sum (Tmul u xj))) Tzero ;;
  yi <- vec_at y i ;;
  d <- Matrix_at (LU m_LU) i i ;;
  q <- divide (Tsub yi sum) d ;;
  vec_set x i q.

(** [solve], step 3: the backward substitution. *)
Definition backward_substitution {S} (divide : T -> T -> prog S T)
  (m_LU : LUResult T) (y : list T) : prog S (list T) :=
  let dim := m_rows (LU m_LU) in
  x <- vec_new dim Tzero ;;
  for_down (dim - 1) (backward_row divide m_LU y) x.

(** [solve], with the division of the backward substitution as a
    parameter. *)
Definition solve_with {S} (divide : T -> T -> prog S T)
  (m_LU : LUResult T) (b : list T) : prog S (list T) :=
  pb <- permute_rhs m_LU b ;;
  y <- forward_substitution m_LU pb ;;
  backward_substitution divide m_LU y.

(** [solve]. *)
Definition solve {S} (m_LU : LUResult T) (b : list T) : prog S (list T) :=
  solve_with (fun a d => ret (Tdiv a d)) m_LU b.

(** [solve] with every division watched: a division whose divisor is a zero
    ([is_zero d]) stops the run with [division_by_zero]. *)
Definition division_by_zero : exn := runtime_error "division by zero"%string.

Definition solve_watched {S} (is_zero : T -> bool)
  (m_LU : LUResult T) (b : list T) : prog S (list T) :=
  solve_with (fun a d => if is_zero d then throw division_by_zero
                         else ret (Tdiv a d)) m_LU b.

End LinearSolver.

(** *** The states of the decomposition *)

Section LUStates.
Context {T : Type} {N : Numeric T} {F : Floating T}.

(** [lu_state A n f p t s]: in the memory [s] the matrix of the caller is
    [A], [result.LU] is the [n] x [n] matrix of elements [f], [result.P] is
    [p] and [result.toggleSign] is [t]. *)
Definition lu_state (A : Matrix T) (n : Z) (f : Z -> Z -> T) (p : list Z)
  (t : Z) (s : lu_mem T) : Prop :=
  caller_A s = A /\ is_matrix (LU (result s)) n n f /\
  P (result s) = p /\ toggleSign (result s) = t.

(** The elements after the exchange of the rows [i] and [m] from column [i]
    on. *)
Definition swap_rows (f : Z -> Z -> T) (i m : Z) : Z -> Z -> T :=
  fun r c =>
    if c <? i then f r c
    else if r =? i then f m c
    else if r =? m then f i c
    else f r c.

(** The exchange of two entries of a vector. *)
Definition swap_list (p : list Z) (i m : Z) : list Z :=
  list_upd (list_upd p (Z.to_nat i) (nth (Z.to_nat m) p 0))
    (Z.to_nat m) (nth (Z.to_nat i) p 0).

(** The elements after the elimination below the pivot [(i, i)]. *)
Definition elim_fun (f : Z -> Z -> T) (i : Z) : Z -> Z -> T :=
  fun r c =>
    if i <? r
    then if c <? i then f r c
         else if c =? i then Tdiv (f r i) (f i i)
         else Tsub (f r c) (Tmul (Tdiv (f r i) (f i i)) (f i c))
    else f r c.

(** The elements, the permutation and the sign after the row pivoting of a
    step at which the row [m] is chosen. *)
Definition pivoted_fun (f : Z -> Z -> T) (i m : Z) : Z -> Z -> T :=
  if m =? i then f else swap_rows f i m.

Definition pivoted_list (p : list Z) (i m : Z) : list Z :=
  if m =? i then p else swap_list p i m.

Definition pivoted_sign (t : Z) (i m : Z) : Z :=
  if m =? i then t else t * -1.

(** [lu_good A n i s]: [s] is a memory the main loop can be in after [i]
    iterations: [P] is a permutation of the steps, the sign counts the
    exchanges performed, and no pivot that passed the test is below the
    tolerance. *)
Definition lu_good (A : Matrix T) (n i : Z) (s : lu_mem T) : Prop :=
  exists f p t,
    lu_state A n f p t s /\
    Permutation p (steps n) /\
    t = (-1) ^ Z.of_nat (List.length (filter (swapped_at A) (steps i))) /\
    forall k, 0 <= k < i -> Tlt_tol (Tabs (f k k)) = false.

(** [divides_on_diagonal n f s divide]: run from [s], [divide a d] returns
    the quotient [a / d] whenever [d] is one of the diagonal elements
    [f 0 0 .. f (n-1) (n-1)]. *)
Definition divides_on_diagonal {S} (n : Z) (f : Z -> Z -> T) (s : S)
  (divide : T -> T -> prog S T) : Prop :=
  forall a i, 0 <= i < n -> divide a (f i i) s = Ok (Tdiv a (f i i)) s.

(** *** The factors read off a result *)

(** [L]: the unit lower-triangular matrix whose strictly-lower elements are
    those of the packed [LU]; [one] is the unit of [T]. *)
Definition L_entry (one : T) (r : LUResult T) (i j : Z) : T :=
  if j <? i then entry (LU r) i j
  else if j =? i then one else Tzero.

(** [U]: the upper triangle of the packed [LU], diagonal included. *)
Definition U_entry (r : LUResult T) (i j : Z) : T :=
  if i <=? j then entry (LU r) i j else Tzero.

(** The element at [(i, j)] of the product of [L] and [U]. *)
Definition LU_product (one : T) (r : LUResult T) (i j : Z) : T :=
  msum (Z.to_nat (m_rows (LU r)))
    (fun k => Tmul (L_entry one r i k) (U_entry r k j)).

(** The element at [(i, j)] of [PA]: row [i] of [PA] is row [P[i]] of [A]. *)
Definition PA_entry (A : Matrix T) (r : LUResult T) (i j : Z) : T :=
  entry A (nth (Z.to_nat i) (P r) 0) j.

(** [diag_passed A i]: the execution of [decomposeLU(A)] reaches each of the
    steps below [i], and the pivot of each passes the test. *)
Definition diag_passed (A : Matrix T) (i : Z) : Prop :=
  forall k, 0 <= k < i ->
  exists d, pivoted_diagonal A k = Some d /\ Tlt_tol (Tabs d) = false.

End LUStates.

(** ** Instances of the element type *)

(** [double]: binary64, with the operations of IEEE 754.  The literal
    [1e-15] is the binary64 number [0x1.203af9ee75616p-50]. *)
#[export] Instance Numeric_double : Numeric float := {
  Tzero := 0%float;
  Tadd := PrimFloat.add;
  Tsub := PrimFloat.sub;
  Tmul := PrimFloat.mul
}.

#[export] Instance Floating_double : Floating float := {
  Tdiv := PrimFloat.div;
  Tabs := PrimFloat.abs;
  Tgt := fun a b => PrimFloat.ltb b a;
  Tlt_tol := fun a => PrimFloat.ltb a 0x1.203af9ee75616p-50%float
}.

(** Exact arithmetic: the integers, without a bound. *)
#[export] Instance Numeric_Z : Numeric Z := {
  Tzero := 0;
  Tadd := Z.add;
  Tsub := Z.sub;
  Tmul := Z.mul
}.

(** The value [nextPowerOfTwo] computes where it returns. *)
Definition next_pow2 (n : Z) : Z := if n =? 0 then 1 else 2 ^ Z.log2_up n.

(** ** Matrices of the examples *)

(** The operands of the worked product of the specification. *)
Definition A_2x2 : Matrix Z := mkMatrix 2 2 [1; 2; 3; 4].
Definition B_2x2 : Matrix Z := mkMatrix 2 2 [5; 6; 7; 8].

(** A 65 x 65 matrix of ones: its padded square is 128 x 128, above the
    threshold of the recursion. *)
Definition ones_65 : Matrix Z := mkMatrix 65 65 (repeat 1 (Z.to_nat 4225)).

(** A column of 32769 elements and a row of 64 elements. *)
Definition column_32769 : Matrix float :=
  mkMatrix 32769 1 (repeat 0%float (Z.to_nat 32769)).
Definition row_64 : Matrix float :=
  mkMatrix 1 64 (repeat 0%float (Z.to_nat 64)).

(** Two 65 x 65 matrices of finite elements: [A] has 1 at (0,0) and 2 at
    (1,0), [B] has 1 at (0,64) and [0x1p+1023], which is [2^1023], at
    (64,64); every other element is 0. *)
Definition cancelling_A : Matrix float :=
  mkMatrix 65 65
    ([1%float] ++ repeat 0%float (Z.to_nat 64) ++
     [2%float] ++ repeat 0%float (Z.to_nat 4159)).
Definition cancelling_B : Matrix float :=
  mkMatrix 65 65
    (repeat 0%float (Z.to_nat 64) ++ [1%float] ++
     repeat 0%float (Z.to_nat 4159) ++ [0x1p+1023%float]).

(** The matrices of the decomposition examples: the singular matrix of the
    specification, and a matrix whose rows are exchanged. *)
Definition singular_2x2 : Matrix float := mkMatrix 2 2 [1; 2; 0; 0]%float.
Definition exchange_2x2 : Matrix float := mkMatrix 2 2 [0; 1; 1; 0]%float.

(** A matrix of finite elements whose decomposition overflows: [0x1p+1023]
    is [2^1023], and [2^1023 + 2^1023] is infinite in binary64. *)
Definition overflowing_3x3 : Matrix float :=
  mkMatrix 3 3 [  1; 0x1p+1023; 0;
                 -1; 0x1p+1023; 0;
                 -1; 0x1p+1023; 1 ]%float.

(** A matrix whose decomposition exchanges rows at its second step. *)
Definition exchange_3x3 : Matrix float :=
  mkMatrix 3 3 [ 4; 1; 1;
                 2; 1; 3;
                 1; 3; 2 ]%float.

(** The system of the specification: [[2,1],[1,3]] x = [3,5]. *)
Definition system_2x2 : Matrix float := mkMatrix 2 2 [2; 1; 1; 3]%float.

(** [x == 0] on [double]: true of both zeros. *)
Definition double_is_zero (x : float) : bool := PrimFloat.eqb x 0.

(** [never_returns c]: whatever fuel it is given, [c] does not reach an
    outcome. *)
Definition never_returns {A} (c : nat -> prog unit A) : Prop :=
  forall fuel, run (c fuel) = Diverge.

(** ** Specifications of computations *)

(** [wp U c s Q E]: run from [s], [c] returns a value and a state in [Q], or
    throws an exception at a state in [E]; undefined behaviour and running out
    of fuel are admitted when [U] holds ([False]: total correctness). *)
Definition wp {S A} (U : Prop) (c : prog S A) (s : S)
  (Q : A -> S -> Prop) (E : exn -> S -> Prop) : Prop :=
  match c s with
  | Ok a s' => Q a s'
  | Throw e s' => E e s'
  | Undefined => U
  | Diverge => U
  end.

(** [returns c s P]: run from [s], [c] returns a value in [P] and leaves the
    state as it was. *)
Definition returns {S A} (c : prog S A) (s : S) (P : A -> Prop) : Prop :=
  exists a, c s = Ok a s /\ P a.

(** [quiet c]: whatever it does, [c] does not throw the
    incompatible-dimensions error of [operator*]. *)
Definition quiet {S A} (c : prog S A) : Prop :=
  forall s, wp True c s (fun _ _ => True)
              (fun e _ => e <> invalid_argument mul_msg).

(** ** Further code of the library *)

(** [for (int i = lo; i < hi; ++i) body], where the body can execute
    [return v]: it yields [Some v] then, and the loop is left. *)
Fixpoint for_return_count {S R} (n : nat) (i : Z)
  (body : Z -> prog S (option R)) : prog S (option R) :=
  match n with
  | O => ret None
  | Datatypes.S n' =>
      r <- body i ;;
      match r with
      | Some v => ret (Some v)
      | None => for_return_count n' (i + 1) body
      end
  end.

Definition for_return {S R} (lo hi : Z) (body : Z -> prog S (option R))
  : prog S (option R) :=
  for_return_count (Z.to_nat (hi - lo)) lo body.

(** [std::cout]: the state is the text written so far; [std::endl] writes a
    newline. *)
Definition endl : string := String (Ascii.ascii_of_nat 10) EmptyString.

Definition cout_line (text : string) : prog string unit :=
  modify (fun out => (out ++ text ++ endl)%string).

Definition failed_msg : string :=
  "Verification failed: Matrices are different."%string.
Definition successful_msg : string :=
  "Verification successful: Matrices are identical."%string.

(** What [check] asks of [T] besides: [a != b]. *)
Class Comparable (T : Type) : Type := {
  Tneq : T -> T -> bool
}.

Section MoreMatrix.
Context {T : Type} {N : Numeric T}.

(** [Matrix(const std::vector<T> &vec, bool asColumn)]: [int n = vec.size()]
    narrows the size to [int]. *)
Definition Matrix_from_vector (vec : list T) (asColumn : bool) : Matrix T :=
  let n := to_int (Z.of_nat (List.length vec)) in
  if asColumn then mkMatrix n 1 vec else mkMatrix 1 n vec.

(** Helper.hpp: [check(A, X, B)], on the text of [std::cout]. *)
Definition check {C : Comparable T} (fuel : nat) (A X B : Matrix T)
  : prog string bool :=
  result <- Matrix_mul fuel A X ;;
  r <- for_return 0 (m_rows result) (fun i =>
         for_return 0 (m_cols result) (fun j =>
           a <- Matrix_at result i j ;;
           b <- Matrix_at B i j ;;
           if Tneq a b
           then cout_line failed_msg ;; ret (Some false)
           else ret None)) ;;
  match r with
  | Some v => ret v
  | None => cout_line successful_msg ;; ret true
  end.

(** [shaped M rows cols]: [M] is a well-formed [rows] x [cols] matrix. *)
Definition shaped (M : Matrix T) (rows cols : Z) : Prop :=
  wf M /\ m_rows M = rows /\ m_cols M = cols.

(** The element [i] of the product of the matrix of elements [g], of [n]
    columns, and the vector [x]. *)
Definition mat_vec (n : Z) (g : Z -> Z -> T) (x : list T) (i : Z) : T :=
  msum (Z.to_nat n) (fun j => Tmul (g i j) (nth (Z.to_nat j) x Tzero)).

End MoreMatrix.

#[export] Instance Comparable_double : Comparable float := {
  Tneq := fun a b => negb (PrimFloat.eqb a b)
}.

#[export] Instance Comparable_Z : Comparable Z := {
  Tneq := fun a b => negb (a =? b)
}.

(** [throws_only E c]: whatever it does, [c] throws no exception outside
    [E]. *)
Definition throws_only {S A} (E : exn -> Prop) (c : prog S A) : Prop :=
  forall s, wp True c s (fun _ _ => True) (fun e _ => E e).

(** The [length_error] of a container that is given a negative size. *)
Definition is_length_error (e : exn) : Prop := e = length_error.

(** An exact element type for [solve]: the rational numbers, in lowest
    terms.  [solve] puts no constraint on [T] and uses the division alone
    of the operations below; [decomposeLU], whose [static_assert] admits
    floating-point types only, is never taken at this type. *)
Definition rational (z : Z) : Qcanon.Qc :=
  Qcanon.Q2Qc (QArith_base.inject_Z z).

#[export] Instance Numeric_Qc : Numeric Qcanon.Qc := {
  Tzero := rational 0;
  Tadd := Qcanon.Qcplus;
  Tsub := Qcanon.Qcminus;
  Tmul := Qcanon.Qcmult
}.

#[export] Instance Floating_Qc : Floating Qcanon.Qc := {
  Tdiv := Qcanon.Qcdiv;
  Tabs := Qcabs.Qcabs;
  Tgt := fun a b =>
    match Qcanon.Qccompare a b with Gt => true | _ => false end;
  Tlt_tol := fun a =>
    match Qcanon.Qccompare a
            (Qcanon.Q2Qc (QArith_base.Qmake 1 1000000000000000)) with
    | Lt => true
    | _ => false
    end
}.

(** [yields c Q]: whatever the state, a value [c] returns is in [Q], and an
    exception it throws is [length_error]. *)
Definition yields {S A} (c : prog S A) (Q : A -> Prop) : Prop :=
  forall s, wp True c s (fun a _ => Q a) (fun e _ => is_length_error e).

(** [same_dims M M']: the two matrices have the same dimension fields. *)
Definition same_dims {T} (M M' : Matrix T) : Prop :=
  m_rows M' = m_rows M /\ m_cols M' = m_cols M.

(* ================================================================== *)
(** * Part II: theorems *)
(* ================================================================== *)

(** ** Loops *)

Lemma bind_Ok {S A B} (c : prog S A) (k : A -> prog S B) s a s' :
  c s = Ok a s' -> bind c k s = k a s'.
Proof. intros H. unfold bind. rewrite H. reflexivity. Qed.

Lemma for_count_S {S X} n i (body : Z -> X -> prog S X) x s :
  for_count (Datatypes.S n) i body x s =
  match body i x s with
  | Ok x1 s1 => for_count n (i + 1) body x1 s1
  | Throw e s1 => Throw e s1
  | Undefined => Undefined
  | Diverge => Diverge
  end.
Proof. reflexivity. Qed.

Lemma for_count_snoc {S X} n i (body : Z -> X -> prog S X) x s :
  for_count (Datatypes.S n) i body x s =
  (x' <- for_count n i body x ;; body (i + Z.of_nat n) x') s.
Proof.
  revert i x s. induction n as [|n IH]; intros i x s.
  - cbn. unfold bind. replace (i + 0) with i by lia.
    destruct (body i x s); reflexivity.
  - rewrite (for_count_S (Datatypes.S n)). unfold bind at 1.
    rewrite (for_count_S n i).
    destruct (body i x s) as [x1 s1| | |]; try reflexivity.
    rewrite IH. unfold bind.
    replace (i + 1 + Z.of_nat n) with (i + Z.of_nat (Datatypes.S n)) by lia.
    reflexivity.
Qed.

Lemma for_fold_snoc {S X} lo hi (body : Z -> X -> prog S X) x s :
  lo <= hi ->
  for_fold lo (hi + 1) body x s =
  (x' <- for_fold lo hi body x ;; body hi x') s.
Proof.
  intros H. unfold for_fold.
  replace (Z.to_nat (hi + 1 - lo)) with (Datatypes.S (Z.to_nat (hi - lo))) by lia.
  rewrite for_count_snoc.
  replace (lo + Z.of_nat (Z.to_nat (hi - lo))) with hi by lia.
  reflexivity.
Qed.

(** ** The program logic *)

Lemma wp_ret {S A} U (a : A) (s : S) Q E : Q a s -> wp U (ret a) s Q E.
Proof. intros H; exact H. Qed.

Lemma wp_bind {S A B} U (c : prog S A) (k : A -> prog S B) s Q E :
  wp U c s (fun a s' => wp U (k a) s' Q E) E -> wp U (bind c k) s Q E.
Proof.
  unfold wp, bind. destruct (c s); auto.
Qed.

Lemma wp_mono {S A} U (c : prog S A) s (Q Q' : A -> S -> Prop)
  (E E' : exn -> S -> Prop) :
  wp U c s Q E ->
  (forall a s', Q a s' -> Q' a s') ->
  (forall e s', E e s' -> E' e s') ->
  wp U c s Q' E'.
Proof.
  unfold wp. destruct (c s); auto.
Qed.

Lemma wp_for_count {S X} U n (body : Z -> X -> prog S X)
  (I : Z -> X -> S -> Prop) (E : exn -> S -> Prop) :
  forall lo x s,
  I lo x s ->
  (forall i x s, lo <= i < lo + Z.of_nat n -> I i x s ->
     wp U (body i x) s (fun x' s' => I (i + 1) x' s') E) ->
  wp U (for_count n lo body x) s (fun x' s' => I (lo + Z.of_nat n) x' s') E.
Proof.
  induction n as [|n IH]; intros lo x s H0 Hb.
  - cbn. unfold wp, ret. replace (lo + 0) with lo by lia. exact H0.
  - cbn [for_count]. apply wp_bind.
    eapply wp_mono; [apply (Hb lo x s); [lia|exact H0] | | auto].
    cbn beta. intros x1 s1 H1.
    replace (lo + Z.of_nat (Datatypes.S n)) with (lo + 1 + Z.of_nat n) by lia.
    apply IH; [exact H1|]. intros i x2 s2 Hi. apply Hb. lia.
Qed.

Lemma wp_for_fold {S X} U lo hi (body : Z -> X -> prog S X)
  (I : Z -> X -> S -> Prop) (E : exn -> S -> Prop) x s :
  lo <= hi ->
  I lo x s ->
  (forall i x s, lo <= i < hi -> I i x s ->
     wp U (body i x) s (fun x' s' => I (i + 1) x' s') E) ->
  wp U (for_fold lo hi body x) s (fun x' s' => I hi x' s') E.
Proof.
  intros Hle H0 Hb. unfold for_fold.
  pose proof (wp_for_count U (Z.to_nat (hi - lo)) body I E lo x s H0) as H.
  replace (lo + Z.of_nat (Z.to_nat (hi - lo))) with hi in H by lia.
  apply H. intros i x1 s1 Hi. apply Hb. lia.
Qed.

Lemma wp_for_down_count {S X} U n (body : Z -> X -> prog S X)
  (I : Z -> X -> S -> Prop) (E : exn -> S -> Prop) :
  forall hi x s,
  I hi x s ->
  (forall i x s, hi - Z.of_nat n < i <= hi -> I i x s ->
     wp U (body i x) s (fun x' s' => I (i - 1) x' s') E) ->
  wp U (for_down_count n hi body x) s
    (fun x' s' => I (hi - Z.of_nat n) x' s') E.
Proof.
  induction n as [|n IH]; intros hi x s H0 Hb.
  - cbn. unfold wp, ret. replace (hi - 0) with hi by lia. exact H0.
  - cbn [for_down_count]. apply wp_bind.
    eapply wp_mono; [apply (Hb hi x s); [lia|exact H0] | | auto].
    cbn beta. intros x1 s1 H1.
    replace (hi - Z.of_nat (Datatypes.S n)) with (hi - 1 - Z.of_nat n) by lia.
    apply IH; [exact H1|]. intros i x2 s2 Hi. apply Hb. lia.
Qed.

Lemma wp_for_down {S X} U hi (body : Z -> X -> prog S X)
  (I : Z -> X -> S -> Prop) (E : exn -> S -> Prop) x s :
  -1 <= hi ->
  I hi x s ->
  (forall i x s, 0 <= i <= hi -> I i x s ->
     wp U (body i x) s (fun x' s' => I (i - 1) x' s') E) ->
  wp U (for_down hi body x) s (fun x' s' => I (-1) x' s') E.
Proof.
  intros Hle H0 Hb. unfold for_down.
  pose proof (wp_for_down_count U (Z.to_nat (hi + 1)) body I E hi x s H0) as H.
  replace (hi - Z.of_nat (Z.to_nat (hi + 1))) with (-1) in H by lia.
  apply H. intros i x1 s1 Hi. apply Hb. lia.
Qed.

Lemma returns_wp {S A} U (c : prog S A) s P (Q : A -> S -> Prop) E :
  returns c s P -> (forall a, P a -> Q a s) -> wp U c s Q E.
Proof.
  intros (a & Hc & Ha) HQ. unfold wp. rewrite Hc. auto.
Qed.

Lemma wp_returns {S A} (c : prog S A) s (P : A -> Prop) :
  wp False c s (fun a s' => s' = s /\ P a) (fun _ _ => False) -> returns c s P.
Proof.
  unfold wp, returns. destruct (c s) as [a s'| | |]; try contradiction.
  intros [-> H]. eauto.
Qed.

Lemma returns_ret {S A} (a : A) (s : S) (P : A -> Prop) :
  P a -> returns (ret a) s P.
Proof. intros H. exists a. split; [reflexivity|exact H]. Qed.

Lemma returns_bind {S A B} (c : prog S A) (k : A -> prog S B) s P P' :
  returns c s P -> (forall a, P a -> returns (k a) s P') ->
  returns (bind c k) s P'.
Proof.
  intros (a & Hc & Ha) Hk. destruct (Hk a Ha) as (b & Hb & HP).
  exists b. split; [|exact HP]. unfold bind. rewrite Hc. exact Hb.
Qed.

Lemma returns_mono {S A} (c : prog S A) s (P P' : A -> Prop) :
  returns c s P -> (forall a, P a -> P' a) -> returns c s P'.
Proof. intros (a & Hc & Ha) H. exists a. auto. Qed.

Lemma returns_for_fold {S X} lo hi (body : Z -> X -> prog S X)
  (I : Z -> X -> Prop) x s :
  lo <= hi ->
  I lo x ->
  (forall i x, lo <= i < hi -> I i x -> returns (body i x) s (I (i + 1))) ->
  returns (for_fold lo hi body x) s (I hi).
Proof.
  intros Hle H0 Hb. apply wp_returns.
  apply (wp_for_fold False lo hi body (fun i x' s' => s' = s /\ I i x'));
    [exact Hle|auto|].
  intros i x1 s1 Hi [-> H1]. eapply returns_wp; [apply Hb; eauto|].
  cbn beta. auto.
Qed.

Lemma returns_for_down {S X} hi (body : Z -> X -> prog S X)
  (I : Z -> X -> Prop) x s :
  -1 <= hi ->
  I hi x ->
  (forall i x, 0 <= i <= hi -> I i x -> returns (body i x) s (I (i - 1))) ->
  returns (for_down hi body x) s (I (-1)).
Proof.
  intros Hle H0 Hb. apply wp_returns.
  apply (wp_for_down False hi body (fun i x' s' => s' = s /\ I i x'));
    [exact Hle|auto|].
  intros i x1 s1 Hi [-> H1]. eapply returns_wp; [apply Hb; eauto|].
  cbn beta. auto.
Qed.

(** ** nextPowerOfTwo *)

Lemma to_size_t_small x : 0 <= x < 2 ^ 64 -> to_size_t x = x.
Proof. intros H. unfold to_size_t, SIZE_BITS. apply Z.mod_small. exact H. Qed.

Lemma land_pow2_pred k : 0 <= k -> Z.land (2 ^ k) (2 ^ k - 1) = 0.
Proof.
  intros Hk. apply Z.bits_inj'. intros i Hi.
  rewrite Z.land_spec, Z.bits_0, Z.pow2_bits_eqb by lia.
  replace (2 ^ k - 1) with (Z.ones k) by (rewrite Z.ones_equiv; lia).
  destruct (Z.eqb_spec k i) as [->|Hne]; [|reflexivity].
  rewrite Z.ones_spec_high by lia. reflexivity.
Qed.

Lemma land_pred_zero_pow2 n :
  0 < n -> Z.land n (n - 1) = 0 -> n = 2 ^ Z.log2 n.
Proof.
  intros Hn Hl.
  destruct (Z.log2_spec n Hn) as [Hlo Hhi].
  destruct (Z.eq_dec n (2 ^ Z.log2 n)) as [|Hne]; [assumption|exfalso].
  assert (Hlog : Z.log2 (n - 1) = Z.log2 n).
  { apply Z.log2_unique; [apply Z.log2_nonneg|lia]. }
  assert (Hb1 : Z.testbit n (Z.log2 n) = true) by (apply Z.bit_log2; lia).
  assert (Hb2 : Z.testbit (n - 1) (Z.log2 n) = true).
  { rewrite <- Hlog. apply Z.bit_log2.
    pose proof (Z.pow_pos_nonneg 2 (Z.log2 n) ltac:(lia) (Z.log2_nonneg n)). lia. }
  assert (Hb : Z.testbit (Z.land n (n - 1)) (Z.log2 n) = true).
  { rewrite Z.land_spec, Hb1, Hb2. reflexivity. }
  rewrite Hl, Z.bits_0 in Hb. discriminate.
Qed.

Lemma pow2_test n :
  0 < n < 2 ^ 64 -> (Z.land n (to_size_t (n - 1)) = 0 <-> is_pow2 n).
Proof.
  intros Hn. rewrite to_size_t_small by lia. split.
  - intros H. exists (Z.log2 n). split; [apply Z.log2_nonneg|].
    apply land_pred_zero_pow2; [lia|exact H].
  - intros (k & Hk & ->). apply land_pow2_pred. exact Hk.
Qed.

Lemma shiftl_pow2_size_t j :
  0 <= j < 63 -> to_size_t (Z.shiftl (2 ^ j) 1) = 2 ^ (j + 1).
Proof.
  intros Hj. rewrite Z.shiftl_mul_pow2 by lia.
  replace (2 ^ j * 2 ^ 1) with (2 ^ (j + 1)) by (rewrite Z.pow_add_r; lia).
  apply to_size_t_small. split; [apply Z.pow_nonneg; lia|].
  apply Z.pow_lt_mono_r; lia.
Qed.

Lemma shiftl_pow2_63_wraps : to_size_t (Z.shiftl (2 ^ 63) 1) = 0.
Proof. reflexivity. Qed.

(** The doubling loop started at [2^j] stops at the first power of two that
    is not below [n], when that power is representable. *)
Lemma doubling_loop_returns {S} (s : S) n k fuel j :
  0 <= j <= k -> k <= 63 ->
  2 ^ (k - 1) < n <= 2 ^ k ->
  (Z.to_nat (k - j) < fuel)%nat ->
  while_ fuel (fun power => power <? n)
    (fun power => ret (to_size_t (Z.shiftl power 1))) (2 ^ j) s = Ok (2 ^ k) s.
Proof.
  revert j. induction fuel as [|fuel IH]; intros j Hj Hk Hn Hf; [lia|].
  cbn [while_]. destruct (Z.eq_dec j k) as [->|Hne].
  - replace (2 ^ k <? n) with false by (symmetry; apply Z.ltb_ge; lia).
    reflexivity.
  - assert (H2 : 2 ^ j <= 2 ^ (k - 1)) by (apply Z.pow_le_mono_r; lia).
    replace (2 ^ j <? n) with true by (symmetry; apply Z.ltb_lt; lia).
    unfold bind, ret. rewrite shiftl_pow2_size_t by lia.
    apply IH; lia.
Qed.

Lemma doubling_loop_stuck_at_zero {S} (s : S) n fuel :
  0 < n ->
  while_ fuel (fun power => power <? n)
    (fun power => ret (to_size_t (Z.shiftl power 1))) 0 s = Diverge.
Proof.
  intros Hn. induction fuel as [|fuel IH]; [reflexivity|].
  cbn [while_]. replace (0 <? n) with true by (symmetry; apply Z.ltb_lt; lia).
  unfold bind, ret. exact IH.
Qed.

(** Above [2^63] the doubling wraps to zero and the loop never ends. *)
Lemma doubling_loop_diverges {S} (s : S) n fuel j :
  0 <= j <= 63 -> 2 ^ 63 < n ->
  while_ fuel (fun power => power <? n)
    (fun power => ret (to_size_t (Z.shiftl power 1))) (2 ^ j) s = Diverge.
Proof.
  revert j. induction fuel as [|fuel IH]; intros j Hj Hn; [reflexivity|].
  cbn [while_].
  assert (H2 : 2 ^ j <= 2 ^ 63) by (apply Z.pow_le_mono_r; lia).
  replace (2 ^ j <? n) with true by (symmetry; apply Z.ltb_lt; lia).
  unfold bind, ret. destruct (Z.eq_dec j 63) as [->|Hne].
  - rewrite shiftl_pow2_63_wraps. apply doubling_loop_stuck_at_zero. lia.
  - rewrite shiftl_pow2_size_t by lia. apply IH; lia.
Qed.

Lemma nextPowerOfTwo_pow2 {S} (s : S) fuel n :
  is_pow2 n -> n < 2 ^ 64 -> nextPowerOfTwo fuel n s = Ok n s.
Proof.
  intros Hp Hn. unfold nextPowerOfTwo.
  assert (H0 : 0 < n).
  { destruct Hp as (k & Hk & ->). apply Z.pow_pos_nonneg; lia. }
  replace (n =? 0) with false by (symmetry; apply Z.eqb_neq; lia).
  replace (Z.land n (to_size_t (n - 1)) =? 0) with true; [reflexivity|].
  symmetry. apply Z.eqb_eq. apply pow2_test; [lia|exact Hp].
Qed.

Lemma nextPowerOfTwo_other {S} (s : S) fuel n :
  0 < n <= 2 ^ 63 -> ~ is_pow2 n ->
  (Z.to_nat (Z.log2_up n) < fuel)%nat ->
  nextPowerOfTwo fuel n s = Ok (2 ^ Z.log2_up n) s.
Proof.
  intros Hn Hp Hf. unfold nextPowerOfTwo.
  replace (n =? 0) with false by (symmetry; apply Z.eqb_neq; lia).
  replace (Z.land n (to_size_t (n - 1)) =? 0) with false.
  2:{ symmetry. apply Z.eqb_neq. intros H. apply Hp. apply pow2_test; [|exact H].
      split; [lia|]. apply Z.le_lt_trans with (2 ^ 63); [lia|reflexivity]. }
  assert (H1 : 1 < n).
  { destruct (Z.eq_dec n 1) as [->|]; [|lia]. exfalso. apply Hp. exists 0. lia. }
  pose proof (Z.log2_up_spec n H1) as Hs.
  apply (doubling_loop_returns s n (Z.log2_up n) fuel 0).
  - pose proof (Z.log2_up_nonneg n). lia.
  - destruct (Z.le_gt_cases (Z.log2_up n) 63) as [|Hgt]; [assumption|exfalso].
    assert (2 ^ 63 <= 2 ^ Z.pred (Z.log2_up n)) by (apply Z.pow_le_mono_r; lia).
    lia.
  - replace (Z.log2_up n - 1) with (Z.pred (Z.log2_up n)) by lia. exact Hs.
  - replace (Z.log2_up n - 0) with (Z.log2_up n) by lia. exact Hf.
Qed.

Lemma nextPowerOfTwo_diverges fuel n :
  2 ^ 63 < n -> ~ is_pow2 n -> n < 2 ^ 64 ->
  run (nextPowerOfTwo fuel n) = Diverge.
Proof.
  intros Hn Hp Hlt. unfold run, nextPowerOfTwo.
  replace (n =? 0) with false by (symmetry; apply Z.eqb_neq; lia).
  replace (Z.land n (to_size_t (n - 1)) =? 0) with false.
  2:{ symmetry. apply Z.eqb_neq. intros H. apply Hp. apply pow2_test; [lia|exact H]. }
  apply (doubling_loop_diverges tt n fuel 0); lia.
Qed.

Lemma pow2_above_log2_up n q :
  1 < n -> is_pow2 q -> n <= q -> 2 ^ Z.log2_up n <= q.
Proof.
  intros Hn (m & Hm & ->) Hq.
  apply Z.pow_le_mono_r; [lia|].
  destruct (Z.le_gt_cases (Z.log2_up n) m) as [|Hgt]; [assumption|exfalso].
  pose proof (Z.log2_up_spec n Hn) as [Hs _].
  assert (2 ^ m <= 2 ^ Z.pred (Z.log2_up n)) by (apply Z.pow_le_mono_r; lia).
  lia.
Qed.

Lemma not_pow2_2_63_plus_1 : ~ is_pow2 (2 ^ 63 + 1).
Proof.
  intros (k & Hk & H).
  destruct (Z.le_gt_cases k 63) as [Hle|Hgt].
  - assert (2 ^ k <= 2 ^ 63) by (apply Z.pow_le_mono_r; lia). lia.
  - assert (2 ^ 64 <= 2 ^ k) by (apply Z.pow_le_mono_r; lia).
    assert (2 ^ 63 + 1 < 2 ^ 64) by reflexivity. lia.
Qed.

(** C4, as amended: [nextPowerOfTwo 0 = 1]; [nextPowerOfTwo n = n] for every
    power of two [n]; and for every other [n] with [0 < n < 2^63],
    [nextPowerOfTwo n] is the smallest power of two strictly greater than
    [n] (the loop ends once it has run [log2_up n] times). *)
Theorem nextPowerOfTwo_spec (n : Z) (Hrange : 0 <= n < 2 ^ 64) :
  (n = 0 -> forall fuel, run (nextPowerOfTwo fuel n) = Ok 1 tt) /\
  (is_pow2 n -> forall fuel, run (nextPowerOfTwo fuel n) = Ok n tt) /\
  (0 < n < 2 ^ 63 -> ~ is_pow2 n ->
   exists p,
     is_pow2 p /\ n < p /\
     (forall q, is_pow2 q -> n < q -> p <= q) /\
     forall fuel, (Z.to_nat (Z.log2_up n) < fuel)%nat ->
                  run (nextPowerOfTwo fuel n) = Ok p tt).
Proof.
  repeat split.
  - intros -> fuel. reflexivity.
  - intros Hp fuel. apply nextPowerOfTwo_pow2; [exact Hp|lia].
  - intros Hn Hp.
    assert (H1 : 1 < n).
    { destruct (Z.eq_dec n 1) as [->|]; [|lia]. exfalso. apply Hp. exists 0. lia. }
    pose proof (Z.log2_up_spec n H1) as [Hlo Hhi].
    exists (2 ^ Z.log2_up n). repeat split.
    + exists (Z.log2_up n). split; [apply Z.log2_up_nonneg|reflexivity].
    + destruct (Z.eq_dec n (2 ^ Z.log2_up n)) as [Heq|]; [|lia].
      exfalso. apply Hp. exists (Z.log2_up n).
      split; [apply Z.log2_up_nonneg|exact Heq].
    + intros q Hq Hnq. apply pow2_above_log2_up; [exact H1|exact Hq|lia].
    + intros fuel Hf. apply nextPowerOfTwo_other; [lia|exact Hp|exact Hf].
Qed.

Lemma nextPowerOfTwo_spec_witness :
  exists p,
    is_pow2 p /\ 5 < p /\
    (forall q, is_pow2 q -> 5 < q -> p <= q) /\
    forall fuel, (Z.to_nat (Z.log2_up 5) < fuel)%nat ->
                 run (nextPowerOfTwo fuel 5) = Ok p tt.
Proof.
  refine (proj2 (proj2 (nextPowerOfTwo_spec 5 _)) _ _).
  - lia.
  - lia.
  - intros (k & Hk & H).
    destruct (Z.le_gt_cases k 2) as [Hle|Hgt].
    + assert (2 ^ k <= 2 ^ 2) by (apply Z.pow_le_mono_r; lia). lia.
    + assert (2 ^ 3 <= 2 ^ k) by (apply Z.pow_le_mono_r; lia). lia.
Defined.

(** C4, as stated, fails at [n = 2^63 + 1]: the doubling wraps to zero in
    [size_t] and the loop never returns. *)
Lemma nextPowerOfTwo_counterexample :
  never_returns (fun fuel => nextPowerOfTwo fuel (2 ^ 63 + 1)).
Proof.
  intros fuel. apply nextPowerOfTwo_diverges.
  - lia.
  - exact not_pow2_2_63_plus_1.
  - reflexivity.
Qed.

Lemma next_pow2_spec (n : Z) :
  0 <= n ->
  is_pow2 (next_pow2 n) /\ n <= next_pow2 n /\
  forall q, is_pow2 q -> n <= q -> next_pow2 n <= q.
Proof.
  intros Hn. unfold next_pow2.
  destruct (Z.eqb_spec n 0) as [->|Hne].
  - split; [exists 0; split; [lia|reflexivity]|]. split; [lia|].
    intros q (k & Hk & ->) _.
    pose proof (Z.pow_pos_nonneg 2 k ltac:(lia) Hk). lia.
  - split; [exists (Z.log2_up n); split; [apply Z.log2_up_nonneg|reflexivity]|].
    destruct (Z.eq_dec n 1) as [->|Hn1].
    + split; [cbn; lia|]. intros q (k & Hk & ->) _. cbn.
      pose proof (Z.pow_pos_nonneg 2 k ltac:(lia) Hk). lia.
    + pose proof (Z.log2_up_spec n ltac:(lia)) as [Hlo Hhi].
      split; [exact Hhi|]. intros q Hq Hnq.
      apply pow2_above_log2_up; [lia|exact Hq|exact Hnq].
Qed.

Lemma nextPowerOfTwo_returns {S} (s : S) fuel n :
  0 <= n <= 2 ^ 63 -> (Z.to_nat (Z.log2_up n) < fuel)%nat ->
  nextPowerOfTwo fuel n s = Ok (next_pow2 n) s.
Proof.
  intros Hn Hf. unfold next_pow2.
  destruct (Z.eqb_spec n 0) as [->|Hne]; [reflexivity|].
  destruct (Z.eq_dec n (2 ^ Z.log2_up n)) as [Heq|Hneq].
  - rewrite <- Heq. apply nextPowerOfTwo_pow2.
    + exists (Z.log2_up n). split; [apply Z.log2_up_nonneg|exact Heq].
    + apply Z.le_lt_trans with (2 ^ 63); [lia|reflexivity].
  - apply nextPowerOfTwo_other; [lia| |exact Hf].
    intros (k & Hk & Hnk). apply Hneq. rewrite Hnk at 2.
    rewrite Z.log2_up_pow2 by exact Hk. exact Hnk.
Qed.

(** Settle every integer comparison of the goal: from the hypotheses where
    they decide it, by case analysis otherwise. *)
Ltac zbool :=
  repeat match goal with
    | |- context [?a =? ?b] =>
        first [ replace (a =? b) with true by (symmetry; apply Z.eqb_eq; lia)
              | replace (a =? b) with false by (symmetry; apply Z.eqb_neq; lia)
              | destruct (Z.eqb_spec a b) ]
    | |- context [?a <=? ?b] =>
        first [ replace (a <=? b) with true by (symmetry; apply Z.leb_le; lia)
              | replace (a <=? b) with false by (symmetry; apply Z.leb_gt; lia)
              | destruct (Z.leb_spec a b) ]
    | |- context [?a <? ?b] =>
        first [ replace (a <? b) with true by (symmetry; apply Z.ltb_lt; lia)
              | replace (a <? b) with false by (symmetry; apply Z.ltb_ge; lia)
              | destruct (Z.ltb_spec a b) ]
    end;
  cbn [andb orb negb]; try reflexivity; try lia; try congruence;
  try solve [subst; reflexivity].

(** ** Vectors and machine integers *)

Lemma length_list_upd {A} (l : list A) n a :
  List.length (list_upd l n a) = List.length l.
Proof.
  revert n. induction l as [|h t IH]; intros [|n]; cbn; auto.
Qed.

Lemma nth_list_upd_eq {A} (l : list A) n a d :
  (n < List.length l)%nat -> nth n (list_upd l n a) d = a.
Proof.
  revert n. induction l as [|h t IH]; intros [|n] H; cbn in *; try lia; auto.
  apply IH. lia.
Qed.

Lemma nth_list_upd_neq {A} (l : list A) n m a d :
  n <> m -> nth m (list_upd l n a) d = nth m l d.
Proof.
  revert n m.
  induction l as [|h t IH]; intros [|n] [|m] H; cbn; try contradiction; auto.
Qed.

Lemma int_op_ok {S} (s : S) x : INT_MIN <= x <= INT_MAX -> int_op x s = Ok x s.
Proof.
  intros H. unfold int_op, in_int.
  replace (INT_MIN <=? x) with true by (symmetry; apply Z.leb_le; lia).
  replace (x <=? INT_MAX) with true by (symmetry; apply Z.leb_le; lia).
  reflexivity.
Qed.

Lemma vec_new_ok {S A} (s : S) n (a : A) :
  0 <= n -> vec_new n a s = Ok (repeat a (Z.to_nat n)) s.
Proof.
  intros H. unfold vec_new.
  replace (n <? 0) with false by (symmetry; apply Z.ltb_ge; lia). reflexivity.
Qed.

Lemma vec_at_ok {S A} (s : S) (v : list A) i d :
  0 <= i < Z.of_nat (List.length v) -> vec_at v i s = Ok (nth (Z.to_nat i) v d) s.
Proof.
  intros H. unfold vec_at.
  replace (i <? 0) with false by (symmetry; apply Z.ltb_ge; lia).
  destruct (nth_error v (Z.to_nat i)) as [a|] eqn:E.
  - rewrite (nth_error_nth _ _ d E). reflexivity.
  - apply nth_error_None in E. lia.
Qed.

Lemma vec_set_ok {S A} (s : S) (v : list A) i a :
  0 <= i < Z.of_nat (List.length v) ->
  vec_set v i a s = Ok (list_upd v (Z.to_nat i) a) s.
Proof.
  intros H. unfold vec_set.
  replace (0 <=? i) with true by (symmetry; apply Z.leb_le; lia).
  replace (i <? Z.of_nat (List.length v)) with true
    by (symmetry; apply Z.ltb_lt; lia).
  reflexivity.
Qed.

(** ** The matrix container *)

Section MatrixFacts.
Context {T : Type} {N : Numeric T}.

Lemma flat_index_range (rows cols r c : Z) :
  0 <= r < rows -> 0 <= c < cols -> 0 <= r * cols + c < rows * cols.
Proof. intros Hr Hc. split; nia. Qed.

Lemma flat_index_inj (cols r c r' c' : Z) :
  0 <= c < cols -> 0 <= c' < cols -> 0 <= r -> 0 <= r' ->
  r * cols + c = r' * cols + c' -> r = r' /\ c = c'.
Proof.
  intros Hc Hc' Hr Hr' H.
  assert (Heq : r = r').
  { destruct (Z.lt_trichotomy r r') as [Hlt|[Heq|Hlt]]; [exfalso|exact Heq|exfalso].
    - assert ((r + 1) * cols <= r' * cols)
        by (apply Z.mul_le_mono_nonneg_r; lia). lia.
    - assert ((r' + 1) * cols <= r * cols)
        by (apply Z.mul_le_mono_nonneg_r; lia). lia. }
  subst r'. split; [reflexivity|lia].
Qed.

Lemma is_matrix_entry (M : Matrix T) : wf M ->
  is_matrix M (m_rows M) (m_cols M) (entry M).
Proof. intros H. repeat split; try apply H. Qed.

Lemma is_matrix_fun (M : Matrix T) rows cols f g :
  is_matrix M rows cols f ->
  (forall r c, 0 <= r < rows -> 0 <= c < cols -> f r c = g r c) ->
  is_matrix M rows cols g.
Proof.
  intros (Hwf & Hr & Hc & He) Hfg. repeat split; try apply Hwf; auto.
  intros r c Hrr Hcc. rewrite He by assumption. auto.
Qed.

(** Two matrices of the same shape with the same elements are equal. *)
Lemma is_matrix_ext (M M' : Matrix T) rows cols f :
  is_matrix M rows cols f -> is_matrix M' rows cols f -> M = M'.
Proof.
  intros (Hwf & Hr & Hc & He) (Hwf' & Hr' & Hc' & He').
  destruct M as [r1 c1 d1], M' as [r2 c2 d2]. cbn in *. subst.
  f_equal.
  destruct Hwf as (Hr1 & Hc1 & Hm1 & Hl1). destruct Hwf' as (_ & _ & _ & Hl2).
  cbn in *.
  apply (nth_ext _ _ Tzero Tzero); [lia|].
  intros k Hk.
  assert (Hpos : 0 < cols) by nia.
  set (r := Z.of_nat k / cols). set (c := Z.of_nat k mod cols).
  assert (Hk' : Z.of_nat k = r * cols + c).
  { unfold r, c. rewrite (Z.mul_comm _ cols). apply Z.div_mod. lia. }
  assert (Hcr : 0 <= c < cols) by (apply Z.mod_pos_bound; lia).
  assert (Hrr : 0 <= r < rows).
  { split; [apply Z.div_pos; lia|]. apply Z.div_lt_upper_bound; nia. }
  specialize (He r c Hrr Hcr). specialize (He' r c Hrr Hcr).
  unfold entry in He, He'. cbn in He, He'.
  rewrite <- Hk', Nat2Z.id in He, He'. congruence.
Qed.

Lemma Matrix_new_returns {S} (s : S) rows cols :
  0 <= rows <= INT_MAX -> 0 <= cols <= INT_MAX -> rows * cols <= INT_MAX ->
  returns (Matrix_new rows cols) s
    (fun M => is_matrix M rows cols (fun _ _ => Tzero)).
Proof.
  intros Hr Hc Hm. unfold Matrix_new.
  exists (mkMatrix rows cols (repeat Tzero (Z.to_nat (rows * cols)))).
  split.
  - unfold bind. rewrite int_op_ok by (unfold INT_MIN; nia).
    rewrite vec_new_ok by nia. reflexivity.
  - repeat split; cbn; try lia.
    + rewrite repeat_length. nia.
    + intros r c Hrr Hcc. unfold entry. cbn. apply nth_repeat.
Qed.

Lemma Matrix_index_ok {S} (s : S) (M : Matrix T) r c :
  wf M -> 0 <= r < m_rows M -> 0 <= c < m_cols M ->
  Matrix_index M r c s = Ok (r * m_cols M + c) s.
Proof.
  intros (Hr & Hc & Hm & Hl) Hrr Hcc. unfold Matrix_index, bind.
  pose proof (flat_index_range _ _ r c Hrr Hcc).
  rewrite int_op_ok by (unfold INT_MIN; nia).
  rewrite int_op_ok by (unfold INT_MIN; nia). reflexivity.
Qed.

Lemma Matrix_at_ok {S} (s : S) (M : Matrix T) r c :
  wf M -> 0 <= r < m_rows M -> 0 <= c < m_cols M ->
  Matrix_at M r c s = Ok (entry M r c) s.
Proof.
  intros Hwf Hrr Hcc. unfold Matrix_at, bind.
  rewrite Matrix_index_ok by assumption.
  pose proof (flat_index_range _ _ r c Hrr Hcc).
  destruct Hwf as (Hr & Hc & Hm & Hl).
  rewrite (vec_at_ok s _ _ Tzero) by lia. reflexivity.
Qed.

Lemma Matrix_set_returns {S} (s : S) (M : Matrix T) rows cols f r c v :
  is_matrix M rows cols f -> 0 <= r < rows -> 0 <= c < cols ->
  returns (Matrix_set M r c v) s
    (fun M' => is_matrix M' rows cols
       (fun r' c' => if (r' =? r) && (c' =? c) then v else f r' c')).
Proof.
  intros (Hwf & <- & <- & He) Hrr Hcc.
  pose proof (flat_index_range _ _ r c Hrr Hcc) as Hk.
  exists (mkMatrix (m_rows M) (m_cols M)
            (list_upd (m_data M) (Z.to_nat (r * m_cols M + c)) v)).
  split.
  - unfold Matrix_set, bind. rewrite Matrix_index_ok by assumption.
    destruct Hwf as (Hr & Hc & Hm & Hl).
    rewrite vec_set_ok by lia. reflexivity.
  - destruct Hwf as (Hr & Hc & Hm & Hl).
    repeat split; cbn; try lia.
    + rewrite length_list_upd. exact Hl.
    + intros r' c' Hr' Hc'. unfold entry. cbn.
      destruct (Z.eqb_spec r' r) as [->|Hne]; cbn.
      * destruct (Z.eqb_spec c' c) as [->|Hne].
        -- apply nth_list_upd_eq. lia.
        -- rewrite nth_list_upd_neq by nia. apply He; assumption.
      * rewrite nth_list_upd_neq.
        -- apply He; assumption.
        -- intros Heq. apply Z2Nat.inj in Heq; [|nia|nia].
           apply flat_index_inj in Heq; lia.
Qed.

(** An inner loop that assigns the cells [(r, b) .. (r, b + C - 1)]. *)
Lemma fill_row {S} (s : S) (M0 : Matrix T) rows cols f0 r b C
  (body : Z -> Matrix T -> prog S (Matrix T)) (F : Z -> T) :
  is_matrix M0 rows cols f0 ->
  0 <= r < rows -> 0 <= b -> 0 <= C -> b + C <= cols ->
  (forall j M f, 0 <= j < C -> is_matrix M rows cols f ->
     f r (b + j) = f0 r (b + j) ->
     body j M s = Matrix_set M r (b + j) (F j) s) ->
  returns (for_fold 0 C body M0) s
    (fun M' => is_matrix M' rows cols
       (fun r' c' => if (r' =? r) && (b <=? c') && (c' <? b + C)
                     then F (c' - b) else f0 r' c')).
Proof.
  intros H0 Hr Hb HC HbC Hbody.
  apply (returns_for_fold 0 C body
    (fun j M => is_matrix M rows cols
       (fun r' c' => if (r' =? r) && (b <=? c') && (c' <? b + j)
                     then F (c' - b) else f0 r' c'))); [exact HC| |].
  - eapply is_matrix_fun; [exact H0|]. intros r' c' Hr' Hc'. cbn beta. zbool.
  - intros j M Hj HM.
    destruct (Matrix_set_returns s M rows cols _ r (b + j) (F j) HM Hr
                ltac:(lia)) as (M' & Hset & HM').
    exists M'. split.
    + rewrite <- Hset. eapply Hbody; [exact Hj|exact HM|]. cbn beta. zbool.
    + eapply is_matrix_fun; [exact HM'|]. intros r' c' Hr' Hc'. cbn beta.
      zbool. f_equal. lia.
Qed.

(** Two nested loops that assign the block of [R] x [C] cells at [(a, b)]. *)
Lemma fill_block {S} (s : S) (M0 : Matrix T) rows cols f0 a b R C
  (inner : Z -> Matrix T -> prog S (Matrix T))
  (body : Z -> Z -> Matrix T -> prog S (Matrix T)) (F : Z -> Z -> T) :
  is_matrix M0 rows cols f0 ->
  0 <= a -> 0 <= R -> a + R <= rows -> 0 <= b -> 0 <= C -> b + C <= cols ->
  (forall i M f, 0 <= i < R -> is_matrix M rows cols f ->
     inner i M s = for_fold 0 C (body i) M s) ->
  (forall i j M f, 0 <= i < R -> 0 <= j < C -> is_matrix M rows cols f ->
     f (a + i) (b + j) = f0 (a + i) (b + j) ->
     body i j M s = Matrix_set M (a + i) (b + j) (F i j) s) ->
  returns (for_fold 0 R inner M0) s
    (fun M' => is_matrix M' rows cols
       (fun r c => if (a <=? r) && (r <? a + R) && (b <=? c) && (c <? b + C)
                   then F (r - a) (c - b) else f0 r c)).
Proof.
  intros H0 Ha HR HaR Hb HC HbC Hinner Hbody.
  apply (returns_for_fold 0 R inner
    (fun i M => is_matrix M rows cols
       (fun r c => if (a <=? r) && (r <? a + i) && (b <=? c) && (c <? b + C)
                   then F (r - a) (c - b) else f0 r c))); [exact HR| |].
  - eapply is_matrix_fun; [exact H0|]. intros r c Hr Hc. cbn beta. zbool.
  - intros i M Hi HM. cbn beta.
    unfold returns. rewrite (Hinner i M _ Hi HM).
    eapply returns_mono.
    + apply (fill_row s M rows cols _ (a + i) b C (body i) (F i) HM);
        try lia.
      intros j M1 f1 Hj HM1 Hf1. eapply Hbody; [exact Hi|exact Hj|exact HM1|].
      rewrite Hf1. cbn beta. zbool.
    + cbn beta. intros M' HM'. eapply is_matrix_fun; [exact HM'|].
      intros r c Hr Hc. cbn beta. zbool; f_equal; lia.
Qed.

Lemma Matrix_at_is {S} (s : S) (M : Matrix T) rows cols f r c :
  is_matrix M rows cols f -> 0 <= r < rows -> 0 <= c < cols ->
  Matrix_at M r c s = Ok (f r c) s.
Proof.
  intros (Hwf & <- & <- & He) Hr Hc.
  rewrite Matrix_at_ok by assumption. rewrite He by assumption. reflexivity.
Qed.

Lemma is_matrix_bounds (M : Matrix T) rows cols f :
  is_matrix M rows cols f ->
  0 <= rows <= INT_MAX /\ 0 <= cols <= INT_MAX /\ rows * cols <= INT_MAX.
Proof. intros ((Hr & Hc & Hm & _) & <- & <- & _). auto. Qed.

Lemma dims_differ_false (r c r' c' : Z) :
  r = r' -> c = c' -> negb (r =? r') || negb (c =? c') = false.
Proof. intros -> ->. rewrite !Z.eqb_refl. reflexivity. Qed.

(** *** operator+ and operator- *)

Lemma Matrix_add_returns {S} (s : S) (A B : Matrix T) rows cols fa fb :
  is_matrix A rows cols fa -> is_matrix B rows cols fb ->
  returns (Matrix_add A B) s
    (fun R => is_matrix R rows cols (fun r c => Tadd (fa r c) (fb r c))).
Proof.
  intros HA HB. pose proof (is_matrix_bounds _ _ _ _ HA) as (Hr & Hc & Hm).
  pose proof HA as (_ & HrA & HcA & _). pose proof HB as (_ & HrB & HcB & _).
  unfold Matrix_add. rewrite dims_differ_false by congruence.
  rewrite HrA, HcA.
  eapply returns_bind; [apply Matrix_new_returns; assumption|].
  cbn beta. intros R0 HR0.
  eapply returns_mono.
  - apply (fill_block s R0 rows cols _ 0 0 rows cols _
             (fun i j result =>
                a <- Matrix_at A i j ;; b <- Matrix_at B i j ;;
                Matrix_set result i j (Tadd a b))
             (fun i j => Tadd (fa i j) (fb i j)) HR0); try lia;
      [reflexivity|].
    intros i j M f Hi Hj HM _. unfold bind.
    rewrite (Matrix_at_is s A rows cols fa) by assumption.
    rewrite (Matrix_at_is s B rows cols fb) by assumption. reflexivity.
  - cbn beta. intros R HR. eapply is_matrix_fun; [exact HR|].
    intros r c Hrr Hcc. cbn beta. rewrite !Z.sub_0_r. zbool.
Qed.

Lemma Matrix_sub_returns {S} (s : S) (A B : Matrix T) rows cols fa fb :
  is_matrix A rows cols fa -> is_matrix B rows cols fb ->
  returns (Matrix_sub A B) s
    (fun R => is_matrix R rows cols (fun r c => Tsub (fa r c) (fb r c))).
Proof.
  intros HA HB. pose proof (is_matrix_bounds _ _ _ _ HA) as (Hr & Hc & Hm).
  pose proof HA as (_ & HrA & HcA & _). pose proof HB as (_ & HrB & HcB & _).
  unfold Matrix_sub. rewrite dims_differ_false by congruence.
  rewrite HrA, HcA.
  eapply returns_bind; [apply Matrix_new_returns; assumption|].
  cbn beta. intros R0 HR0.
  eapply returns_mono.
  - apply (fill_block s R0 rows cols _ 0 0 rows cols _
             (fun i j result =>
                a <- Matrix_at A i j ;; b <- Matrix_at B i j ;;
                Matrix_set result i j (Tsub a b))
             (fun i j => Tsub (fa i j) (fb i j)) HR0); try lia;
      [reflexivity|].
    intros i j M f Hi Hj HM _. unfold bind.
    rewrite (Matrix_at_is s A rows cols fa) by assumption.
    rewrite (Matrix_at_is s B rows cols fb) by assumption. reflexivity.
  - cbn beta. intros R HR. eapply is_matrix_fun; [exact HR|].
    intros r c Hrr Hcc. cbn beta. rewrite !Z.sub_0_r. zbool.
Qed.

(** *** getSubMatrix and setSubMatrix *)

Lemma getSubMatrix_returns {S} (s : S) (A : Matrix T) rows cols fa a b size :
  is_matrix A rows cols fa ->
  0 <= a -> 0 <= b -> 0 <= size -> a + size <= rows -> b + size <= cols ->
  returns (getSubMatrix A a b size) s
    (fun R => is_matrix R size size (fun r c => fa (a + r) (b + c))).
Proof.
  intros HA Ha Hb Hs Har Hbc.
  pose proof (is_matrix_bounds _ _ _ _ HA) as (Hr & Hc & Hm).
  unfold getSubMatrix.
  eapply returns_bind; [apply (Matrix_new_returns s size size); nia|].
  cbn beta. intros R0 HR0. pose proof HR0 as (_ & -> & _ & _).
  eapply returns_mono.
  - apply (fill_block s R0 size size _ 0 0 size size _
             (fun i j sub =>
                r <- int_op (a + i) ;; c <- int_op (b + j) ;;
                v <- Matrix_at A r c ;; Matrix_set sub i j v)
             (fun i j => fa (a + i) (b + j)) HR0); try lia;
      [intros i M f _ (_ & _ & -> & _); reflexivity|].
    intros i j M f Hi Hj HM _. unfold bind.
    rewrite !int_op_ok by (unfold INT_MIN; lia).
    rewrite (Matrix_at_is s A rows cols fa) by (assumption || lia).
    reflexivity.
  - cbn beta. intros R HR. eapply is_matrix_fun; [exact HR|].
    intros r c Hrr Hcc. cbn beta. rewrite !Z.sub_0_r. zbool.
Qed.

Lemma setSubMatrix_returns {S} (s : S) (A B : Matrix T) rows cols fa size fb a b :
  is_matrix A rows cols fa -> is_matrix B size size fb ->
  0 <= a -> 0 <= b -> a + size <= rows -> b + size <= cols ->
  returns (setSubMatrix A a b B) s
    (fun R => is_matrix R rows cols
       (fun r c => if (a <=? r) && (r <? a + size) && (b <=? c) && (c <? b + size)
                   then fb (r - a) (c - b) else fa r c)).
Proof.
  intros HA HB Ha Hb Har Hbc.
  pose proof (is_matrix_bounds _ _ _ _ HA) as (Hr & Hc & Hm).
  pose proof (is_matrix_bounds _ _ _ _ HB) as (Hs & _ & _).
  pose proof HB as (_ & HrB & HcB & _).
  unfold setSubMatrix. rewrite HrB, HcB.
  apply (fill_block s A rows cols fa a b size size _
           (fun i j this =>
              v <- Matrix_at B i j ;; r <- int_op (a + i) ;;
              c <- int_op (b + j) ;; Matrix_set this r c v)
           fb HA); try lia; [reflexivity|].
  intros i j M f Hi Hj HM _. unfold bind.
  rewrite (Matrix_at_is s B size size fb) by assumption.
  rewrite !int_op_ok by (unfold INT_MIN; lia). reflexivity.
Qed.

(** *** matrixPadding and matrixUnpadding *)

Lemma matrixPadding_returns {S} (s : S) (A : Matrix T) rows cols fa newSize :
  is_matrix A rows cols fa ->
  rows <= newSize -> cols <= newSize -> newSize * newSize <= INT_MAX ->
  returns (matrixPadding A newSize) s
    (fun R => is_matrix R newSize newSize
       (fun r c => if (r <? rows) && (c <? cols) then fa r c else Tzero)).
Proof.
  intros HA Hr Hc Hm.
  pose proof (is_matrix_bounds _ _ _ _ HA) as (Hr0 & Hc0 & Hm0).
  pose proof HA as (_ & HrA & HcA & _).
  unfold matrixPadding. rewrite HrA, HcA.
  destruct ((newSize =? rows) && (newSize =? cols)) eqn:E.
  - apply andb_prop in E. destruct E as [E1 E2].
    apply Z.eqb_eq in E1, E2. clear HrA HcA.
    apply returns_ret. rewrite <- E1, <- E2 in HA.
    eapply is_matrix_fun; [exact HA|].
    intros r c Hrr Hcc. cbn beta. zbool.
  - assert (Hn : 0 <= newSize <= INT_MAX) by nia.
    eapply returns_bind; [apply (Matrix_new_returns s newSize newSize); lia|].
    cbn beta. intros R0 HR0.
    eapply returns_mono.
    + apply (fill_block s R0 newSize newSize _ 0 0 newSize newSize _
               (fun i j padded =>
                  if (i <? rows) && (j <? cols)
                  then v <- Matrix_at A i j ;; Matrix_set padded i j v
                  else Matrix_set padded i j Tzero)
               (fun i j => if (i <? rows) && (j <? cols) then fa i j else Tzero)
               HR0); try lia; [reflexivity|].
      intros i j M f Hi Hj HM _. cbn beta.
      destruct (Z.ltb_spec i rows), (Z.ltb_spec j cols); cbn; try reflexivity.
      unfold bind.
      rewrite (Matrix_at_is s A rows cols fa) by (assumption || lia).
      reflexivity.
    + cbn beta. intros R HR. eapply is_matrix_fun; [exact HR|].
      intros r c Hrr Hcc. cbn beta. rewrite !Z.sub_0_r.
      replace ((0 <=? r) && (r <? 0 + newSize) && (0 <=? c) && (c <? 0 + newSize))
        with true; [reflexivity|]. zbool.
Qed.

Lemma matrixUnpadding_returns {S} (s : S) (A : Matrix T) n m fa rows cols :
  is_matrix A n m fa ->
  0 <= rows <= n -> 0 <= cols <= m ->
  returns (matrixUnpadding A rows cols) s
    (fun R => is_matrix R rows cols fa).
Proof.
  intros HA Hr Hc.
  pose proof (is_matrix_bounds _ _ _ _ HA) as (Hr0 & Hc0 & Hm0).
  unfold matrixUnpadding.
  eapply returns_bind; [apply (Matrix_new_returns s rows cols); nia|].
  cbn beta. intros R0 HR0.
  eapply returns_mono.
  - apply (fill_block s R0 rows cols _ 0 0 rows cols _
             (fun i j result => v <- Matrix_at A i j ;; Matrix_set result i j v)
             fa HR0); try lia; [reflexivity|].
    intros i j M f Hi Hj HM _. unfold bind.
    rewrite (Matrix_at_is s A n m fa) by (assumption || lia). reflexivity.
  - cbn beta. intros R HR. eapply is_matrix_fun; [exact HR|].
    intros r c Hrr Hcc. cbn beta. rewrite !Z.sub_0_r. zbool.
Qed.

End MatrixFacts.

(** ** The padding round trip *)

(** C5, as amended: for every matrix [M] and every [newSize] that is at
    least [max(M.rows, M.cols)] and whose square is an [int], padding [M] to
    [newSize] x [newSize] and unpadding the result to [M.rows] x [M.cols]
    yields exactly [M]. *)
Theorem padding_roundtrip {T} {N : Numeric T} (M : Matrix T) (newSize : Z) :
  wf M ->
  Z.max (m_rows M) (m_cols M) <= newSize ->
  newSize * newSize <= INT_MAX ->
  exists padded,
    run (matrixPadding M newSize) = Ok padded tt /\
    run (matrixUnpadding padded (m_rows M) (m_cols M)) = Ok M tt.
Proof.
  intros Hwf Hmax Hsq.
  pose proof (is_matrix_entry M Hwf) as HM.
  pose proof (is_matrix_bounds _ _ _ _ HM) as (Hr & Hc & _).
  destruct (matrixPadding_returns tt M _ _ _ newSize HM ltac:(lia) ltac:(lia) Hsq)
    as (padded & Hpad & Hpadded).
  exists padded. split; [exact Hpad|].
  destruct (matrixUnpadding_returns tt padded _ _ _ (m_rows M) (m_cols M)
              Hpadded ltac:(lia) ltac:(lia)) as (R & Hun & HR).
  unfold run. rewrite Hun. f_equal.
  eapply is_matrix_ext; [exact HR|].
  eapply is_matrix_fun; [exact HM|].
  intros r c Hrr Hcc. cbn beta. zbool.
Qed.

Lemma padding_roundtrip_witness :
  exists padded,
    run (matrixPadding (mkMatrix 2 3 [1; 2; 3; 4; 5; 6]) 4) = Ok padded tt /\
    run (matrixUnpadding padded 2 3) = Ok (mkMatrix 2 3 [1; 2; 3; 4; 5; 6]) tt.
Proof.
  apply (padding_roundtrip (mkMatrix 2 3 [1; 2; 3; 4; 5; 6]) 4).
  - unfold wf, INT_MAX. cbn. lia.
  - cbn. lia.
  - unfold INT_MAX. lia.
Defined.

(** C5, as stated, fails at the 1 x 1 matrix [[7]] and [newSize = 46341]:
    [46341 * 46341] is not an [int], and the constructor of the padded
    matrix overflows. *)
Lemma padding_roundtrip_counterexample :
  wf (mkMatrix 1 1 [7%float]) /\
  Z.max 1 1 <= 46341 /\
  run (matrixPadding (mkMatrix 1 1 [7%float]) 46341) = Undefined.
Proof.
  split; [|split].
  - unfold wf, INT_MAX. cbn. lia.
  - cbn. lia.
  - vm_compute. reflexivity.
Qed.

(** ** The classical product *)

Section ProductFacts.
Context {T : Type} {N : Numeric T}.

Lemma msum_succ (k : Z) (f : Z -> T) :
  0 <= k -> msum (Z.to_nat (k + 1)) f = Tadd (msum (Z.to_nat k) f) (f k).
Proof.
  intros Hk. replace (Z.to_nat (k + 1)) with (Datatypes.S (Z.to_nat k)) by lia.
  cbn [msum]. rewrite Z2Nat.id by lia. reflexivity.
Qed.

Lemma msum_ext (n : nat) (f g : Z -> T) :
  (forall k, 0 <= k < Z.of_nat n -> f k = g k) -> msum n f = msum n g.
Proof.
  induction n as [|n IH]; intros H; [reflexivity|].
  cbn [msum]. rewrite IH by (intros k Hk; apply H; lia).
  rewrite H by lia. reflexivity.
Qed.

(** [matrixMultiply] returns the matrix of the sums
    [((0 + A(i,0) * B(0,j)) + A(i,1) * B(1,j)) + ...]. *)
Lemma matrixMultiply_returns {S} (s : S) (A B : Matrix T) n K m fa fb :
  is_matrix A n K fa -> is_matrix B K m fb -> n * m <= INT_MAX ->
  returns (matrixMultiply A B) s
    (fun R => is_matrix R n m
       (fun i j => msum (Z.to_nat K) (fun k => Tmul (fa i k) (fb k j)))).
Proof.
  intros HA HB Hnm.
  pose proof (is_matrix_bounds _ _ _ _ HA) as (Hn & HK & _).
  pose proof (is_matrix_bounds _ _ _ _ HB) as (_ & Hm & _).
  pose proof HA as (_ & HrA & HcA & _). pose proof HB as (_ & HrB & HcB & _).
  unfold matrixMultiply. rewrite HrA, HcA, HcB.
  eapply returns_bind; [apply (Matrix_new_returns s n m); lia|].
  cbn beta. intros R0 HR0.
  set (P := fun i j => msum (Z.to_nat K) (fun k => Tmul (fa i k) (fb k j))).
  eapply returns_mono.
  - apply (returns_for_fold 0 n _
      (fun i M => is_matrix M n m (fun r c => if r <? i then P r c else Tzero)));
      [lia| |].
    + eapply is_matrix_fun; [exact HR0|]. intros r c Hr Hc. cbn beta. zbool.
    + intros i M Hi HM. cbn beta.
      eapply returns_mono.
      * apply (returns_for_fold 0 K _
          (fun k M => is_matrix M n m
             (fun r c => if r <? i then P r c
                         else if r =? i
                              then msum (Z.to_nat k)
                                     (fun k' => Tmul (fa i k') (fb k' c))
                              else Tzero))); [lia| |].
        -- eapply is_matrix_fun; [exact HM|]. intros r c Hr Hc. cbn beta. zbool.
        -- intros k M1 Hk HM1. cbn beta.
           unfold returns, bind.
           rewrite (Matrix_at_is s A n K fa) by assumption.
           eapply returns_mono.
           ++ apply (fill_row s M1 n m _ i 0 m _
                (fun j => Tadd
                   (msum (Z.to_nat k) (fun k' => Tmul (fa i k') (fb k' j)))
                   (Tmul (fa i k) (fb k j))) HM1); try lia.
              intros j M2 f2 Hj HM2 Hf2. unfold bind.
              rewrite (Matrix_at_is s B K m fb) by assumption.
              rewrite (Matrix_at_is s M2 n m f2) by (assumption || lia).
              change (0 + j) with j in *. rewrite Hf2. cbn beta.
              replace (i <? i) with false by (symmetry; apply Z.ltb_ge; lia).
              rewrite Z.eqb_refl. reflexivity.
           ++ cbn beta. intros M2 HM2. eapply is_matrix_fun; [exact HM2|].
              intros r c Hr Hc. cbn beta. rewrite msum_succ by lia.
              rewrite Z.sub_0_r. zbool.
      * cbn beta. intros M1 HM1. eapply is_matrix_fun; [exact HM1|].
        intros r c Hr Hc. cbn beta. unfold P. zbool.
  - cbn beta. intros R HR. eapply is_matrix_fun; [exact HR|].
    intros r c Hr Hc. cbn beta. zbool.
Qed.

End ProductFacts.

(** ** The recursive product, over exact arithmetic *)

(** Decide every integer comparison of the goal from the hypotheses. *)
Ltac zdecide :=
  repeat match goal with
    | |- context [?a <=? ?b] =>
        first [ replace (a <=? b) with true by (symmetry; apply Z.leb_le; lia)
              | replace (a <=? b) with false by (symmetry; apply Z.leb_gt; lia) ]
    | |- context [?a <? ?b] =>
        first [ replace (a <? b) with true by (symmetry; apply Z.ltb_lt; lia)
              | replace (a <? b) with false by (symmetry; apply Z.ltb_ge; lia) ]
    | |- context [?a =? ?b] =>
        first [ replace (a =? b) with true by (symmetry; apply Z.eqb_eq; lia)
              | replace (a =? b) with false by (symmetry; apply Z.eqb_neq; lia) ]
    end;
  cbn [andb orb negb].

Section ExactArithmetic.
Context {T : Type} {N : Numeric T}.
Variables (Tone : T) (Topp : T -> T).
Hypothesis Tring : ring_theory Tzero Tone Tadd Tmul Tsub Topp (@eq T).

Add Ring T_ring : Tring.

Lemma msum_split (n m : nat) (f : Z -> T) :
  msum (n + m) f = Tadd (msum n f) (msum m (fun k => f (Z.of_nat n + k))).
Proof.
  induction m as [|m IH].
  - rewrite Nat.add_0_r. cbn [msum]. ring.
  - rewrite Nat.add_succ_r. cbn [msum]. rewrite IH.
    replace (Z.of_nat (n + m)) with (Z.of_nat n + Z.of_nat m) by lia. ring.
Qed.

Lemma msum_double (h : Z) (f : Z -> T) :
  0 <= h ->
  msum (Z.to_nat (h + h)) f =
  Tadd (msum (Z.to_nat h) f) (msum (Z.to_nat h) (fun k => f (h + k))).
Proof.
  intros Hh. rewrite Z2Nat.inj_add by lia. rewrite msum_split.
  rewrite Z2Nat.id by lia. reflexivity.
Qed.

Lemma msum_zero (n : nat) (f : Z -> T) :
  (forall k, 0 <= k < Z.of_nat n -> f k = Tzero) -> msum n f = Tzero.
Proof.
  induction n as [|n IH]; intros H; [reflexivity|].
  cbn [msum]. rewrite IH by (intros k Hk; apply H; lia).
  rewrite H by lia. ring.
Qed.

(** The four combinations of the seven products, term by term. *)
Section Combinations.
Variables a11 a12 a21 a22 b11 b12 b21 b22 : Z -> T.

Lemma strassen_sum_11 (n : nat) :
  Tadd (Tsub (Tadd
    (msum n (fun k => Tmul (Tadd (a11 k) (a22 k)) (Tadd (b11 k) (b22 k))))
    (msum n (fun k => Tmul (a22 k) (Tsub (b21 k) (b11 k)))))
    (msum n (fun k => Tmul (Tadd (a11 k) (a12 k)) (b22 k))))
    (msum n (fun k => Tmul (Tsub (a12 k) (a22 k)) (Tadd (b21 k) (b22 k))))
  = Tadd (msum n (fun k => Tmul (a11 k) (b11 k)))
         (msum n (fun k => Tmul (a12 k) (b21 k))).
Proof.
  induction n as [|n IH]; cbn [msum]; [ring|].
  match goal with
  | |- Tadd (Tsub (Tadd (Tadd ?m1 ?x1) (Tadd ?m4 ?x4)) (Tadd ?m5 ?x5))
            (Tadd ?m7 ?x7) = _ =>
      transitivity (Tadd (Tadd (Tsub (Tadd m1 m4) m5) m7)
                         (Tadd (Tsub (Tadd x1 x4) x5) x7)); [ring|]
  end.
  rewrite IH. ring.
Qed.

Lemma strassen_sum_12 (n : nat) :
  Tadd (msum n (fun k => Tmul (a11 k) (Tsub (b12 k) (b22 k))))
       (msum n (fun k => Tmul (Tadd (a11 k) (a12 k)) (b22 k)))
  = Tadd (msum n (fun k => Tmul (a11 k) (b12 k)))
         (msum n (fun k => Tmul (a12 k) (b22 k))).
Proof.
  induction n as [|n IH]; cbn [msum]; [ring|].
  match goal with
  | |- Tadd (Tadd ?m3 ?x3) (Tadd ?m5 ?x5) = _ =>
      transitivity (Tadd (Tadd m3 m5) (Tadd x3 x5)); [ring|]
  end.
  rewrite IH. ring.
Qed.

Lemma strassen_sum_21 (n : nat) :
  Tadd (msum n (fun k => Tmul (Tadd (a21 k) (a22 k)) (b11 k)))
       (msum n (fun k => Tmul (a22 k) (Tsub (b21 k) (b11 k))))
  = Tadd (msum n (fun k => Tmul (a21 k) (b11 k)))
         (msum n (fun k => Tmul (a22 k) (b21 k))).
Proof.
  induction n as [|n IH]; cbn [msum]; [ring|].
  match goal with
  | |- Tadd (Tadd ?m2 ?x2) (Tadd ?m4 ?x4) = _ =>
      transitivity (Tadd (Tadd m2 m4) (Tadd x2 x4)); [ring|]
  end.
  rewrite IH. ring.
Qed.

Lemma strassen_sum_22 (n : nat) :
  Tadd (Tadd (Tsub
    (msum n (fun k => Tmul (Tadd (a11 k) (a22 k)) (Tadd (b11 k) (b22 k))))
    (msum n (fun k => Tmul (Tadd (a21 k) (a22 k)) (b11 k))))
    (msum n (fun k => Tmul (a11 k) (Tsub (b12 k) (b22 k)))))
    (msum n (fun k => Tmul (Tsub (a21 k) (a11 k)) (Tadd (b11 k) (b12 k))))
  = Tadd (msum n (fun k => Tmul (a21 k) (b12 k)))
         (msum n (fun k => Tmul (a22 k) (b22 k))).
Proof.
  induction n as [|n IH]; cbn [msum]; [ring|].
  match goal with
  | |- Tadd (Tadd (Tsub (Tadd ?m1 ?x1) (Tadd ?m2 ?x2)) (Tadd ?m3 ?x3))
            (Tadd ?m6 ?x6) = _ =>
      transitivity (Tadd (Tadd (Tadd (Tsub m1 m2) m3) m6)
                         (Tadd (Tadd (Tsub x1 x2) x3) x6)); [ring|]
  end.
  rewrite IH. ring.
Qed.

End Combinations.

Lemma pow2_half (n : Z) :
  is_pow2 n -> 64 < n ->
  let h := Z.quot n 2 in is_pow2 h /\ n = h + h /\ 32 < h.
Proof.
  intros (k & Hk & ->) Hn. cbn zeta.
  assert (Hk7 : 1 <= k).
  { destruct (Z.le_gt_cases 1 k) as [|Hlt]; [assumption|].
    assert (k = 0) by lia. subst k. cbn in Hn. lia. }
  assert (Hpow : 2 ^ k = 2 * 2 ^ (k - 1)).
  { replace k with (1 + (k - 1)) at 1 by lia.
    rewrite Z.pow_add_r by lia. reflexivity. }
  assert (Hq : Z.quot (2 ^ k) 2 = 2 ^ (k - 1)).
  { rewrite Hpow. rewrite Z.mul_comm. apply Z.quot_mul. lia. }
  rewrite Hq. split; [exists (k - 1); split; [lia|reflexivity]|].
  split; lia.
Qed.

(** [strassenMultiply] on two [n] x [n] matrices, [n] a power of two, returns
    the matrix the classical product returns, once the fuel covers the depth
    of the recursion. *)
Lemma strassenMultiply_returns {S} (s : S) (fuel : nat) :
  forall (A B : Matrix T) n fa fb,
  is_matrix A n n fa -> is_matrix B n n fb -> is_pow2 n ->
  (0 < fuel)%nat -> n <= 64 * 2 ^ (Z.of_nat fuel - 1) ->
  returns (strassenMultiply fuel A B) s
    (fun R => is_matrix R n n
       (fun i j => msum (Z.to_nat n) (fun k => Tmul (fa i k) (fb k j)))).
Proof.
  induction fuel as [|fuel IH]; intros A B n fa fb HA HB Hp Hf Hn; [lia|].
  pose proof (is_matrix_bounds _ _ _ _ HA) as (Hn0 & _ & Hnn).
  pose proof HA as (_ & HrA & _ & _).
  cbn [strassenMultiply]. cbn zeta. rewrite HrA.
  destruct (Z.leb_spec n 64) as [Hsmall|Hbig].
  { apply matrixMultiply_returns; assumption. }
  destruct (pow2_half n Hp Hbig) as (Hph & Hnh & Hh32).
  set (h := Z.quot n 2) in *.
  assert (Hfuel : (0 < fuel)%nat).
  { destruct fuel; [|lia]. cbn in Hn. lia. }
  assert (Hhb : h <= 64 * 2 ^ (Z.of_nat fuel - 1)).
  { replace (Z.of_nat (Datatypes.S fuel) - 1) with (1 + (Z.of_nat fuel - 1)) in Hn
      by lia.
    rewrite Z.pow_add_r in Hn by lia. lia. }
  assert (Hh0 : 0 <= h) by lia.
  eapply returns_bind;
    [apply (getSubMatrix_returns s A n n fa 0 0 h HA); lia|].
  cbn beta. intros A11 HA11.
  eapply returns_bind;
    [apply (getSubMatrix_returns s A n n fa 0 h h HA); lia|].
  cbn beta. intros A12 HA12.
  eapply returns_bind;
    [apply (getSubMatrix_returns s A n n fa h 0 h HA); lia|].
  cbn beta. intros A21 HA21.
  eapply returns_bind;
    [apply (getSubMatrix_returns s A n n fa h h h HA); lia|].
  cbn beta. intros A22 HA22.
  eapply returns_bind;
    [apply (getSubMatrix_returns s B n n fb 0 0 h HB); lia|].
  cbn beta. intros B11 HB11.
  eapply returns_bind;
    [apply (getSubMatrix_returns s B n n fb 0 h h HB); lia|].
  cbn beta. intros B12 HB12.
  eapply returns_bind;
    [apply (getSubMatrix_returns s B n n fb h 0 h HB); lia|].
  cbn beta. intros B21 HB21.
  eapply returns_bind;
    [apply (getSubMatrix_returns s B n n fb h h h HB); lia|].
  cbn beta. intros B22 HB22.
  (* M1 *)
  eapply returns_bind; [apply (Matrix_add_returns s _ _ _ _ _ _ HA11 HA22)|].
  cbn beta. intros a1 Ha1.
  eapply returns_bind; [apply (Matrix_add_returns s _ _ _ _ _ _ HB11 HB22)|].
  cbn beta. intros b1 Hb1.
  eapply returns_bind; [apply (IH _ _ _ _ _ Ha1 Hb1 Hph Hfuel Hhb)|].
  cbn beta. intros M1 HM1.
  (* M2 *)
  eapply returns_bind; [apply (Matrix_add_returns s _ _ _ _ _ _ HA21 HA22)|].
  cbn beta. intros a2 Ha2.
  eapply returns_bind; [apply (IH _ _ _ _ _ Ha2 HB11 Hph Hfuel Hhb)|].
  cbn beta. intros M2 HM2.
  (* M3 *)
  eapply returns_bind; [apply (Matrix_sub_returns s _ _ _ _ _ _ HB12 HB22)|].
  cbn beta. intros b3 Hb3.
  eapply returns_bind; [apply (IH _ _ _ _ _ HA11 Hb3 Hph Hfuel Hhb)|].
  cbn beta. intros M3 HM3.
  (* M4 *)
  eapply returns_bind; [apply (Matrix_sub_returns s _ _ _ _ _ _ HB21 HB11)|].
  cbn beta. intros b4 Hb4.
  eapply returns_bind; [apply (IH _ _ _ _ _ HA22 Hb4 Hph Hfuel Hhb)|].
  cbn beta. intros M4 HM4.
  (* M5 *)
  eapply returns_bind; [apply (Matrix_add_returns s _ _ _ _ _ _ HA11 HA12)|].
  cbn beta. intros a5 Ha5.
  eapply returns_bind; [apply (IH _ _ _ _ _ Ha5 HB22 Hph Hfuel Hhb)|].
  cbn beta. intros M5 HM5.
  (* M6 *)
  eapply returns_bind; [apply (Matrix_sub_returns s _ _ _ _ _ _ HA21 HA11)|].
  cbn beta. intros a6 Ha6.
  eapply returns_bind; [apply (Matrix_add_returns s _ _ _ _ _ _ HB11 HB12)|].
  cbn beta. intros b6 Hb6.
  eapply returns_bind; [apply (IH _ _ _ _ _ Ha6 Hb6 Hph Hfuel Hhb)|].
  cbn beta. intros M6 HM6.
  (* M7 *)
  eapply returns_bind; [apply (Matrix_sub_returns s _ _ _ _ _ _ HA12 HA22)|].
  cbn beta. intros a7 Ha7.
  eapply returns_bind; [apply (Matrix_add_returns s _ _ _ _ _ _ HB21 HB22)|].
  cbn beta. intros b7 Hb7.
  eapply returns_bind; [apply (IH _ _ _ _ _ Ha7 Hb7 Hph Hfuel Hhb)|].
  cbn beta. intros M7 HM7.
  (* the four quadrants *)
  eapply returns_bind; [apply (Matrix_add_returns s _ _ _ _ _ _ HM1 HM4)|].
  cbn beta. intros c1 Hc1.
  eapply returns_bind; [apply (Matrix_sub_returns s _ _ _ _ _ _ Hc1 HM5)|].
  cbn beta. intros c2 Hc2.
  eapply returns_bind; [apply (Matrix_add_returns s _ _ _ _ _ _ Hc2 HM7)|].
  cbn beta. intros C11 HC11.
  eapply returns_bind; [apply (Matrix_add_returns s _ _ _ _ _ _ HM3 HM5)|].
  cbn beta. intros C12 HC12.
  eapply returns_bind; [apply (Matrix_add_returns s _ _ _ _ _ _ HM2 HM4)|].
  cbn beta. intros C21 HC21.
  eapply returns_bind; [apply (Matrix_sub_returns s _ _ _ _ _ _ HM1 HM2)|].
  cbn beta. intros d1 Hd1.
  eapply returns_bind; [apply (Matrix_add_returns s _ _ _ _ _ _ Hd1 HM3)|].
  cbn beta. intros d2 Hd2.
  eapply returns_bind; [apply (Matrix_add_returns s _ _ _ _ _ _ Hd2 HM6)|].
  cbn beta. intros C22 HC22.
  (* assembling *)
  eapply returns_bind; [apply (Matrix_new_returns s n n); lia|].
  cbn beta. intros C0 HC0.
  eapply returns_bind;
    [apply (setSubMatrix_returns s _ _ _ _ _ _ _ 0 0 HC0 HC11); lia|].
  cbn beta. intros C1 HC1.
  eapply returns_bind;
    [apply (setSubMatrix_returns s _ _ _ _ _ _ _ 0 h HC1 HC12); lia|].
  cbn beta. intros C2 HC2.
  eapply returns_bind;
    [apply (setSubMatrix_returns s _ _ _ _ _ _ _ h 0 HC2 HC21); lia|].
  cbn beta. intros C3 HC3.
  eapply returns_bind;
    [apply (setSubMatrix_returns s _ _ _ _ _ _ _ h h HC3 HC22); lia|].
  cbn beta. intros C4 HC4.
  apply returns_ret.
  eapply is_matrix_fun; [exact HC4|].
  intros r c Hr Hc. cbn beta.
  rewrite Hnh. rewrite msum_double by lia.
  destruct (Z.lt_ge_cases r h) as [Hrh|Hrh], (Z.lt_ge_cases c h) as [Hch|Hch];
    zdecide.
  - rewrite !Z.sub_0_r.
    apply (strassen_sum_11
             (fun k => fa r k) (fun k => fa r (h + k))
             (fun k => fa (h + r) (h + k))
             (fun k => fb k c)
             (fun k => fb (h + k) c) (fun k => fb (h + k) (h + c))).
  - set (c' := c - h) in *. assert (Hc' : c = h + c') by lia.
    clearbody c'. subst c. rewrite !Z.sub_0_r.
    apply (strassen_sum_12
             (fun k => fa r k) (fun k => fa r (h + k))
             (fun k => fb k (h + c'))
             (fun k => fb (h + k) (h + c'))).
  - set (r' := r - h) in *. assert (Hr' : r = h + r') by lia.
    clearbody r'. subst r. rewrite !Z.sub_0_r.
    apply (strassen_sum_21
             (fun k => fa (h + r') k) (fun k => fa (h + r') (h + k))
             (fun k => fb k c)
             (fun k => fb (h + k) c)).
  - set (r' := r - h) in *. assert (Hr' : r = h + r') by lia.
    set (c' := c - h) in *. assert (Hc' : c = h + c') by lia.
    clearbody r' c'. subst r c.
    apply (strassen_sum_22
             (fun k => fa r' k)
             (fun k => fa (h + r') k) (fun k => fa (h + r') (h + k))
             (fun k => fb k c') (fun k => fb k (h + c'))
             (fun k => fb (h + k) (h + c'))).
Qed.

(** *** The recursive path of operator* *)

Lemma padded_sum (p K : Z) (a b : Z -> T) :
  0 <= K <= p ->
  msum (Z.to_nat p)
    (fun k => Tmul (if k <? K then a k else Tzero)
                   (if k <? K then b k else Tzero))
  = msum (Z.to_nat K) (fun k => Tmul (a k) (b k)).
Proof.
  intros HK. replace (Z.to_nat p) with (Z.to_nat K + Z.to_nat (p - K))%nat by lia.
  rewrite msum_split.
  rewrite (msum_zero (Z.to_nat (p - K))).
  - rewrite (msum_ext _ _ (fun k => Tmul (a k) (b k))); [ring|].
    intros k Hk. zdecide. reflexivity.
  - intros k Hk. zdecide. ring.
Qed.

Lemma recursive_product_returns {S} (s : S) (fuel : nat) (A B : Matrix T)
  n K m fa fb :
  is_matrix A n K fa -> is_matrix B K m fb ->
  max4 n K K m <= 32768 -> (16 <= fuel)%nat ->
  returns (recursive_product fuel A B) s
    (fun R => is_matrix R n m
       (fun i j => msum (Z.to_nat K) (fun k => Tmul (fa i k) (fb k j)))).
Proof.
  intros HA HB Hmax Hfuel.
  pose proof (is_matrix_bounds _ _ _ _ HA) as (Hn & HK & _).
  pose proof (is_matrix_bounds _ _ _ _ HB) as (_ & Hm & _).
  pose proof HA as (_ & HrA & HcA & _). pose proof HB as (_ & HrB & HcB & _).
  unfold recursive_product. cbn zeta. rewrite HrA, HcA, HrB, HcB.
  set (maxDim := max4 n K K m) in *.
  assert (Hmd : 0 <= maxDim /\ n <= maxDim /\ K <= maxDim /\ m <= maxDim)
    by (unfold maxDim, max4; lia).
  destruct (next_pow2_spec maxDim ltac:(lia)) as (Hp2 & Hple & Hpmin).
  set (p := next_pow2 maxDim) in *.
  assert (Hp15 : p <= 32768).
  { apply (Hpmin 32768); [exists 15; split; [lia|reflexivity]|lia]. }
  assert (Hlog : Z.log2_up maxDim <= 15).
  { change 15 with (Z.log2_up 32768). apply Z.log2_up_le_mono. lia. }
  assert (Hpp : p * p <= INT_MAX) by (unfold INT_MAX; nia).
  rewrite to_size_t_small by (split; [lia|]; apply Z.le_lt_trans with 32768;
                               [lia|reflexivity]).
  apply (returns_bind _ _ s (fun a => a = p)).
  { exists p. split; [|reflexivity].
    apply nextPowerOfTwo_returns; [split; [lia|]|lia].
    apply Z.le_trans with 32768; [lia|discriminate]. }
  intros ? ->.
  assert (Hti : to_int p = p).
  { unfold to_int. rewrite Z.mod_small; [lia|].
    split; [lia|]. apply Z.lt_le_trans with (32768 + 2 ^ 31 + 1); [lia|discriminate]. }
  rewrite Hti.
  eapply returns_bind;
    [apply (matrixPadding_returns s A n K fa p HA); lia|].
  cbn beta. intros Ap HAp.
  eapply returns_bind;
    [apply (matrixPadding_returns s B K m fb p HB); lia|].
  cbn beta. intros Bp HBp.
  eapply returns_bind.
  { apply (strassenMultiply_returns s fuel Ap Bp p _ _ HAp HBp Hp2); [lia|].
    apply Z.le_trans with (64 * 2 ^ 9); [lia|].
    apply Z.mul_le_mono_nonneg_l; [lia|]. apply Z.pow_le_mono_r; lia. }
  cbn beta. intros Cp HCp.
  eapply returns_mono;
    [apply (matrixUnpadding_returns s Cp p p _ n m HCp); lia|].
  cbn beta. intros R HR. eapply is_matrix_fun; [exact HR|].
  intros i j Hi Hj. cbn beta.
  rewrite <- (padded_sum p K (fun k => fa i k) (fun k => fb k j)) by lia.
  apply msum_ext. intros k Hk. zdecide.
  destruct (Z.ltb_spec k K); reflexivity.
Qed.


End ExactArithmetic.


(** The worked product of the specification, under both paths. *)
Example product_2x2_classical :
  run (matrixMultiply A_2x2 B_2x2) = Ok (mkMatrix 2 2 [19; 22; 43; 50]) tt.
Proof. vm_compute. reflexivity. Qed.

Example product_2x2_recursive :
  run (recursive_product 16 A_2x2 B_2x2) = Ok (mkMatrix 2 2 [19; 22; 43; 50]) tt.
Proof. vm_compute. reflexivity. Qed.

(** *** Where the recursive path leaves the range of [int] *)

Lemma while_fuel_mono {S X} (cond : X -> bool) (body : X -> prog S X) fuel :
  forall x s a s', while_ fuel cond body x s = Ok a s' ->
  forall fuel', (fuel <= fuel')%nat -> while_ fuel' cond body x s = Ok a s'.
Proof.
  induction fuel as [|fuel IH]; intros x s a s' H fuel' Hle; [discriminate|].
  destruct fuel' as [|fuel']; [lia|].
  cbn [while_] in *. destruct (cond x); [|exact H].
  unfold bind in *. destruct (body x s) as [x1 s1| | |]; try discriminate.
  apply (IH _ _ _ _ H). lia.
Qed.

Lemma nextPowerOfTwo_value {S} (s s' : S) fuel n a :
  0 <= n <= 2 ^ 63 -> nextPowerOfTwo fuel n s = Ok a s' -> a = next_pow2 n.
Proof.
  intros Hn H.
  set (fuel' := Nat.max fuel (Datatypes.S (Z.to_nat (Z.log2_up n)))).
  assert (H' : nextPowerOfTwo fuel' n s = Ok a s').
  { unfold nextPowerOfTwo in *. destruct (n =? 0); [exact H|].
    destruct (Z.land n (to_size_t (n - 1)) =? 0); [exact H|].
    apply (while_fuel_mono _ _ fuel _ _ _ _ H). unfold fuel'. lia. }
  rewrite nextPowerOfTwo_returns in H' by (unfold fuel'; lia).
  congruence.
Qed.



(** The recursive path on the column and the row: the padded size is 65536,
    and the constructor of the padded matrix overflows. *)
Lemma recursive_product_column_row (fuel : nat) (C : Matrix float) :
  run (recursive_product fuel column_32769 row_64) <> Ok C tt.
Proof.
  unfold run, recursive_product. cbn zeta.
  change (to_size_t (max4 (m_rows column_32769) (m_cols column_32769)
                       (m_rows row_64) (m_cols row_64))) with 32769.
  unfold bind at 1.
  destruct (nextPowerOfTwo fuel 32769 tt) as [p u| | |] eqn:E; try discriminate.
  apply nextPowerOfTwo_value in E; [|lia]. subst p.
  change (to_int (next_pow2 32769)) with 65536. destruct u.
  unfold bind at 1.
  replace (matrixPadding column_32769 65536 tt) with (@Undefined unit (Matrix float))
    by (vm_compute; reflexivity).
  discriminate.
Qed.

(** *** Where rounding separates the two paths *)

Section OneSplit.
Context {T : Type} {N : Numeric T}.

(** Within the threshold the recursion is the classical product, for every
    element type. *)
Lemma strassenMultiply_within_threshold {S} (s : S) (fuel : nat)
  (A B : Matrix T) h fa fb :
  is_matrix A h h fa -> is_matrix B h h fb -> h <= 64 -> (0 < fuel)%nat ->
  returns (strassenMultiply fuel A B) s
    (fun R => is_matrix R h h
       (fun i j => msum (Z.to_nat h) (fun k => Tmul (fa i k) (fb k j)))).
Proof.
  intros HA HB Hh Hf. destruct fuel as [|fuel]; [lia|].
  pose proof (is_matrix_bounds _ _ _ _ HA) as (_ & _ & Hnn).
  pose proof HA as (_ & HrA & _ & _).
  cbn [strassenMultiply]. cbn zeta. rewrite HrA.
  replace (h <=? 64) with true by (symmetry; apply Z.leb_le; lia).
  apply matrixMultiply_returns; assumption.
Qed.

(** One split: on two [2h] x [2h] matrices with [32 < h <= 64],
    [strassenMultiply] computes the top-right quadrant as [M3 + M5], where
    [M3 = A11 (B12 - B22)] and [M5 = (A11 + A12) B22] are classical
    products, whatever the element type. *)
Lemma strassenMultiply_top_right {S} (s : S) (fuel : nat) (A B : Matrix T)
  h fa fb :
  is_matrix A (h + h) (h + h) fa -> is_matrix B (h + h) (h + h) fb ->
  32 < h <= 64 -> (2 <= fuel)%nat ->
  returns (strassenMultiply fuel A B) s
    (fun R => exists f, is_matrix R (h + h) (h + h) f /\
       forall r c, 0 <= r < h -> 0 <= c < h ->
         f r (h + c) =
         Tadd
           (msum (Z.to_nat h)
              (fun k => Tmul (fa r k)
                          (Tsub (fb k (h + c)) (fb (h + k) (h + c)))))
           (msum (Z.to_nat h)
              (fun k => Tmul (Tadd (fa r k) (fa r (h + k)))
                          (fb (h + k) (h + c))))).
Proof.
  intros HA HB Hh Hf. destruct fuel as [|fuel]; [lia|].
  assert (Hfuel : (0 < fuel)%nat) by lia.
  pose proof (is_matrix_bounds _ _ _ _ HA) as (Hn0 & _ & Hnn).
  pose proof HA as (_ & HrA & _ & _).
  assert (Hq : Z.quot (h + h) 2 = h).
  { replace (h + h) with (h * 2) by lia. apply Z.quot_mul. lia. }
  cbn [strassenMultiply]. cbn zeta. rewrite HrA, Hq.
  replace (h + h <=? 64) with false by (symmetry; apply Z.leb_gt; lia).
  assert (Hsub : forall (X Y : Matrix T) fx fy,
            is_matrix X h h fx -> is_matrix Y h h fy ->
            returns (strassenMultiply fuel X Y) s
              (fun R => is_matrix R h h
                 (fun i j => msum (Z.to_nat h)
                               (fun k => Tmul (fx i k) (fy k j))))).
  { intros X Y fx fy HX HY.
    apply strassenMultiply_within_threshold; (assumption || lia). }
  eapply returns_bind;
    [apply (getSubMatrix_returns s A _ _ fa 0 0 h HA); lia|].
  cbn beta. intros A11 HA11.
  eapply returns_bind;
    [apply (getSubMatrix_returns s A _ _ fa 0 h h HA); lia|].
  cbn beta. intros A12 HA12.
  eapply returns_bind;
    [apply (getSubMatrix_returns s A _ _ fa h 0 h HA); lia|].
  cbn beta. intros A21 HA21.
  eapply returns_bind;
    [apply (getSubMatrix_returns s A _ _ fa h h h HA); lia|].
  cbn beta. intros A22 HA22.
  eapply returns_bind;
    [apply (getSubMatrix_returns s B _ _ fb 0 0 h HB); lia|].
  cbn beta. intros B11 HB11.
  eapply returns_bind;
    [apply (getSubMatrix_returns s B _ _ fb 0 h h HB); lia|].
  cbn beta. intros B12 HB12.
  eapply returns_bind;
    [apply (getSubMatrix_returns s B _ _ fb h 0 h HB); lia|].
  cbn beta. intros B21 HB21.
  eapply returns_bind;
    [apply (getSubMatrix_returns s B _ _ fb h h h HB); lia|].
  cbn beta. intros B22 HB22.
  eapply returns_bind; [apply (Matrix_add_returns s _ _ _ _ _ _ HA11 HA22)|].
  cbn beta. intros a1 Ha1.
  eapply returns_bind; [apply (Matrix_add_returns s _ _ _ _ _ _ HB11 HB22)|].
  cbn beta. intros b1 Hb1.
  eapply returns_bind; [apply (Hsub _ _ _ _ Ha1 Hb1)|].
  cbn beta. intros M1 HM1.
  eapply returns_bind; [apply (Matrix_add_returns s _ _ _ _ _ _ HA21 HA22)|].
  cbn beta. intros a2 Ha2.
  eapply returns_bind; [apply (Hsub _ _ _ _ Ha2 HB11)|].
  cbn beta. intros M2 HM2.
  eapply returns_bind; [apply (Matrix_sub_returns s _ _ _ _ _ _ HB12 HB22)|].
  cbn beta. intros b3 Hb3.
  eapply returns_bind; [apply (Hsub _ _ _ _ HA11 Hb3)|].
  cbn beta. intros M3 HM3.
  eapply returns_bind; [apply (Matrix_sub_returns s _ _ _ _ _ _ HB21 HB11)|].
  cbn beta. intros b4 Hb4.
  eapply returns_bind; [apply (Hsub _ _ _ _ HA22 Hb4)|].
  cbn beta. intros M4 HM4.
  eapply returns_bind; [apply (Matrix_add_returns s _ _ _ _ _ _ HA11 HA12)|].
  cbn beta. intros a5 Ha5.
  eapply returns_bind; [apply (Hsub _ _ _ _ Ha5 HB22)|].
  cbn beta. intros M5 HM5.
  eapply returns_bind; [apply (Matrix_sub_returns s _ _ _ _ _ _ HA21 HA11)|].
  cbn beta. intros a6 Ha6.
  eapply returns_bind; [apply (Matrix_add_returns s _ _ _ _ _ _ HB11 HB12)|].
  cbn beta. intros b6 Hb6.
  eapply returns_bind; [apply (Hsub _ _ _ _ Ha6 Hb6)|].
  cbn beta. intros M6 HM6.
  eapply returns_bind; [apply (Matrix_sub_returns s _ _ _ _ _ _ HA12 HA22)|].
  cbn beta. intros a7 Ha7.
  eapply returns_bind; [apply (Matrix_add_returns s _ _ _ _ _ _ HB21 HB22)|].
  cbn beta. intros b7 Hb7.
  eapply returns_bind; [apply (Hsub _ _ _ _ Ha7 Hb7)|].
  cbn beta. intros M7 HM7.
  eapply returns_bind; [apply (Matrix_add_returns s _ _ _ _ _ _ HM1 HM4)|].
  cbn beta. intros c1 Hc1.
  eapply returns_bind; [apply (Matrix_sub_returns s _ _ _ _ _ _ Hc1 HM5)|].
  cbn beta. intros c2 Hc2.
  eapply returns_bind; [apply (Matrix_add_returns s _ _ _ _ _ _ Hc2 HM7)|].
  cbn beta. intros C11 HC11.
  eapply returns_bind; [apply (Matrix_add_returns s _ _ _ _ _ _ HM3 HM5)|].
  cbn beta. intros C12 HC12.
  eapply returns_bind; [apply (Matrix_add_returns s _ _ _ _ _ _ HM2 HM4)|].
  cbn beta. intros C21 HC21.
  eapply returns_bind; [apply (Matrix_sub_returns s _ _ _ _ _ _ HM1 HM2)|].
  cbn beta. intros d1 Hd1.
  eapply returns_bind; [apply (Matrix_add_returns s _ _ _ _ _ _ Hd1 HM3)|].
  cbn beta. intros d2 Hd2.
  eapply returns_bind; [apply (Matrix_add_returns s _ _ _ _ _ _ Hd2 HM6)|].
  cbn beta. intros C22 HC22.
  eapply returns_bind; [apply (Matrix_new_returns s (h + h) (h + h)); lia|].
  cbn beta. intros C0 HC0.
  eapply returns_bind;
    [apply (setSubMatrix_returns s _ _ _ _ _ _ _ 0 0 HC0 HC11); lia|].
  cbn beta. intros C1 HC1.
  eapply returns_bind;
    [apply (setSubMatrix_returns s _ _ _ _ _ _ _ 0 h HC1 HC12); lia|].
  cbn beta. intros C2 HC2.
  eapply returns_bind;
    [apply (setSubMatrix_returns s _ _ _ _ _ _ _ h 0 HC2 HC21); lia|].
  cbn beta. intros C3 HC3.
  eapply returns_bind;
    [apply (setSubMatrix_returns s _ _ _ _ _ _ _ h h HC3 HC22); lia|].
  cbn beta. intros C4 HC4.
  apply returns_ret. eexists. split; [exact HC4|].
  intros r c Hr Hc. cbn beta. zdecide.
  rewrite !Z.sub_0_r. replace (h + c - h) with c by lia.
  reflexivity.
Qed.

End OneSplit.

Lemma wf_cancelling_A : wf cancelling_A.
Proof. unfold wf, INT_MAX. vm_compute. intuition congruence. Qed.

Lemma wf_cancelling_B : wf cancelling_B.
Proof. unfold wf, INT_MAX. vm_compute. intuition congruence. Qed.


(** The recursive path pads them to 128 x 128 and splits once.  At (0,64)
    it adds [M3 = 1 * (1 - 2^1023) = -2^1023], where the 1 is rounded away,
    to [M5 = 1 * 2^1023]: the sum is 0.  At (1,64) it adds
    [M3 = 2 * (1 - 2^1023)] to [M5 = 2 * 2^1023], which overflow to the two
    infinities: the sum is NaN. *)
Lemma recursive_cancelling (fuel : nat) :
  (8 <= fuel)%nat ->
  exists R,
    run (recursive_product fuel cancelling_A cancelling_B) = Ok R tt /\
    entry R 0 64 = 0%float /\ PrimFloat.is_nan (entry R 1 64) = true.
Proof.
  intros Hfuel.
  pose proof (is_matrix_entry _ wf_cancelling_A) as HA.
  pose proof (is_matrix_entry _ wf_cancelling_B) as HB.
  change (m_rows cancelling_A) with 65 in HA.
  change (m_cols cancelling_A) with 65 in HA.
  change (m_rows cancelling_B) with 65 in HB.
  change (m_cols cancelling_B) with 65 in HB.
  change (exists R,
    run (recursive_product fuel cancelling_A cancelling_B) = Ok R tt /\
    entry R 0 64 = 0%float /\ PrimFloat.is_nan (entry R 1 64) = true)
    with (returns (recursive_product fuel cancelling_A cancelling_B) tt
            (fun R => entry R 0 64 = 0%float /\
                      PrimFloat.is_nan (entry R 1 64) = true)).
  unfold recursive_product. cbn zeta.
  change (to_size_t (max4 (m_rows cancelling_A) (m_cols cancelling_A)
                       (m_rows cancelling_B) (m_cols cancelling_B))) with 65.
  apply (returns_bind _ _ tt (fun a => a = 128)).
  { exists 128. split; [|reflexivity].
    rewrite nextPowerOfTwo_returns; [reflexivity|lia|].
    change (Z.log2_up 65) with 7. lia. }
  intros ? ->. change (to_int 128) with 128.
  eapply returns_bind;
    [apply (matrixPadding_returns tt _ 65 65 _ 128 HA); unfold INT_MAX; lia|].
  cbn beta. intros Ap HAp.
  eapply returns_bind;
    [apply (matrixPadding_returns tt _ 65 65 _ 128 HB); unfold INT_MAX; lia|].
  cbn beta. intros Bp HBp.
  eapply returns_bind;
    [apply (strassenMultiply_top_right tt fuel Ap Bp 64 _ _ HAp HBp); lia|].
  cbn beta. intros Cp (f & HCp & Hf).
  eapply returns_mono;
    [apply (matrixUnpadding_returns tt Cp _ _ _ 65 65 HCp); lia|].
  cbn beta. intros R (_ & _ & _ & He).
  rewrite !He by lia.
  pose proof (Hf 0 0 ltac:(lia) ltac:(lia)) as H0.
  pose proof (Hf 1 0 ltac:(lia) ltac:(lia)) as H1.
  change (64 + 0) with 64 in H0, H1. rewrite H0, H1.
  split; vm_compute; reflexivity.
Qed.


(** Both operands have at least 64 elements: [operator*] takes the recursive
    path on them, and returns nothing either. *)
Lemma Matrix_mul_column_row (fuel : nat) (C : Matrix float) :
  run (Matrix_mul fuel column_32769 row_64) <> Ok C tt.
Proof.
  exact (recursive_product_column_row fuel C).
Qed.

(** Both cancelling matrices have 4225 elements: [operator*] takes the
    recursive path on them, and returns the 0 and the NaN. *)
Lemma Matrix_mul_cancelling (fuel : nat) :
  (8 <= fuel)%nat ->
  exists R,
    run (Matrix_mul fuel cancelling_A cancelling_B) = Ok R tt /\
    entry R 0 64 = 0%float /\ PrimFloat.is_nan (entry R 1 64) = true.
Proof.
  exact (recursive_cancelling fuel).
Qed.

(** The worked product of the specification, through [operator*]. *)
Example product_2x2_operator :
  run (Matrix_mul 16 A_2x2 B_2x2) = Ok (mkMatrix 2 2 [19; 22; 43; 50]) tt.
Proof. vm_compute. reflexivity. Qed.

(** ** The incompatible-dimensions error *)

Lemma quiet_ret {S A} (a : A) : quiet (@ret S A a).
Proof. intros s. exact I. Qed.

Lemma quiet_undefined {S A} : quiet (@undefined S A).
Proof. intros s. exact I. Qed.

Lemma quiet_diverge {S A} : quiet (@diverge S A).
Proof. intros s. exact I. Qed.

Lemma quiet_throw {S A} (e : exn) :
  e <> invalid_argument mul_msg -> quiet (@throw S A e).
Proof. intros H s. exact H. Qed.

Lemma quiet_bind {S A B} (c : prog S A) (k : A -> prog S B) :
  quiet c -> (forall a, quiet (k a)) -> quiet (bind c k).
Proof.
  intros Hc Hk s. apply wp_bind. eapply wp_mono; [apply Hc| |auto].
  cbn beta. intros a s' _. apply Hk.
Qed.

Lemma quiet_if {S A} (b : bool) (c1 c2 : prog S A) :
  quiet c1 -> quiet c2 -> quiet (if b then c1 else c2).
Proof. destruct b; auto. Qed.

Lemma quiet_for_fold {S X} lo hi (body : Z -> X -> prog S X) x :
  (forall i x, quiet (body i x)) -> quiet (for_fold lo hi body x).
Proof.
  intros Hb. unfold for_fold. generalize (Z.to_nat (hi - lo)) as n.
  intros n. revert lo x. induction n as [|n IH]; intros lo x.
  - apply quiet_ret.
  - cbn [for_count]. apply quiet_bind; [apply Hb|]. intros x'. apply IH.
Qed.

Lemma quiet_while {S X} fuel (cond : X -> bool) (body : X -> prog S X) x :
  (forall x, quiet (body x)) -> quiet (while_ fuel cond body x).
Proof.
  intros Hb. revert x. induction fuel as [|fuel IH]; intros x.
  - apply quiet_diverge.
  - cbn [while_]. apply quiet_if; [|apply quiet_ret].
    apply quiet_bind; [apply Hb|]. intros x'. apply IH.
Qed.

Lemma add_msg_other : invalid_argument add_msg <> invalid_argument mul_msg.
Proof. discriminate. Qed.

Lemma sub_msg_other : invalid_argument sub_msg <> invalid_argument mul_msg.
Proof. discriminate. Qed.

Lemma length_error_other : length_error <> invalid_argument mul_msg.
Proof. discriminate. Qed.

(** Break a computation into its statements; what is left are the calls. *)
Ltac quiet_step :=
  first [ apply quiet_ret | apply quiet_undefined | apply quiet_diverge
        | apply quiet_throw; first [ exact add_msg_other | exact sub_msg_other
                                   | exact length_error_other ]
        | apply quiet_bind; [|intro]
        | apply quiet_if
        | apply quiet_for_fold; intros ? ?
        | apply quiet_while; intro
        | match goal with
          | |- quiet (match ?o with Some _ => _ | None => _ end) => destruct o
          end
        | assumption ].

Lemma quiet_int_op {S} x : quiet (@int_op S x).
Proof. unfold int_op. repeat quiet_step. Qed.

Lemma quiet_vec_new {S A} n (a : A) : quiet (@vec_new S A n a).
Proof. unfold vec_new. repeat quiet_step. Qed.

Lemma quiet_vec_at {S A} (v : list A) i : quiet (@vec_at S A v i).
Proof. unfold vec_at. repeat quiet_step. Qed.

Lemma quiet_vec_set {S A} (v : list A) i a : quiet (@vec_set S A v i a).
Proof. unfold vec_set. repeat quiet_step. Qed.

Section Quiet.
Context {T : Type} {N : Numeric T}.

Lemma quiet_Matrix_new {S} rows cols : quiet (@Matrix_new T N S rows cols).
Proof.
  unfold Matrix_new.
  repeat first [apply quiet_int_op | apply quiet_vec_new | quiet_step].
Qed.

Lemma quiet_Matrix_index {S} (M : Matrix T) r c : quiet (@Matrix_index T S M r c).
Proof. unfold Matrix_index. repeat first [apply quiet_int_op | quiet_step]. Qed.

Lemma quiet_Matrix_at {S} (M : Matrix T) r c : quiet (@Matrix_at T S M r c).
Proof.
  unfold Matrix_at.
  repeat first [apply quiet_Matrix_index | apply quiet_vec_at | quiet_step].
Qed.

Lemma quiet_Matrix_set {S} (M : Matrix T) r c v : quiet (@Matrix_set T S M r c v).
Proof.
  unfold Matrix_set.
  repeat first [apply quiet_Matrix_index | apply quiet_vec_set | quiet_step].
Qed.

Ltac quiet_calls :=
  repeat first [ apply quiet_int_op | apply quiet_Matrix_new
               | apply quiet_Matrix_at | apply quiet_Matrix_set | quiet_step ].

Lemma quiet_Matrix_add {S} (A B : Matrix T) : quiet (@Matrix_add T N S A B).
Proof. unfold Matrix_add. quiet_calls. Qed.

Lemma quiet_Matrix_sub {S} (A B : Matrix T) : quiet (@Matrix_sub T N S A B).
Proof. unfold Matrix_sub. quiet_calls. Qed.

Lemma quiet_getSubMatrix {S} (A : Matrix T) a b size :
  quiet (@getSubMatrix T N S A a b size).
Proof. unfold getSubMatrix. quiet_calls. Qed.

Lemma quiet_setSubMatrix {S} (A : Matrix T) a b (B : Matrix T) :
  quiet (@setSubMatrix T S A a b B).
Proof. unfold setSubMatrix. quiet_calls. Qed.

Lemma quiet_matrixPadding {S} (A : Matrix T) newSize :
  quiet (@matrixPadding T N S A newSize).
Proof. unfold matrixPadding. quiet_calls. Qed.

Lemma quiet_matrixUnpadding {S} (A : Matrix T) rows cols :
  quiet (@matrixUnpadding T N S A rows cols).
Proof. unfold matrixUnpadding. quiet_calls. Qed.

Lemma quiet_matrixMultiply {S} (A B : Matrix T) :
  quiet (@matrixMultiply T N S A B).
Proof. unfold matrixMultiply. quiet_calls. Qed.

Lemma quiet_nextPowerOfTwo {S} fuel n : quiet (@nextPowerOfTwo S fuel n).
Proof. unfold nextPowerOfTwo. repeat quiet_step. Qed.

Lemma quiet_strassenMultiply {S} fuel :
  forall A B : Matrix T, quiet (@strassenMultiply T N S fuel A B).
Proof.
  induction fuel as [|fuel IH]; intros A B; cbn [strassenMultiply].
  - apply quiet_diverge.
  - cbn zeta.
    repeat first [ apply IH | apply quiet_matrixMultiply
                 | apply quiet_getSubMatrix | apply quiet_setSubMatrix
                 | apply quiet_Matrix_add | apply quiet_Matrix_sub
                 | apply quiet_Matrix_new | quiet_step ].
Qed.

Lemma quiet_recursive_product {S} fuel (A B : Matrix T) :
  quiet (@recursive_product T N S fuel A B).
Proof.
  unfold recursive_product. cbn zeta.
  repeat first [ apply quiet_nextPowerOfTwo | apply quiet_matrixPadding
               | apply quiet_strassenMultiply | apply quiet_matrixUnpadding
               | quiet_step ].
Qed.

End Quiet.

(** C6: [operator*] throws the incompatible-dimensions error exactly when the
    column count of the left operand differs from the row count of the right
    operand; on operands with [A.cols = B.rows] it never throws it. *)
Theorem Matrix_mul_incompatible {T} {N : Numeric T} (fuel : nat) (A B : Matrix T) :
  run (Matrix_mul fuel A B) = Throw (invalid_argument mul_msg) tt <->
  m_cols A <> m_rows B.
Proof.
  unfold run, Matrix_mul. destruct (Z.eqb_spec (m_cols A) (m_rows B)) as [Heq|Hne];
    cbn [negb].
  - split; [|contradiction]. intros H. exfalso.
    assert (Hq : quiet (S := unit)
              (a <- int_op (m_cols A * m_rows A) ;;
               if a <? 64 then matrixMultiply A B
               else b <- int_op (m_cols B * m_rows B) ;;
                    if b <? 64 then matrixMultiply A B
                    else recursive_product fuel A B)).
    { repeat first [ apply quiet_int_op | apply quiet_matrixMultiply
                   | apply quiet_recursive_product | quiet_step ]. }
    specialize (Hq tt). unfold wp in Hq. cbn zeta in H. rewrite H in Hq.
    apply Hq. reflexivity.
  - split; [intros _; exact Hne|]. intros _. reflexivity.
Qed.

(** ** The LU decomposition *)

Section LUFacts.
Context {T : Type} {N : Numeric T} {F : Floating T}.

Lemma lu_state_fun (A : Matrix T) n f g p t s :
  lu_state A n f p t s ->
  (forall r c, 0 <= r < n -> 0 <= c < n -> f r c = g r c) ->
  lu_state A n g p t s.
Proof.
  intros (HA & HM & HP & Ht) Hfg.
  split; [exact HA|]. split; [|auto].
  eapply is_matrix_fun; [exact HM|exact Hfg].
Qed.

Lemma wp_gets {S A} U (f : S -> A) s (Q : A -> S -> Prop) E :
  Q (f s) s -> wp U (gets f) s Q E.
Proof. intros H; exact H. Qed.

Lemma wp_modify {S} U (f : S -> S) s (Q : unit -> S -> Prop) E :
  Q tt (f s) -> wp U (modify f) s Q E.
Proof. intros H; exact H. Qed.

Lemma wp_LU_at U (A : Matrix T) n f p t s i j (Q : T -> lu_mem T -> Prop) E :
  lu_state A n f p t s -> 0 <= i < n -> 0 <= j < n ->
  Q (f i j) s -> wp U (LU_at i j) s Q E.
Proof.
  intros (HA & HM & HP & Ht) Hi Hj HQ. unfold wp, LU_at, bind, gets.
  rewrite (Matrix_at_is s _ n n f) by assumption. exact HQ.
Qed.

Lemma wp_LU_set U (A : Matrix T) n f p t s i j v
  (Q : unit -> lu_mem T -> Prop) E :
  lu_state A n f p t s -> 0 <= i < n -> 0 <= j < n ->
  (forall s', lu_state A n
                (fun r c => if (r =? i) && (c =? j) then v else f r c) p t s' ->
              Q tt s') ->
  wp U (LU_set i j v) s Q E.
Proof.
  intros (HA & HM & HP & Ht) Hi Hj HQ.
  destruct (Matrix_set_returns s (LU (result s)) n n f i j v HM Hi Hj)
    as (M' & HS & HM').
  unfold wp, LU_set, bind, gets, modify. rewrite HS.
  apply HQ. repeat split; cbn; auto; apply HM'.
Qed.

Lemma wp_P_at U (A : Matrix T) n f p t s i (Q : Z -> lu_mem T -> Prop) E :
  lu_state A n f p t s -> 0 <= i < Z.of_nat (List.length p) ->
  Q (nth (Z.to_nat i) p 0) s -> wp U (P_at i) s Q E.
Proof.
  intros (HA & HM & HP & Ht) Hi HQ. unfold wp, P_at, bind, gets.
  rewrite HP. rewrite (vec_at_ok s p i 0) by assumption. exact HQ.
Qed.

Lemma wp_P_set U (A : Matrix T) n f p t s i x
  (Q : unit -> lu_mem T -> Prop) E :
  lu_state A n f p t s -> 0 <= i < Z.of_nat (List.length p) ->
  (forall s', lu_state A n f (list_upd p (Z.to_nat i) x) t s' -> Q tt s') ->
  wp U (P_set i x) s Q E.
Proof.
  intros (HA & HM & HP & Ht) Hi HQ. unfold wp, P_set, bind, gets, modify.
  rewrite HP. rewrite vec_set_ok by assumption.
  apply HQ. repeat split; cbn; auto; apply HM.
Qed.

Lemma wp_for_ {S} U lo hi (body : Z -> prog S unit)
  (I : Z -> S -> Prop) (E : exn -> S -> Prop) s :
  lo <= hi ->
  I lo s ->
  (forall i s, lo <= i < hi -> I i s ->
     wp U (body i) s (fun _ s' => I (i + 1) s') E) ->
  wp U (for_ lo hi body) s (fun _ s' => I hi s') E.
Proof.
  intros Hle H0 Hb. unfold for_.
  apply (wp_for_fold U lo hi _ (fun i _ s' => I i s')); auto.
Qed.

(** *** The pivot search *)

Lemma pivot_search_spec (A : Matrix T) n f p t s i :
  lu_state A n f p t s -> 0 <= i < n ->
  exists m, i <= m < n /\ pivot_search n i s = Ok m s.
Proof.
  intros Hs Hi.
  assert (H : wp False (pivot_search n i) s
                (fun m s' => s' = s /\ i <= m < n) (fun _ _ => False)).
  { unfold pivot_search. apply wp_bind.
    eapply wp_LU_at; [exact Hs|lia|lia|].
    apply wp_bind.
    eapply wp_mono.
    - apply (wp_for_fold False (i + 1) n _
               (fun j (x : T * Z) s' => s' = s /\ i <= snd x < n)
               (fun _ _ => False)); [lia| |].
      + cbn. split; [reflexivity|lia].
      + intros j [maxVal maxIndex] s1 Hj [-> Hm]. cbn [snd] in Hm.
        apply wp_bind. eapply wp_LU_at; [exact Hs|lia|lia|].
        destruct (Tgt (Tabs (f j i)) maxVal).
        * apply wp_bind. eapply wp_LU_at; [exact Hs|lia|lia|].
          apply wp_ret. cbn. split; [reflexivity|lia].
        * apply wp_ret. cbn. split; [reflexivity|lia].
    - cbn beta. intros [maxVal maxIndex] s1 [-> Hm]. apply wp_ret.
      cbn in *. split; [reflexivity|lia].
    - auto. }
  unfold wp in H. destruct (pivot_search n i s) as [m s'| | |]; try contradiction.
  destruct H as [-> Hm]. exists m. auto.
Qed.

(** *** The exchange of rows *)

Lemma length_swap_list (p : list Z) i m :
  List.length (swap_list p i m) = List.length p.
Proof. unfold swap_list. rewrite !length_list_upd. reflexivity. Qed.

Lemma pivot_swap_spec (A : Matrix T) n f p t s i m :
  lu_state A n f p t s -> 0 <= i < n -> i < m < n ->
  Z.of_nat (List.length p) = n -> t = 1 \/ t = -1 ->
  exists s', pivot_swap n i m s = Ok tt s' /\
             lu_state A n (swap_rows f i m) (swap_list p i m) (t * -1) s'.
Proof.
  intros Hs Hi Hm Hp Ht.
  assert (H : wp False (pivot_swap n i m) s
                (fun _ s' => lu_state A n (swap_rows f i m) (swap_list p i m)
                               (t * -1) s') (fun _ _ => False)).
  { unfold pivot_swap. apply wp_bind.
    eapply wp_mono.
    - apply (wp_for_ False i n _
        (fun j s' => lu_state A n
           (fun r c => if (i <=? c) && (c <? j)
                       then if r =? i then f m c
                            else if r =? m then f i c else f r c
                       else f r c) p t s') (fun _ _ => False)); [lia| |].
      + eapply lu_state_fun; [exact Hs|]. intros r c Hr Hc. cbn beta. zbool.
      + intros j s1 Hj H1.
        apply wp_bind. eapply wp_LU_at; [exact H1|lia|lia|]. cbn beta.
        apply wp_bind. eapply wp_LU_at; [exact H1|lia|lia|]. cbn beta.
        apply wp_bind. eapply wp_LU_set; [exact H1|lia|lia|].
        intros s2 H2.
        eapply wp_LU_set; [exact H2|lia|lia|].
        intros s3 H3.
        eapply lu_state_fun; [exact H3|]. intros r c Hr Hc. cbn beta.
        zbool.
    - cbn beta. intros _ s1 H1.
      assert (H1' : lu_state A n (swap_rows f i m) p t s1).
      { eapply lu_state_fun; [exact H1|]. intros r c Hr Hc.
        unfold swap_rows. zbool. }
      apply wp_bind. eapply wp_P_at; [exact H1'|lia|]. cbn beta.
      apply wp_bind. eapply wp_P_at; [exact H1'|lia|]. cbn beta.
      apply wp_bind. eapply wp_P_set; [exact H1'|lia|]. intros s2 H2.
      apply wp_bind. eapply wp_P_set; [exact H2|rewrite length_list_upd; lia|].
      intros s3 H3.
      apply wp_bind. apply wp_gets.
      destruct H3 as (HA3 & HM3 & HP3 & Ht3). rewrite Ht3.
      apply wp_bind. unfold wp at 1.
      rewrite int_op_ok by (unfold INT_MIN, INT_MAX; lia).
      apply wp_modify. repeat split; cbn; auto; apply HM3.
    - auto. }
  unfold wp in H. destruct (pivot_swap n i m s) as [[] s'| | |]; try contradiction.
  exists s'. auto.
Qed.

(** *** The test of the pivot *)

Lemma singular_check_spec (A : Matrix T) n f p t s i :
  lu_state A n f p t s -> 0 <= i < n ->
  singular_check i s =
  if Tlt_tol (Tabs (f i i)) then Throw (runtime_error (singular_msg i)) s
  else Ok tt s.
Proof.
  intros (HA & HM & HP & Ht) Hi. unfold singular_check, LU_at, bind, gets.
  rewrite (Matrix_at_is s _ n n f) by assumption.
  destruct (Tlt_tol (Tabs (f i i))); reflexivity.
Qed.

(** *** The elimination *)

Lemma eliminate_spec (A : Matrix T) n f p t s i :
  lu_state A n f p t s -> 0 <= i < n ->
  exists s', eliminate n i s = Ok tt s' /\ lu_state A n (elim_fun f i) p t s'.
Proof.
  intros Hs Hi.
  set (Ef := fun r c => if c <? i then f r c
                        else if c =? i then Tdiv (f r i) (f i i)
                        else Tsub (f r c) (Tmul (Tdiv (f r i) (f i i)) (f i c))).
  assert (H : wp False (eliminate n i) s
                (fun _ s' => lu_state A n (elim_fun f i) p t s') (fun _ _ => False)).
  { unfold eliminate. eapply wp_mono.
    - apply (wp_for_ False (i + 1) n _
        (fun j s' => lu_state A n
           (fun r c => if (i <? r) && (r <? j) then Ef r c else f r c) p t s')
        (fun _ _ => False)); [lia| |].
      + eapply lu_state_fun; [exact Hs|]. intros r c Hr Hc. cbn beta. zbool.
      + intros j s1 Hj H1.
        apply wp_bind. eapply wp_LU_at; [exact H1|lia|lia|]. cbn beta.
        apply wp_bind. eapply wp_LU_at; [exact H1|lia|lia|]. cbn beta.
        cbn zeta.
        apply wp_bind. eapply wp_LU_set; [exact H1|lia|lia|].
        intros s2 H2.
        eapply wp_mono.
        * apply (wp_for_ False (i + 1) n _
            (fun k s' => lu_state A n
               (fun r c => if (r =? j) && (i <=? c) && (c <? k) then Ef r c
                           else if (i <? r) && (r <? j) then Ef r c
                           else f r c) p t s') (fun _ _ => False)); [lia| |].
          -- eapply lu_state_fun; [exact H2|]. intros r c Hr Hc. cbn beta.
             unfold Ef. zbool.
          -- intros k s3 Hk H3.
             apply wp_bind. eapply wp_LU_at; [exact H3|lia|lia|]. cbn beta.
             apply wp_bind. eapply wp_LU_at; [exact H3|lia|lia|]. cbn beta.
             eapply wp_LU_set; [exact H3|lia|lia|].
             intros s4 H4.
             eapply lu_state_fun; [exact H4|]. intros r c Hr Hc. cbn beta.
             unfold Ef. zbool.
        * cbn beta. intros _ s3 H3.
          eapply lu_state_fun; [exact H3|]. intros r c Hr Hc. cbn beta.
          unfold Ef. zbool.
        * auto.
    - cbn beta. intros _ s1 H1.
      eapply lu_state_fun; [exact H1|]. intros r c Hr Hc. cbn beta.
      unfold elim_fun, Ef. zbool.
    - auto. }
  unfold wp in H. destruct (eliminate n i s) as [[] s'| | |]; try contradiction.
  exists s'. auto.
Qed.

(** *** The initialisation *)

Lemma nth_steps (n k : Z) : 0 <= k < n -> nth (Z.to_nat k) (steps n) 0 = k.
Proof.
  intros Hk. unfold steps.
  change 0 with (Z.of_nat 0%nat). rewrite map_nth.
  rewrite seq_nth by lia. lia.
Qed.

Lemma length_steps (n : Z) : 0 <= n -> Z.of_nat (List.length (steps n)) = n.
Proof. intros Hn. unfold steps. rewrite length_map, length_seq. lia. Qed.

Lemma steps_succ (i : Z) : 0 <= i -> steps (i + 1) = steps i ++ [i].
Proof.
  intros Hi. unfold steps.
  replace (Z.to_nat (i + 1)) with (Z.to_nat i + 1)%nat by lia.
  rewrite seq_app, map_app. cbn. rewrite Z2Nat.id by lia. reflexivity.
Qed.

Lemma In_steps (n k : Z) : In k (steps n) <-> 0 <= k < n.
Proof.
  unfold steps. rewrite in_map_iff. split.
  - intros (x & <- & Hx). apply in_seq in Hx. lia.
  - intros Hk. exists (Z.to_nat k). split; [lia|]. apply in_seq. lia.
Qed.

Lemma lu_init_spec (A : Matrix T) n :
  wf A -> m_rows A = n -> m_cols A = n ->
  exists s, lu_init n (lu_entry A) = Ok tt s /\
            lu_state A n (entry A) (steps n) 1 s.
Proof.
  intros Hwf Hr Hc.
  assert (Hn : 0 <= n) by (destruct Hwf as (H & _); lia).
  assert (H : wp False (lu_init n) (lu_entry A)
                (fun _ s => lu_state A n (entry A) (steps n) 1 s)
                (fun _ _ => False)).
  { unfold lu_init. apply wp_bind, wp_gets. apply wp_bind, wp_modify.
    apply wp_bind, wp_gets. apply wp_bind.
    unfold wp at 1, vec_resize.
    replace (n <? 0) with false by (symmetry; apply Z.ltb_ge; lia).
    unfold ret. apply wp_bind, wp_modify. apply wp_bind, wp_modify.
    cbn [lu_entry set_LU set_P set_toggleSign caller_A result LU P toggleSign
         firstn List.length app].
    rewrite firstn_nil, Nat.sub_0_r. cbn [app].
    eapply wp_mono.
    - apply (wp_for_ False 0 n _
        (fun i s => exists p, lu_state A n (entry A) p 1 s /\
                    Z.of_nat (List.length p) = n /\
                    forall k, 0 <= k < i -> nth (Z.to_nat k) p 0 = k)
        (fun _ _ => False)); [lia| |].
      + exists (repeat 0 (Z.to_nat n)). split; [|split].
        * pose proof (is_matrix_entry A Hwf) as HM. rewrite Hr, Hc in HM.
          split; [reflexivity|]. split; [exact HM|]. split; reflexivity.
        * rewrite repeat_length. lia.
        * intros k Hk. lia.
      + intros i s1 Hi (p & Hs1 & Hlen & Hnth).
        eapply wp_P_set; [exact Hs1|lia|]. intros s2 Hs2.
        exists (list_upd p (Z.to_nat i) i). split; [exact Hs2|].
        split; [rewrite length_list_upd; exact Hlen|].
        intros k Hk. destruct (Z.eq_dec k i) as [->|Hne].
        * apply nth_list_upd_eq. lia.
        * rewrite nth_list_upd_neq by lia. apply Hnth. lia.
    - cbn beta. intros _ s1 (p & Hs1 & Hlen & Hnth).
      replace (steps n) with p; [exact Hs1|].
      apply (nth_ext _ _ 0 0).
      + pose proof (length_steps n Hn). lia.
      + intros k Hk.
        rewrite <- (Nat2Z.id k). rewrite Hnth by lia.
        rewrite nth_steps by lia. reflexivity.
    - auto. }
  unfold wp in H. destruct (lu_init n (lu_entry A)) as [[] s| | |];
    try contradiction.
  exists s. auto.
Qed.

(** *** One step *)

Lemma lu_pivot_spec (A : Matrix T) n f p t s i :
  lu_state A n f p t s -> 0 <= i < n ->
  Z.of_nat (List.length p) = n -> t = 1 \/ t = -1 ->
  exists m s1,
    i <= m < n /\ pivot_search n i s = Ok m s /\
    lu_pivot n i s = Ok tt s1 /\
    lu_state A n (pivoted_fun f i m) (pivoted_list p i m) (pivoted_sign t i m) s1.
Proof.
  intros Hs Hi Hp Ht.
  destruct (pivot_search_spec A n f p t s i Hs Hi) as (m & Hm & Hps).
  unfold lu_pivot, bind. rewrite Hps.
  unfold pivoted_fun, pivoted_list, pivoted_sign.
  destruct (Z.eq_dec m i) as [->|Hne].
  - exists i, s. rewrite Z.eqb_refl. cbn [negb]. auto.
  - destruct (pivot_swap_spec A n f p t s i m Hs Hi ltac:(lia) Hp Ht)
      as (s1 & Hsw & Hs1).
    exists m, s1.
    replace (m =? i) with false by (symmetry; apply Z.eqb_neq; exact Hne).
    cbn [negb]. auto.
Qed.

Lemma lu_step_spec (A : Matrix T) n f p t s i :
  lu_state A n f p t s -> 0 <= i < n ->
  Z.of_nat (List.length p) = n -> t = 1 \/ t = -1 ->
  exists m s1,
    i <= m < n /\ pivot_search n i s = Ok m s /\
    lu_pivot n i s = Ok tt s1 /\
    lu_state A n (pivoted_fun f i m) (pivoted_list p i m) (pivoted_sign t i m) s1 /\
    if Tlt_tol (Tabs (pivoted_fun f i m i i))
    then lu_step n i s = Throw (runtime_error (singular_msg i)) s1
    else exists s2,
           lu_step n i s = Ok tt s2 /\
           lu_state A n (elim_fun (pivoted_fun f i m) i) (pivoted_list p i m)
             (pivoted_sign t i m) s2.
Proof.
  intros Hs Hi Hp Ht.
  destruct (lu_pivot_spec A n f p t s i Hs Hi Hp Ht)
    as (m & s1 & Hm & Hps & Hpv & Hs1).
  exists m, s1. repeat (split; [assumption|]).
  unfold lu_step, bind. rewrite Hpv.
  rewrite (singular_check_spec A n _ _ _ s1 i Hs1 Hi).
  destruct (Tlt_tol (Tabs (pivoted_fun f i m i i))); [reflexivity|].
  destruct (eliminate_spec A n _ _ _ s1 i Hs1 Hi) as (s2 & He & Hs2).
  exists s2. auto.
Qed.

(** *** Exchanges and permutations *)

Lemma nth_error_list_upd_eq {A} (l : list A) n a :
  (n < List.length l)%nat -> nth_error (list_upd l n a) n = Some a.
Proof.
  revert n. induction l as [|h t IH]; intros [|n] H; cbn in *; try lia; auto.
  apply IH. lia.
Qed.

Lemma nth_error_list_upd_neq {A} (l : list A) n m a :
  n <> m -> nth_error (list_upd l n a) m = nth_error l m.
Proof.
  revert n m.
  induction l as [|h t IH]; intros [|n] [|m] H; cbn; try contradiction; auto.
Qed.

Lemma nth_error_swap_list (p : list Z) i m k :
  (i < List.length p)%nat -> (m < List.length p)%nat ->
  nth_error (swap_list p (Z.of_nat i) (Z.of_nat m)) k =
  nth_error p (if Nat.eqb k i then m else if Nat.eqb k m then i else k).
Proof.
  intros Hi Hm. unfold swap_list. rewrite !Nat2Z.id.
  destruct (Nat.eqb_spec k m) as [->|Hkm].
  - rewrite nth_error_list_upd_eq by (rewrite length_list_upd; exact Hm).
    destruct (Nat.eqb_spec m i) as [->|];
      symmetry; apply nth_error_nth'; assumption.
  - rewrite nth_error_list_upd_neq by congruence.
    destruct (Nat.eqb_spec k i) as [->|Hki].
    + rewrite nth_error_list_upd_eq by exact Hi.
      symmetry. apply nth_error_nth'. exact Hm.
    + apply nth_error_list_upd_neq. congruence.
Qed.

Lemma Permutation_swap_list (p : list Z) i m :
  0 <= i < Z.of_nat (List.length p) -> 0 <= m < Z.of_nat (List.length p) ->
  Permutation (swap_list p i m) p.
Proof.
  intros Hi Hm. apply Permutation_sym.
  apply Permutation_nth_error.
  split; [symmetry; apply length_swap_list|].
  set (i' := Z.to_nat i). set (m' := Z.to_nat m).
  exists (fun k => if Nat.eqb k i' then m' else if Nat.eqb k m' then i' else k).
  assert (Hi' : (i' < List.length p)%nat) by (unfold i'; lia).
  assert (Hm' : (m' < List.length p)%nat) by (unfold m'; lia).
  split.
  - intros x y.
    destruct (Nat.eqb_spec x i'), (Nat.eqb_spec x m'),
      (Nat.eqb_spec y i'), (Nat.eqb_spec y m'); intros; subst; congruence.
  - intros k.
    replace i with (Z.of_nat i') by (unfold i'; lia).
    replace m with (Z.of_nat m') by (unfold m'; lia).
    apply nth_error_swap_list; assumption.
Qed.

Lemma Permutation_pivoted_list (p : list Z) n i m :
  Z.of_nat (List.length p) = n -> 0 <= i < n -> 0 <= m < n ->
  Permutation (pivoted_list p i m) p.
Proof.
  intros Hp Hi Hm. unfold pivoted_list.
  destruct (m =? i); [reflexivity|]. apply Permutation_swap_list; lia.
Qed.

(** *** The main loop *)

Lemma for_snoc {S} lo hi (body : Z -> prog S unit) s :
  lo <= hi -> for_ lo (hi + 1) body s = (for_ lo hi body ;; body hi) s.
Proof.
  intros H. unfold for_. rewrite for_fold_snoc by exact H. reflexivity.
Qed.

Lemma lu_prefix_succ (A : Matrix T) i :
  0 <= i ->
  lu_prefix (i + 1) (lu_entry A) = (lu_prefix i ;; lu_step (m_rows A) i) (lu_entry A).
Proof.
  intros Hi. unfold lu_prefix, bind, get_dim, gets.
  cbn [lu_entry caller_A].
  destruct (lu_init (m_rows A) _) as [[] s| | |]; try reflexivity.
  rewrite for_snoc by exact Hi. unfold bind.
  destruct (for_ 0 i _ s) as [[] s'| | |]; reflexivity.
Qed.

Lemma decomposeLU_body_prefix (A : Matrix T) :
  decomposeLU_body (lu_entry A) = lu_prefix (m_rows A) (lu_entry A).
Proof. reflexivity. Qed.

Lemma pow_m1_cases (k : nat) :
  (-1) ^ Z.of_nat k = 1 \/ (-1) ^ Z.of_nat k = -1.
Proof.
  induction k as [|k IH]; [left; reflexivity|].
  rewrite Nat2Z.inj_succ, Z.pow_succ_r by lia. lia.
Qed.

Lemma pivot_row_reached (A : Matrix T) i s m :
  lu_prefix i (lu_entry A) = Ok tt s ->
  pivot_search (m_rows A) i s = Ok m s ->
  pivot_row A i = Some m.
Proof.
  intros Hp Hs. unfold pivot_row, bind. rewrite Hp, Hs. reflexivity.
Qed.

Lemma pivoted_diagonal_reached (A : Matrix T) i s s1 f p t :
  lu_prefix i (lu_entry A) = Ok tt s ->
  lu_pivot (m_rows A) i s = Ok tt s1 ->
  lu_state A (m_rows A) f p t s1 -> 0 <= i < m_rows A ->
  pivoted_diagonal A i = Some (f i i).
Proof.
  intros Hp Hs Hs1 Hi. unfold pivoted_diagonal, bind. rewrite Hp, Hs.
  pose proof (wp_LU_at False A _ f p t s1 i i (fun d _ => d = f i i)
                (fun _ _ => False) Hs1 Hi Hi eq_refl) as H.
  unfold wp in H. destruct (LU_at i i s1); try contradiction. congruence.
Qed.

Lemma pivoted_diagonal_not_reached (A : Matrix T) i e s :
  lu_prefix i (lu_entry A) = Throw e s -> pivoted_diagonal A i = None.
Proof.
  intros Hp. unfold pivoted_diagonal, bind. rewrite Hp. reflexivity.
Qed.

Lemma swap_count_succ (A : Matrix T) i m :
  0 <= i -> pivot_row A i = Some m ->
  (-1) ^ Z.of_nat (List.length (filter (swapped_at A) (steps (i + 1)))) =
  pivoted_sign
    ((-1) ^ Z.of_nat (List.length (filter (swapped_at A) (steps i)))) i m.
Proof.
  intros Hi Hm. rewrite steps_succ by exact Hi.
  rewrite filter_app, length_app. cbn [filter].
  unfold swapped_at at 2. rewrite Hm. unfold pivoted_sign.
  destruct (m =? i); cbn [negb List.length].
  - rewrite Nat.add_0_r. reflexivity.
  - rewrite Nat2Z.inj_add. rewrite Z.pow_add_r by lia. reflexivity.
Qed.

(** The outcome of the first [i] iterations: either all of them ran, or the
    first pivot below the tolerance stopped the run at its step. *)
Lemma lu_prefix_outcome (A : Matrix T) n :
  wf A -> m_rows A = n -> m_cols A = n ->
  forall i : nat, Z.of_nat i <= n ->
  (exists s, lu_prefix (Z.of_nat i) (lu_entry A) = Ok tt s /\
             lu_good A n (Z.of_nat i) s /\ diag_passed A (Z.of_nat i))
  \/
  (exists k s, 0 <= k < Z.of_nat i /\
     lu_prefix (Z.of_nat i) (lu_entry A)
       = Throw (runtime_error (singular_msg k)) s /\
     caller_A s = A /\
     (exists d, pivoted_diagonal A k = Some d /\ Tlt_tol (Tabs d) = true) /\
     diag_passed A k).
Proof.
  intros Hwf Hr Hc. subst n.
  assert (Hn : 0 <= m_rows A) by (destruct Hwf as (H & _); lia).
  induction i as [|i IH]; intros Hi.
  - left. destruct (lu_init_spec A _ Hwf eq_refl Hc) as (s & Hinit & Hs).
    exists s. split; [|split].
    + unfold lu_prefix, bind, get_dim, gets. cbn [lu_entry caller_A].
      rewrite Hinit. reflexivity.
    + exists (entry A), (steps (m_rows A)), 1. split; [exact Hs|].
      split; [reflexivity|]. split; [reflexivity|]. intros k Hk. cbn in Hk. lia.
    + intros k Hk. cbn in Hk. lia.
  - rewrite Nat2Z.inj_succ, <- Z.add_1_r in *.
    rewrite lu_prefix_succ by lia.
    destruct (IH ltac:(lia)) as [(s & Hp & Hgood & Hdiag)
                                | (k & s & Hk & Hp & HA & Hd & Hdiag)].
    + destruct Hgood as (f & p & t & Hs & Hperm & Ht & Hf).
      assert (Hlen : Z.of_nat (List.length p) = m_rows A).
      { rewrite (Permutation_length Hperm). apply length_steps. exact Hn. }
      assert (Ht1 : t = 1 \/ t = -1) by (rewrite Ht; apply pow_m1_cases).
      destruct (lu_step_spec A _ f p t s (Z.of_nat i) Hs ltac:(lia) Hlen Ht1)
        as (m & s1 & Hm & Hps & Hpv & Hs1 & Hstep).
      assert (Hpd : pivoted_diagonal A (Z.of_nat i)
                    = Some (pivoted_fun f (Z.of_nat i) m (Z.of_nat i) (Z.of_nat i))).
      { eapply pivoted_diagonal_reached;
          [exact Hp|exact Hpv|exact Hs1|lia]. }
      pose proof (pivot_row_reached A _ s m Hp Hps) as Hrow.
      assert (Hb : (lu_prefix (Z.of_nat i) ;; lu_step (m_rows A) (Z.of_nat i))
                     (lu_entry A) = lu_step (m_rows A) (Z.of_nat i) s)
        by (unfold bind; rewrite Hp; reflexivity).
      rewrite Hb.
      destruct (Tlt_tol (Tabs (pivoted_fun f (Z.of_nat i) m (Z.of_nat i) (Z.of_nat i))))
        eqn:Etol.
      * right. exists (Z.of_nat i), s1. split; [lia|]. split; [exact Hstep|].
        split; [apply Hs1|]. split; [eauto|exact Hdiag].
      * left. destruct Hstep as (s2 & Hstep & Hs2). exists s2.
        split; [exact Hstep|]. split.
        -- eexists _, _, _. split; [exact Hs2|]. split; [|split].
           ++ etransitivity; [|exact Hperm].
              apply (Permutation_pivoted_list p (m_rows A)); lia.
           ++ rewrite (swap_count_succ A (Z.of_nat i) m ltac:(lia) Hrow). rewrite <- Ht.
              reflexivity.
           ++ intros k Hk. unfold elim_fun.
              replace (Z.of_nat i <? k) with false by (symmetry; apply Z.ltb_ge; lia).
              destruct (Z.eq_dec k (Z.of_nat i)) as [->|Hne]; [exact Etol|].
              unfold pivoted_fun, swap_rows.
              destruct (m =? Z.of_nat i); [apply Hf; lia|].
              replace (k <? Z.of_nat i) with true by (symmetry; apply Z.ltb_lt; lia).
              apply Hf. lia.
        -- intros k Hk. destruct (Z.eq_dec k (Z.of_nat i)) as [->|Hne].
           ++ eauto.
           ++ apply Hdiag. lia.
    + right. exists k, s. split; [lia|]. unfold bind. rewrite Hp. auto.
Qed.

Lemma to_string_inj (i k : Z) : to_string i = to_string k -> i = k.
Proof.
  unfold to_string. intros H.
  apply (f_equal NilEmpty.int_of_string) in H.
  rewrite !NilEmpty.isi in H. injection H as H.
  apply DecimalZ.to_int_inj. exact H.
Qed.

Lemma singular_msg_inj (i k : Z) : singular_msg i = singular_msg k -> i = k.
Proof.
  unfold singular_msg. intros H. cbn [append] in H.
  injection H as H. apply to_string_inj. exact H.
Qed.

(** The outcome of the whole body. *)
Lemma decomposeLU_body_outcome (A : Matrix T) :
  wf A -> m_rows A = m_cols A ->
  (exists s, decomposeLU_body (lu_entry A) = Ok tt s /\
             lu_good A (m_rows A) (m_rows A) s /\ diag_passed A (m_rows A))
  \/
  (exists k s, 0 <= k < m_rows A /\
     decomposeLU_body (lu_entry A) = Throw (runtime_error (singular_msg k)) s /\
     caller_A s = A /\
     (exists d, pivoted_diagonal A k = Some d /\ Tlt_tol (Tabs d) = true) /\
     diag_passed A k).
Proof.
  intros Hwf Hsq. rewrite decomposeLU_body_prefix.
  assert (Hn : 0 <= m_rows A) by (destruct Hwf as (H & _); lia).
  pose proof (lu_prefix_outcome A (m_rows A) Hwf eq_refl (eq_sym Hsq)
                (Z.to_nat (m_rows A)) ltac:(lia)) as H.
  rewrite Z2Nat.id in H by exact Hn. exact H.
Qed.

Lemma decomposeLU_returns (A : Matrix T) (r : LUResult T) :
  wf A -> m_rows A = m_cols A ->
  run (decomposeLU A) = Ok r tt ->
  exists s, decomposeLU_body (lu_entry A) = Ok tt s /\ result s = r /\
            lu_good A (m_rows A) (m_rows A) s.
Proof.
  intros Hwf Hsq Hrun. unfold run, decomposeLU in Hrun.
  destruct (decomposeLU_body_outcome A Hwf Hsq)
    as [(s & Hb & Hgood & _) | (k & s & _ & Hb & _)];
    rewrite Hb in Hrun; [|discriminate].
  exists s. split; [exact Hb|]. split; [congruence|exact Hgood].
Qed.

Lemma singular_iff (A : Matrix T) (i : Z) :
  wf A -> m_rows A = m_cols A ->
  (run (decomposeLU A) = Throw (runtime_error (singular_msg i)) tt <->
   0 <= i < m_rows A /\
   exists d, pivoted_diagonal A i = Some d /\ Tlt_tol (Tabs d) = true).
Proof.
  intros Hwf Hsq.
  assert (Hn : 0 <= m_rows A) by (destruct Hwf as (H & _); lia).
  unfold run, decomposeLU.
  destruct (decomposeLU_body_outcome A Hwf Hsq)
    as [(s & Hb & Hgood & Hdiag) | (k & s & Hk & Hb & HA & Hd & Hdiag)];
    rewrite Hb; split.
  - discriminate.
  - intros (Hi & d & Hpd & Hbelow).
    destruct (Hdiag i Hi) as (d' & Hpd' & Hpass). congruence.
  - intros H. assert (Hmsg : singular_msg k = singular_msg i) by congruence.
    apply singular_msg_inj in Hmsg. subst k. auto.
  - intros (Hi & d & Hpd & Hbelow).
    destruct (Z.lt_trichotomy k i) as [Hlt|[->|Hgt]]; [exfalso|reflexivity|exfalso].
    + pose proof (lu_prefix_outcome A (m_rows A) Hwf eq_refl (eq_sym Hsq)
                    (Z.to_nat i) ltac:(lia)) as H.
      rewrite Z2Nat.id in H by lia.
      destruct H as [(s' & _ & _ & Hdiag') | (k' & s' & _ & Hp' & _)].
      * destruct (Hdiag' k ltac:(lia)) as (d' & Hpd' & Hpass).
        destruct Hd as (d'' & Hpd'' & Hbelow''). congruence.
      * rewrite (pivoted_diagonal_not_reached A i _ _ Hp') in Hpd. discriminate.
    + destruct (Hdiag i ltac:(lia)) as (d' & Hpd' & Hpass). congruence.
Qed.

End LUFacts.

(** C3: on a square matrix, [decomposeLU] throws the singular-matrix error
    that carries the pivot index [i] exactly when the execution reaches step
    [i] and, after the row pivoting of that step, the magnitude of the
    diagonal entry [(i, i)] is below [1e-15]; a throw is an outcome without
    result.  Decomposing [[1,2],[0,0]] throws with pivot index 1. *)
Theorem decomposeLU_singular :
  (forall (T : Type) (N : Numeric T) (F : Floating T) (A : Matrix T) (i : Z),
     wf A -> m_rows A = m_cols A ->
     (run (decomposeLU A) = Throw (runtime_error (singular_msg i)) tt <->
      0 <= i < m_rows A /\
      exists d, pivoted_diagonal A i = Some d /\ Tlt_tol (Tabs d) = true)) /\
  run (decomposeLU singular_2x2) = Throw (runtime_error (singular_msg 1)) tt.
Proof.
  split.
  - intros T N F A i. apply singular_iff.
  - vm_compute. reflexivity.
Qed.

Lemma decomposeLU_singular_witness :
  run (decomposeLU singular_2x2) = Throw (runtime_error (singular_msg 1)) tt.
Proof.
  apply (proj1 decomposeLU_singular float _ _ singular_2x2 1).
  - unfold wf, INT_MAX. cbn. lia.
  - reflexivity.
  - split; [cbn; lia|]. exists 0%float. split; vm_compute; reflexivity.
Defined.

(** C7: the permutation vector returned by a successful [decomposeLU] on a
    square matrix is a permutation of [0 .. dimension - 1]. *)
Theorem decomposeLU_permutation {T} {N : Numeric T} {F : Floating T}
  (A : Matrix T) (r : LUResult T) :
  wf A -> m_rows A = m_cols A ->
  run (decomposeLU A) = Ok r tt ->
  Permutation (P r) (steps (m_rows A)).
Proof.
  intros Hwf Hsq Hrun.
  destruct (decomposeLU_returns A r Hwf Hsq Hrun) as (s & _ & <- & Hgood).
  destruct Hgood as (f & p & t & (_ & _ & HP & _) & Hperm & _).
  rewrite HP. exact Hperm.
Qed.

Lemma decomposeLU_permutation_witness : Permutation [1; 0] (steps 2).
Proof.
  apply (decomposeLU_permutation exchange_2x2
           (mkLUResult (mkMatrix 2 2 [1; 0; 0; 1]%float) [1; 0] (-1))).
  - unfold wf, INT_MAX. cbn. lia.
  - reflexivity.
  - vm_compute. reflexivity.
Defined.

(** C8: [decomposeLU(A)] on a square matrix does not change [A]: whether the
    body ends normally or with the singular-matrix error, the matrix of the
    caller is [A] in the memory it ends in. *)
Theorem decomposeLU_frame {T} {N : Numeric T} {F : Floating T} (A : Matrix T) :
  wf A -> m_rows A = m_cols A ->
  match decomposeLU_body (lu_entry A) with
  | Ok _ s => caller_A s = A
  | Throw e s => caller_A s = A /\ exists i, e = runtime_error (singular_msg i)
  | Undefined => False
  | Diverge => False
  end.
Proof.
  intros Hwf Hsq.
  destruct (decomposeLU_body_outcome A Hwf Hsq)
    as [(s & Hb & Hgood & _) | (k & s & _ & Hb & HA & _)]; rewrite Hb.
  - destruct Hgood as (f & p & t & (HA & _) & _). exact HA.
  - split; [exact HA|]. exists k. reflexivity.
Qed.

Lemma decomposeLU_frame_witness :
  match decomposeLU_body (lu_entry singular_2x2) with
  | Ok _ s => caller_A s = singular_2x2
  | Throw e s => caller_A s = singular_2x2 /\
                 exists i, e = runtime_error (singular_msg i)
  | Undefined => False
  | Diverge => False
  end.
Proof.
  apply (decomposeLU_frame singular_2x2).
  - unfold wf, INT_MAX. cbn. lia.
  - reflexivity.
Defined.

(** C9: the sign returned by a successful [decomposeLU] on a square matrix
    is [(-1)^s], [s] the number of steps at which the pivot row found was
    not the row of the step, the steps at which rows were exchanged. *)
Theorem decomposeLU_sign {T} {N : Numeric T} {F : Floating T}
  (A : Matrix T) (r : LUResult T) :
  wf A -> m_rows A = m_cols A ->
  run (decomposeLU A) = Ok r tt ->
  toggleSign r = (-1) ^ Z.of_nat (swaps_performed A).
Proof.
  intros Hwf Hsq Hrun.
  destruct (decomposeLU_returns A r Hwf Hsq Hrun) as (s & _ & <- & Hgood).
  destruct Hgood as (f & p & t & (_ & _ & _ & Ht) & _ & Hsign & _).
  rewrite Ht. exact Hsign.
Qed.

Lemma decomposeLU_sign_witness :
  -1 = (-1) ^ Z.of_nat (swaps_performed exchange_2x2).
Proof.
  apply (decomposeLU_sign exchange_2x2
           (mkLUResult (mkMatrix 2 2 [1; 0; 0; 1]%float) [1; 0] (-1))).
  - unfold wf, INT_MAX. cbn. lia.
  - reflexivity.
  - vm_compute. reflexivity.
Defined.

(** The exchange example performs one exchange. *)
Example exchange_2x2_swaps : swaps_performed exchange_2x2 = 1%nat.
Proof. vm_compute. reflexivity. Qed.

(** ** The solver *)

Lemma for_down_count_cong {S X} n (body body' : Z -> X -> prog S X)
  (I : Z -> X -> Prop) s :
  forall hi x,
  I hi x ->
  (forall i x, hi - Z.of_nat n < i <= hi -> I i x ->
     body i x s = body' i x s /\ returns (body i x) s (I (i - 1))) ->
  for_down_count n hi body x s = for_down_count n hi body' x s.
Proof.
  induction n as [|n IH]; intros hi x H0 Hb; [reflexivity|].
  cbn [for_down_count]. unfold bind.
  destruct (Hb hi x ltac:(lia) H0) as (Heq & x' & Hx' & HI).
  rewrite <- Heq, Hx'. apply IH; [exact HI|].
  intros i x1 Hi. apply Hb. lia.
Qed.

Lemma returns_vec_new {S A} (s : S) n (a : A) :
  0 <= n -> returns (vec_new n a) s (fun v => Z.of_nat (List.length v) = n).
Proof.
  intros Hn. exists (repeat a (Z.to_nat n)). split; [apply vec_new_ok; exact Hn|].
  rewrite repeat_length. lia.
Qed.

Lemma returns_vec_at {S A} (s : S) (v : list A) i d :
  0 <= i < Z.of_nat (List.length v) ->
  returns (vec_at v i) s (fun a => a = nth (Z.to_nat i) v d).
Proof.
  intros Hi. exists (nth (Z.to_nat i) v d). split; [|reflexivity].
  apply vec_at_ok. exact Hi.
Qed.

Lemma returns_vec_set {S A} (s : S) (v : list A) i a :
  0 <= i < Z.of_nat (List.length v) ->
  returns (vec_set v i a) s (fun v' => List.length v' = List.length v).
Proof.
  intros Hi. exists (list_upd v (Z.to_nat i) a). split.
  - apply vec_set_ok. exact Hi.
  - apply length_list_upd.
Qed.

Section SolveFacts.
Context {T : Type} {N : Numeric T} {F : Floating T}.
Variables (r : LUResult T) (n : Z) (f : Z -> Z -> T).
Hypothesis HLU : is_matrix (LU r) n n f.
Hypothesis HP : Permutation (P r) (steps n).

Lemma solve_dim : m_rows (LU r) = n /\ 0 <= n.
Proof.
  pose proof (is_matrix_bounds _ _ _ _ HLU) as (Hn & _).
  destruct HLU as (_ & Hr & _). split; [exact Hr|lia].
Qed.

Lemma P_entry_range (i : Z) :
  0 <= i < n -> 0 <= nth (Z.to_nat i) (P r) 0 < n.
Proof.
  intros Hi. destruct solve_dim as (_ & Hn).
  assert (Hlen : Z.of_nat (List.length (P r)) = n).
  { rewrite (Permutation_length HP). apply length_steps. exact Hn. }
  apply In_steps. apply (Permutation_in _ HP). apply nth_In. lia.
Qed.

Lemma permute_rhs_returns {S} (s : S) (b : list T) :
  Z.of_nat (List.length b) = n ->
  returns (permute_rhs r b) s (fun pb => Z.of_nat (List.length pb) = n).
Proof.
  intros Hb. destruct solve_dim as (Hr & Hn).
  assert (Hlen : Z.of_nat (List.length (P r)) = n).
  { rewrite (Permutation_length HP). apply length_steps. exact Hn. }
  unfold permute_rhs. cbn zeta. rewrite Hr.
  eapply returns_bind; [apply returns_vec_new; exact Hn|].
  cbn beta. intros pb0 Hpb0.
  apply (returns_for_fold 0 n _ (fun _ pb => Z.of_nat (List.length pb) = n));
    [exact Hn|exact Hpb0|].
  intros i pb Hi Hpb.
  eapply returns_bind; [apply (returns_vec_at s (P r) i 0); lia|].
  cbn beta. intros p ->.
  pose proof (P_entry_range i Hi) as Hp.
  eapply returns_bind; [apply (returns_vec_at s b _ Tzero); lia|].
  cbn beta. intros v _.
  eapply returns_mono; [apply returns_vec_set; lia|].
  cbn beta. intros pb' Hpb'. lia.
Qed.

Lemma forward_substitution_returns {S} (s : S) (pb : list T) :
  Z.of_nat (List.length pb) = n ->
  returns (forward_substitution r pb) s
    (fun y => Z.of_nat (List.length y) = n).
Proof.
  intros Hpb. destruct solve_dim as (Hr & Hn).
  unfold forward_substitution. cbn zeta. rewrite Hr.
  eapply returns_bind; [apply returns_vec_new; exact Hn|].
  cbn beta. intros y0 Hy0.
  apply (returns_for_fold 0 n _ (fun _ y => Z.of_nat (List.length y) = n));
    [exact Hn|exact Hy0|].
  intros i y Hi Hy.
  eapply returns_bind.
  { apply (returns_for_fold 0 i _ (fun _ (_ : T) => True)); [lia|exact I|].
    intros j sum Hj _.
    unfold returns, bind.
    rewrite (Matrix_at_is s (LU r) n n f) by (assumption || lia).
    rewrite (vec_at_ok s y j Tzero) by lia. eauto. }
  cbn beta. intros sum _.
  eapply returns_bind; [apply (returns_vec_at s pb i Tzero); lia|].
  cbn beta. intros pbi _.
  eapply returns_mono; [apply returns_vec_set; lia|].
  cbn beta. intros y' Hy'. lia.
Qed.

Lemma backward_row_value {S} (s : S) (divide : T -> T -> prog S T)
  (y x : list T) (i : Z) :
  divides_on_diagonal n f s divide ->
  Z.of_nat (List.length y) = n -> Z.of_nat (List.length x) = n ->
  0 <= i < n ->
  exists sum,
    for_fold (i + 1) n (fun j sum =>
      u <- Matrix_at (LU r) i j ;;
      xj <- vec_at x j ;;
      ret (Tadd sum (Tmul u xj))) Tzero s = Ok sum s /\
    backward_row divide r y i x s =
    Ok (list_upd x (Z.to_nat i)
          (Tdiv (Tsub (nth (Z.to_nat i) y Tzero) sum) (f i i))) s.
Proof.
  intros Hdiv Hy Hx Hi. destruct solve_dim as (Hr & Hn).
  assert (Hsum : returns
            (for_fold (i + 1) n (fun j sum =>
               u <- Matrix_at (LU r) i j ;;
               xj <- vec_at x j ;;
               ret (Tadd sum (Tmul u xj))) Tzero) s (fun _ => True)).
  { apply (returns_for_fold (i + 1) n _ (fun _ (_ : T) => True)); [lia|exact I|].
    intros j sum Hj _.
    unfold returns, bind.
    rewrite (Matrix_at_is s (LU r) n n f) by (assumption || lia).
    rewrite (vec_at_ok s x j Tzero) by lia. eauto. }
  destruct Hsum as (sum & Hsum & _). exists sum. split; [exact Hsum|].
  unfold backward_row. cbn zeta. rewrite Hr.
  rewrite (bind_Ok _ _ _ _ _ Hsum).
  rewrite (bind_Ok _ _ _ _ _ (vec_at_ok s y i Tzero ltac:(lia))).
  rewrite (bind_Ok _ _ _ _ _ (Matrix_at_is s (LU r) n n f i i HLU Hi Hi)).
  rewrite (bind_Ok _ _ _ _ _ (Hdiv _ i Hi)).
  apply vec_set_ok. lia.
Qed.

Lemma backward_substitution_cong {S} (s : S)
  (divide divide' : T -> T -> prog S T) (y : list T) :
  divides_on_diagonal n f s divide -> divides_on_diagonal n f s divide' ->
  Z.of_nat (List.length y) = n ->
  backward_substitution divide r y s = backward_substitution divide' r y s.
Proof.
  intros Hd Hd' Hy. destruct solve_dim as (Hr & Hn).
  unfold backward_substitution. cbn zeta. rewrite Hr. unfold bind.
  rewrite vec_new_ok by exact Hn. unfold for_down.
  apply (for_down_count_cong _ _ _
           (fun i x => Z.of_nat (List.length x) = n /\ i < n)).
  - rewrite repeat_length. lia.
  - intros i x Hi [Hx Hin].
    destruct (backward_row_value s divide y x i Hd Hy Hx ltac:(lia))
      as (sum & Hsum & Hrow).
    destruct (backward_row_value s divide' y x i Hd' Hy Hx ltac:(lia))
      as (sum' & Hsum' & Hrow').
    assert (sum = sum') by congruence. subst sum'.
    split; [congruence|].
    eexists. split; [exact Hrow|]. rewrite length_list_upd. lia.
Qed.

Lemma backward_substitution_returns {S} (s : S)
  (divide : T -> T -> prog S T) (y : list T) :
  divides_on_diagonal n f s divide ->
  Z.of_nat (List.length y) = n ->
  returns (backward_substitution divide r y) s
    (fun x => Z.of_nat (List.length x) = n).
Proof.
  intros Hd Hy. destruct solve_dim as (Hr & Hn).
  unfold backward_substitution. cbn zeta. rewrite Hr.
  eapply returns_bind; [apply returns_vec_new; exact Hn|].
  cbn beta. intros x0 Hx0.
  eapply returns_mono.
  - apply (returns_for_down (n - 1) _
             (fun i x => Z.of_nat (List.length x) = n)); [lia|exact Hx0|].
    intros i x Hi Hx.
    destruct (backward_row_value s divide y x i Hd Hy Hx ltac:(lia))
      as (sum & Hsum & Hrow).
    eexists. split; [exact Hrow|]. rewrite length_list_upd. exact Hx.
  - cbn beta. auto.
Qed.

Lemma solve_with_returns {S} (s : S) (divide : T -> T -> prog S T)
  (b : list T) :
  divides_on_diagonal n f s divide ->
  Z.of_nat (List.length b) = n ->
  exists x, solve_with divide r b s = Ok x s /\ solve r b s = Ok x s.
Proof.
  intros Hd Hb.
  assert (Hd0 : divides_on_diagonal n f s (fun a d => ret (Tdiv a d)))
    by (intros a i Hi; reflexivity).
  destruct (permute_rhs_returns s b Hb) as (pb & Hpb & Hlpb).
  destruct (forward_substitution_returns s pb Hlpb) as (y & Hy & Hly).
  destruct (backward_substitution_returns s divide y Hd Hly) as (x & Hx & _).
  exists x. unfold solve, solve_with, bind. rewrite Hpb, Hy.
  split; [exact Hx|].
  rewrite <- Hx. apply backward_substitution_cong; assumption.
Qed.

End SolveFacts.

(** The tolerance of the instance is the literal of the source. *)
#[warnings="-inexact-float"]
Example tolerance_literal : 1e-15%float = 0x1.203af9ee75616p-50%float.
Proof. reflexivity. Qed.

(** On [double], a zero is below the tolerance. *)
Lemma float_zero_below_tolerance (x : float) :
  PrimFloat.eqb x 0 = true ->
  PrimFloat.ltb (PrimFloat.abs x) 0x1.203af9ee75616p-50 = true.
Proof.
  rewrite eqb_spec, ltb_spec, abs_spec.
  remember (Prim2SF 0) as z eqn:Ez. vm_compute in Ez.
  remember (Prim2SF 0x1.203af9ee75616p-50) as t eqn:Et. vm_compute in Et.
  subst z t.
  destruct (Prim2SF x) as [s|s| |s m e]; intros H.
  - reflexivity.
  - destruct s; discriminate H.
  - discriminate H.
  - destruct s; discriminate H.
Qed.

Lemma double_zero_below_tolerance (x : float) :
  double_is_zero x = true -> Tlt_tol (Tabs x) = true.
Proof. exact (float_zero_below_tolerance x). Qed.

(** C10, as amended: in every [LUResult] returned by a successful
    [decomposeLU], no diagonal entry [LU(i,i)] has a magnitude below [1e-15]
    (each is at least [1e-15], or not a number), and none is a zero;
    consequently, for every right-hand side of matching length, [solve]
    returns and no division of its backward substitution has a zero
    divisor. *)
Theorem decomposeLU_pivots_nonzero {T} {N : Numeric T} {F : Floating T}
  (is_zero : T -> bool) (A : Matrix T) (r : LUResult T) (b : list T) :
  (forall x, is_zero x = true -> Tlt_tol (Tabs x) = true) ->
  wf A -> m_rows A = m_cols A ->
  run (decomposeLU A) = Ok r tt ->
  Z.of_nat (List.length b) = m_rows A ->
  (forall i, 0 <= i < m_rows A ->
     Tlt_tol (Tabs (entry (LU r) i i)) = false /\
     is_zero (entry (LU r) i i) = false) /\
  exists x, run (solve r b) = Ok x tt /\
            run (solve_watched is_zero r b) = Ok x tt.
Proof.
  intros Hzero Hwf Hsq Hrun Hb.
  destruct (decomposeLU_returns A r Hwf Hsq Hrun) as (s & _ & <- & Hgood).
  destruct Hgood as (f & p & t & (_ & HM & HPp & _) & Hperm & _ & Hdiag).
  assert (Hnz : forall i, 0 <= i < m_rows A ->
            Tlt_tol (Tabs (f i i)) = false /\ is_zero (f i i) = false).
  { intros i Hi. split; [apply Hdiag; exact Hi|].
    destruct (is_zero (f i i)) eqn:E; [|reflexivity].
    apply Hzero in E. rewrite (Hdiag i Hi) in E. discriminate. }
  split.
  - intros i Hi. destruct HM as (_ & _ & _ & He).
    rewrite He by assumption. apply Hnz. exact Hi.
  - rewrite <- HPp in Hperm.
    destruct (solve_with_returns (result s) _ f HM Hperm tt
                (fun a d => if is_zero d then throw division_by_zero
                            else ret (Tdiv a d)) b) as (x & Hw & Hs).
    + intros a i Hi. destruct (Hnz i Hi) as (_ & ->). reflexivity.
    + exact Hb.
    + exists x. split; [exact Hs|exact Hw].
Qed.

Lemma decomposeLU_pivots_nonzero_witness :
  (forall i, 0 <= i < 2 ->
     Tlt_tol (Tabs (entry (mkMatrix 2 2 [2; 1; 0.5; 2.5]%float) i i)) = false /\
     double_is_zero (entry (mkMatrix 2 2 [2; 1; 0.5; 2.5]%float) i i) = false) /\
  exists x,
    run (solve (mkLUResult (mkMatrix 2 2 [2; 1; 0.5; 2.5]%float) [0; 1] 1)
           [3; 5]%float) = Ok x tt /\
    run (solve_watched double_is_zero
           (mkLUResult (mkMatrix 2 2 [2; 1; 0.5; 2.5]%float) [0; 1] 1)
           [3; 5]%float) = Ok x tt.
Proof.
  apply (decomposeLU_pivots_nonzero double_is_zero system_2x2
           (mkLUResult (mkMatrix 2 2 [2; 1; 0.5; 2.5]%float) [0; 1] 1)
           [3; 5]%float).
  - exact double_zero_below_tolerance.
  - unfold wf, INT_MAX. cbn. lia.
  - reflexivity.
  - vm_compute. reflexivity.
  - reflexivity.
Defined.

(** C10, as stated, fails at a 3 x 3 matrix of finite elements: the
    elimination overflows, the last diagonal entry of the result is not a
    number, and its magnitude is not at least [1e-15]. *)
Lemma decomposeLU_pivots_counterexample :
  exists r,
    run (decomposeLU overflowing_3x3) = Ok r tt /\
    PrimFloat.is_nan (entry (LU r) 2 2) = true /\
    PrimFloat.leb 0x1.203af9ee75616p-50 (PrimFloat.abs (entry (LU r) 2 2))
    = false.
Proof.
  eexists. split; [vm_compute; reflexivity|].
  split; vm_compute; reflexivity.
Qed.

(** The solution of the system of the specification. *)
Example solve_2x2 :
  run (r <- decomposeLU system_2x2 ;; solve r [3; 5]%float) =
  Ok [0x1.999999999999ap-1; 0x1.6666666666666p+0]%float tt.
Proof. vm_compute. reflexivity. Qed.

(** ** The reconstruction of [PA] *)

(** C1 fails on the code.  On [[4,1,1],[2,1,3],[1,3,2]] the second step
    exchanges the rows 1 and 2 from column 1 on, and leaves in place the
    multipliers that the first step stored in column 0: the result is
    [LU = [[4,1,1],[0.5,2.75,1.75],[0.25,0.18..,2.18..]]] with [P = [0,2,1]],
    and the element [(1,0)] of [L U] is 2, where that of [PA] is 1. *)
Theorem decomposeLU_reconstruction_fails :
  exists r,
    run (decomposeLU exchange_3x3) = Ok r tt /\
    P r = [0; 2; 1] /\
    entry (LU r) 1 0 = 0.5%float /\ entry (LU r) 2 0 = 0.25%float /\
    LU_product 1%float r 1 0 = 2%float /\
    PA_entry exchange_3x3 r 1 0 = 1%float.
Proof.
  eexists. split; [vm_compute; reflexivity|].
  repeat split; vm_compute; reflexivity.
Qed.

(** On the same matrix [solve] does not solve the system: the rows of [A]
    all sum to 6, the solution of [A x = [6,6,6]] is [[1,1,1]], and the first
    component returned is [1.0625]. *)
Example solve_after_exchange :
  exists x,
    run (r <- decomposeLU exchange_3x3 ;; solve r [6; 6; 6]%float) = Ok x tt /\
    nth 0 x 0%float = 1.0625%float.
Proof.
  eexists. split; vm_compute; reflexivity.
Qed.

(* ================================================================== *)
(** * Part III: further properties of the code *)
(* ================================================================== *)

(** ** The exceptions an operation can throw *)

Lemma throws_only_ret {S A} (E : exn -> Prop) (a : A) :
  throws_only E (@ret S A a).
Proof. intros s. exact I. Qed.

Lemma throws_only_undefined {S A} (E : exn -> Prop) :
  throws_only E (@undefined S A).
Proof. intros s. exact I. Qed.

Lemma throws_only_diverge {S A} (E : exn -> Prop) :
  throws_only E (@diverge S A).
Proof. intros s. exact I. Qed.

Lemma throws_only_throw {S A} (E : exn -> Prop) (e : exn) :
  E e -> throws_only E (@throw S A e).
Proof. intros H s. exact H. Qed.

Lemma throws_only_bind {S A B} (E : exn -> Prop) (c : prog S A)
  (k : A -> prog S B) :
  throws_only E c -> (forall a, throws_only E (k a)) -> throws_only E (bind c k).
Proof.
  intros Hc Hk s. apply wp_bind. eapply wp_mono; [apply Hc| |auto].
  cbn beta. intros a s' _. apply Hk.
Qed.

Lemma throws_only_if {S A} (E : exn -> Prop) (b : bool) (c1 c2 : prog S A) :
  throws_only E c1 -> throws_only E c2 -> throws_only E (if b then c1 else c2).
Proof. destruct b; auto. Qed.

Lemma throws_only_for_fold {S X} (E : exn -> Prop) lo hi
  (body : Z -> X -> prog S X) x :
  (forall i x, throws_only E (body i x)) -> throws_only E (for_fold lo hi body x).
Proof.
  intros Hb. unfold for_fold. generalize (Z.to_nat (hi - lo)) as n.
  intros n. revert lo x. induction n as [|n IH]; intros lo x.
  - apply throws_only_ret.
  - cbn [for_count]. apply throws_only_bind; [apply Hb|]. intros x'. apply IH.
Qed.

Lemma throws_only_while {S X} (E : exn -> Prop) fuel (cond : X -> bool)
  (body : X -> prog S X) x :
  (forall x, throws_only E (body x)) -> throws_only E (while_ fuel cond body x).
Proof.
  intros Hb. revert x. induction fuel as [|fuel IH]; intros x.
  - apply throws_only_diverge.
  - cbn [while_]. apply throws_only_if; [|apply throws_only_ret].
    apply throws_only_bind; [apply Hb|]. intros x'. apply IH.
Qed.

(** Break a computation into its statements; what is left are the calls
    and the [throw] statements. *)
Ltac throws_step :=
  first [ apply throws_only_ret | apply throws_only_undefined
        | apply throws_only_diverge
        | apply throws_only_bind; [|intro]
        | apply throws_only_if
        | apply throws_only_for_fold; intros ? ?
        | apply throws_only_while; intro
        | match goal with
          | |- throws_only _ (match ?o with Some _ => _ | None => _ end) =>
              destruct o
          | |- throws_only _ (match ?o with pair _ _ => _ end) =>
              destruct o
          end
        | assumption ].

Lemma length_error_only_int_op {S} x :
  throws_only is_length_error (@int_op S x).
Proof. unfold int_op. repeat throws_step. Qed.

Lemma length_error_only_vec_new {S A} n (a : A) :
  throws_only is_length_error (@vec_new S A n a).
Proof.
  unfold vec_new. apply throws_only_if; [|apply throws_only_ret].
  apply throws_only_throw. reflexivity.
Qed.

Lemma length_error_only_vec_at {S A} (v : list A) i :
  throws_only is_length_error (@vec_at S A v i).
Proof. unfold vec_at. repeat throws_step. Qed.

Lemma length_error_only_vec_set {S A} (v : list A) i a :
  throws_only is_length_error (@vec_set S A v i a).
Proof. unfold vec_set. repeat throws_step. Qed.

Section LengthErrorOnly.
Context {T : Type} {N : Numeric T}.

Lemma length_error_only_Matrix_new {S} rows cols :
  throws_only is_length_error (@Matrix_new T N S rows cols).
Proof.
  unfold Matrix_new.
  repeat first [ apply length_error_only_int_op
               | apply length_error_only_vec_new | throws_step ].
Qed.

Lemma length_error_only_Matrix_at {S} (M : Matrix T) r c :
  throws_only is_length_error (@Matrix_at T S M r c).
Proof.
  unfold Matrix_at, Matrix_index.
  repeat first [ apply length_error_only_int_op
               | apply length_error_only_vec_at | throws_step ].
Qed.

Lemma length_error_only_Matrix_set {S} (M : Matrix T) r c v :
  throws_only is_length_error (@Matrix_set T S M r c v).
Proof.
  unfold Matrix_set, Matrix_index.
  repeat first [ apply length_error_only_int_op
               | apply length_error_only_vec_set | throws_step ].
Qed.

Ltac length_error_calls :=
  repeat first [ apply length_error_only_int_op
               | apply length_error_only_Matrix_new
               | apply length_error_only_Matrix_at
               | apply length_error_only_Matrix_set | throws_step ].

Lemma length_error_only_matrixPadding {S} (A : Matrix T) newSize :
  throws_only is_length_error (@matrixPadding T N S A newSize).
Proof. unfold matrixPadding. length_error_calls. Qed.

Lemma length_error_only_matrixUnpadding {S} (A : Matrix T) rows cols :
  throws_only is_length_error (@matrixUnpadding T N S A rows cols).
Proof. unfold matrixUnpadding. length_error_calls. Qed.

Lemma length_error_only_matrixMultiply {S} (A B : Matrix T) :
  throws_only is_length_error (@matrixMultiply T N S A B).
Proof. unfold matrixMultiply. length_error_calls. Qed.

(** The statements of [operator+] and [operator-] behind the test of the
    dimensions. *)
Lemma length_error_only_sum_loop {S} (op : T -> T -> T) (A B : Matrix T) :
  throws_only is_length_error (S := S)
    (result <- Matrix_new (m_rows A) (m_cols A) ;;
     for_fold 0 (m_rows A) (fun i result =>
       for_fold 0 (m_cols A) (fun j result =>
         a <- Matrix_at A i j ;;
         b <- Matrix_at B i j ;;
         Matrix_set result i j (op a b)) result) result).
Proof. length_error_calls. Qed.

End LengthErrorOnly.

(** X1: [operator+] throws its dimensions error exactly when the two
    operands differ in their row count or in their column count, and
    [operator-] throws its own under the same condition; on operands of the
    same shape neither throws it, whatever their storage. *)
Theorem Matrix_add_sub_incompatible {T} {N : Numeric T} (A B : Matrix T) :
  (run (Matrix_add A B) = Throw (invalid_argument add_msg) tt <->
   m_rows A <> m_rows B \/ m_cols A <> m_cols B) /\
  (run (Matrix_sub A B) = Throw (invalid_argument sub_msg) tt <->
   m_rows A <> m_rows B \/ m_cols A <> m_cols B).
Proof.
  assert (Hguard : negb (m_rows A =? m_rows B) || negb (m_cols A =? m_cols B)
                   = true <->
                   m_rows A <> m_rows B \/ m_cols A <> m_cols B).
  { destruct (Z.eqb_spec (m_rows A) (m_rows B)),
      (Z.eqb_spec (m_cols A) (m_cols B)); cbn; split; intros H;
      try reflexivity; try discriminate; try tauto. }
  split; unfold run, Matrix_add, Matrix_sub;
    destruct (negb (m_rows A =? m_rows B) || negb (m_cols A =? m_cols B));
    (split; [|intros H]);
    try (intros _; apply Hguard; reflexivity); try reflexivity;
    try (apply Hguard in H; discriminate H).
  - intros H. exfalso.
    pose proof (length_error_only_sum_loop (S := unit) Tadd A B tt) as Hq.
    unfold wp in Hq. rewrite H in Hq. discriminate Hq.
  - intros H. exfalso.
    pose proof (length_error_only_sum_loop (S := unit) Tsub A B tt) as Hq.
    unfold wp in Hq. rewrite H in Hq. discriminate Hq.
Qed.

(** ** The classical product, without its precondition *)

Section ProductEdges.
Context {T : Type} {N : Numeric T}.


End ProductEdges.



(** *** Reads outside the storage *)

Lemma vec_at_outside {S A} (s : S) (v : list A) i :
  Z.of_nat (List.length v) <= i -> vec_at v i s = Undefined.
Proof.
  intros H. unfold vec_at.
  replace (i <? 0) with false by (symmetry; apply Z.ltb_ge; lia).
  destruct (nth_error v (Z.to_nat i)) as [a|] eqn:E; [|reflexivity].
  assert (nth_error v (Z.to_nat i) <> None) as Hs by congruence.
  apply nth_error_Some in Hs. lia.
Qed.

(** A loop whose iteration [k] has undefined behaviour, the iterations
    before it returning. *)
Lemma for_count_undefined {S X} (body : Z -> X -> prog S X)
  (I : Z -> X -> Prop) (s : S) (k : Z) :
  (forall x, I k x -> body k x s = Undefined) ->
  forall n lo x,
  lo <= k < lo + Z.of_nat n -> I lo x ->
  (forall i x, lo <= i < k -> I i x -> returns (body i x) s (I (i + 1))) ->
  for_count n lo body x s = Undefined.
Proof.
  intros Hk. induction n as [|n IH]; intros lo x Hlo H0 Hb; [lia|].
  rewrite for_count_S. destruct (Z.eq_dec lo k) as [->|Hne].
  - rewrite (Hk x H0). reflexivity.
  - destruct (Hb lo x ltac:(lia) H0) as (x1 & Hx1 & HI). rewrite Hx1.
    apply IH; [lia|exact HI|]. intros i x2 Hi. apply Hb. lia.
Qed.

Lemma for_fold_undefined {S X} lo hi k (body : Z -> X -> prog S X)
  (I : Z -> X -> Prop) x (s : S) :
  lo <= k < hi -> I lo x ->
  (forall i x, lo <= i < k -> I i x -> returns (body i x) s (I (i + 1))) ->
  (forall x, I k x -> body k x s = Undefined) ->
  for_fold lo hi body x s = Undefined.
Proof.
  intros Hk H0 Hb Hu. unfold for_fold.
  apply (for_count_undefined body I s k Hu); [lia|exact H0|exact Hb].
Qed.

Section MatrixBounds.
Context {T : Type} {N : Numeric T}.

(** [operator()] reads the storage at [row * m_cols + col]. *)
Lemma Matrix_at_flat {S} (s : S) (M : Matrix T) r c :
  INT_MIN <= r * m_cols M <= INT_MAX ->
  INT_MIN <= r * m_cols M + c <= INT_MAX ->
  Matrix_at M r c s = vec_at (m_data M) (r * m_cols M + c) s.
Proof.
  intros H1 H2. unfold Matrix_at, Matrix_index, bind.
  rewrite int_op_ok by exact H1. rewrite int_op_ok by exact H2. reflexivity.
Qed.

Lemma Matrix_at_outside {S} (s : S) (M : Matrix T) r c :
  wf M -> m_rows M <= r -> 0 <= c -> r * m_cols M + c <= INT_MAX ->
  Matrix_at M r c s = Undefined.
Proof.
  intros (Hr & Hc & Hm & Hl) Hrr Hcc Hmax.
  assert (m_rows M * m_cols M <= r * m_cols M)
    by (apply Z.mul_le_mono_nonneg_r; lia).
  rewrite Matrix_at_flat by (unfold INT_MIN; nia).
  apply vec_at_outside. lia.
Qed.

Lemma matrixMultiply_short {S} (s : S) (A B : Matrix T) n K K' m fa fb :
  is_matrix A n K fa -> is_matrix B K' m fb ->
  K' < K -> 0 < n -> 0 < m -> n * m <= INT_MAX ->
  matrixMultiply A B s = Undefined.
Proof.
  intros HA HB HKK Hn0 Hm0 Hnm.
  pose proof (is_matrix_bounds _ _ _ _ HA) as (Hn & HK & _).
  pose proof (is_matrix_bounds _ _ _ _ HB) as (HK' & Hm & HKm).
  pose proof HA as (_ & HrA & HcA & _).
  pose proof HB as (HwB & HrB & HcB & _).
  unfold matrixMultiply. rewrite HrA, HcA, HcB.
  destruct (Matrix_new_returns s n m ltac:(lia) ltac:(lia) Hnm)
    as (R0 & HR0 & HM0).
  rewrite (bind_Ok _ _ _ _ _ HR0).
  apply (for_fold_undefined 0 n 0 _ (fun _ M => exists f, is_matrix M n m f));
    [lia|eauto|intros; lia|].
  intros M (f & HM).
  apply (for_fold_undefined 0 K K' _ (fun _ M => exists f, is_matrix M n m f));
    [lia|eauto| |].
  - intros k M1 Hk (f1 & HM1). unfold returns, bind.
    rewrite (Matrix_at_is s A n K fa) by (assumption || lia).
    eapply returns_mono.
    + apply (fill_row s M1 n m _ 0 0 m _
               (fun j => Tadd (f1 0 j) (Tmul (fa 0 k) (fb k j))) HM1); try lia.
      intros j M2 f2 Hj HM2 Hf2. unfold bind.
      rewrite (Matrix_at_is s B K' m fb) by (assumption || lia).
      rewrite (Matrix_at_is s M2 n m f2) by (assumption || lia).
      change (0 + j) with j in *. rewrite Hf2. reflexivity.
    + cbn beta. eauto.
  - intros M1 (f1 & HM1). unfold bind.
    rewrite (Matrix_at_is s A n K fa) by (assumption || lia).
    apply (for_fold_undefined 0 m 0 _ (fun _ (_ : Matrix T) => True));
      [lia|exact I|intros; lia|].
    intros M2 _. unfold bind.
    rewrite (Matrix_at_outside s B K' 0); [reflexivity|exact HwB|lia|lia|].
    rewrite HcB. unfold INT_MAX in *. lia.
Qed.

End MatrixBounds.

(** X3: [matrixMultiply] does not check its operands: when [B] has fewer
    rows than [A] has columns and the result is not empty, the loop reads
    [B] past the end of its storage, which is undefined behaviour; no
    exception reports the mismatch. *)
Theorem matrixMultiply_unchecked {T} {N : Numeric T} (A B : Matrix T) :
  wf A -> wf B -> m_rows B < m_cols A ->
  0 < m_rows A -> 0 < m_cols B -> m_rows A * m_cols B <= INT_MAX ->
  run (matrixMultiply A B) = Undefined.
Proof.
  intros HwA HwB HK Hn Hm Hnm.
  apply (matrixMultiply_short tt A B _ _ _ _ _ _
           (is_matrix_entry A HwA) (is_matrix_entry B HwB)); assumption.
Qed.

Lemma matrixMultiply_unchecked_witness :
  run (matrixMultiply A_2x2 (mkMatrix 1 2 [5; 6])) = Undefined.
Proof.
  apply (matrixMultiply_unchecked A_2x2 (mkMatrix 1 2 [5; 6])).
  - unfold wf, INT_MAX. cbn. lia.
  - unfold wf, INT_MAX. cbn. lia.
  - cbn. lia.
  - cbn. lia.
  - cbn. lia.
  - unfold INT_MAX. cbn. lia.
Defined.

(** X4: [operator()] checks neither index.  On a well-formed matrix, a
    column index that is [q] row lengths too large reads the element [q]
    rows further down, as long as that row exists; a position at or past the
    end of the storage is read out of bounds (undefined behaviour).  No
    exception is thrown in either case. *)
Theorem Matrix_at_unchecked {T} {N : Numeric T} (M : Matrix T) (r c q : Z) :
  wf M -> 0 <= r -> 0 <= c < m_cols M -> 0 <= q ->
  (r + q < m_rows M ->
   run (Matrix_at M r (c + q * m_cols M)) = Ok (entry M (r + q) c) tt) /\
  (m_rows M <= r + q -> (r + q) * m_cols M + c <= INT_MAX ->
   run (Matrix_at M r (c + q * m_cols M)) = Undefined).
Proof.
  intros Hwf Hr Hc Hq. pose proof Hwf as (Hrows & Hcols & Hm & Hl).
  split.
  - intros Hin.
    pose proof (flat_index_range (m_rows M) (m_cols M) (r + q) c
                  ltac:(lia) Hc) as Hk.
    unfold run. rewrite Matrix_at_flat by (unfold INT_MIN; nia).
    replace (r * m_cols M + (c + q * m_cols M)) with ((r + q) * m_cols M + c)
      by ring.
    rewrite (vec_at_ok tt _ _ Tzero) by lia. reflexivity.
  - intros Hout Hmax.
    assert (m_rows M * m_cols M <= (r + q) * m_cols M)
      by (apply Z.mul_le_mono_nonneg_r; lia).
    unfold run. rewrite Matrix_at_flat by (unfold INT_MIN; nia).
    apply vec_at_outside. nia.
Qed.

Lemma Matrix_at_unchecked_witness :
  (0 + 1 < 2 -> run (Matrix_at A_2x2 0 (1 + 1 * 2)) = Ok (entry A_2x2 (0 + 1) 1) tt) /\
  (2 <= 0 + 1 -> (0 + 1) * 2 + 1 <= INT_MAX ->
   run (Matrix_at A_2x2 0 (1 + 1 * 2)) = Undefined).
Proof.
  apply (Matrix_at_unchecked A_2x2 0 1 1).
  - unfold wf, INT_MAX. cbn. lia.
  - lia.
  - cbn. lia.
  - lia.
Defined.

(** ** Blocks: getSubMatrix and setSubMatrix *)

(** X5: writing a [size] x [size] matrix [sub] into [M] at [(a, b)] with
    [setSubMatrix], when the block lies inside [M], changes exactly the
    elements of the block, keeps the shape of [M], and [getSubMatrix] at the
    same place then returns [sub] itself. *)
Theorem setSubMatrix_getSubMatrix {T} {N : Numeric T}
  (M sub : Matrix T) (a b size : Z) :
  wf M -> shaped sub size size ->
  0 <= a -> 0 <= b -> a + size <= m_rows M -> b + size <= m_cols M ->
  exists M',
    run (setSubMatrix M a b sub) = Ok M' tt /\
    shaped M' (m_rows M) (m_cols M) /\
    (forall r c, 0 <= r < m_rows M -> 0 <= c < m_cols M ->
       entry M' r c =
       if (a <=? r) && (r <? a + size) && (b <=? c) && (c <? b + size)
       then entry sub (r - a) (c - b) else entry M r c) /\
    run (getSubMatrix M' a b size) = Ok sub tt.
Proof.
  intros HwM (Hws & Hrs & Hcs) Ha Hb Har Hbc.
  pose proof (is_matrix_entry M HwM) as HM.
  pose proof (is_matrix_entry sub Hws) as Hsub. rewrite Hrs, Hcs in Hsub.
  pose proof (is_matrix_bounds _ _ _ _ Hsub) as (Hs & _ & _).
  destruct (setSubMatrix_returns tt M sub _ _ _ _ _ a b HM Hsub Ha Hb Har Hbc)
    as (M' & Hset & HM').
  exists M'. split; [exact Hset|].
  pose proof HM' as (HwM' & HrM' & HcM' & HeM').
  split; [split; [exact HwM'|split; assumption]|]. split; [exact HeM'|].
  destruct (getSubMatrix_returns tt M' _ _ _ a b size HM' Ha Hb ltac:(lia)
              Har Hbc) as (R & Hget & HR).
  unfold run. rewrite Hget. f_equal.
  eapply is_matrix_ext; [exact HR|].
  eapply is_matrix_fun; [exact Hsub|].
  intros r c Hr Hc. cbn beta. zbool; f_equal; lia.
Qed.

Lemma setSubMatrix_getSubMatrix_witness :
  exists M',
    run (setSubMatrix (mkMatrix 2 3 [1; 2; 3; 4; 5; 6]) 0 1 A_2x2) = Ok M' tt /\
    shaped M' 2 3 /\
    (forall r c, 0 <= r < 2 -> 0 <= c < 3 ->
       entry M' r c =
       if (0 <=? r) && (r <? 0 + 2) && (1 <=? c) && (c <? 1 + 2)
       then entry A_2x2 (r - 0) (c - 1)
       else entry (mkMatrix 2 3 [1; 2; 3; 4; 5; 6]) r c) /\
    run (getSubMatrix M' 0 1 2) = Ok A_2x2 tt.
Proof.
  apply (setSubMatrix_getSubMatrix (mkMatrix 2 3 [1; 2; 3; 4; 5; 6]) A_2x2 0 1 2).
  - unfold wf, INT_MAX. cbn. lia.
  - unfold shaped, wf, INT_MAX. cbn. lia.
  - lia.
  - lia.
  - cbn. lia.
  - cbn. lia.
Defined.

(** X6: the four quadrants of a [2h] x [2h] matrix, taken with
    [getSubMatrix] and written with [setSubMatrix] at their places into a
    fresh [Matrix(2h, 2h)], give the matrix back: the partition and the
    assembly of [strassenMultiply] lose nothing. *)
Theorem quadrants_reassemble {T} {N : Numeric T} (A : Matrix T) (h : Z) :
  shaped A (h + h) (h + h) ->
  run (A11 <- getSubMatrix A 0 0 h ;;
       A12 <- getSubMatrix A 0 h h ;;
       A21 <- getSubMatrix A h 0 h ;;
       A22 <- getSubMatrix A h h h ;;
       C <- Matrix_new (h + h) (h + h) ;;
       C <- setSubMatrix C 0 0 A11 ;;
       C <- setSubMatrix C 0 h A12 ;;
       C <- setSubMatrix C h 0 A21 ;;
       C <- setSubMatrix C h h A22 ;;
       ret C) = Ok A tt.
Proof.
  intros (Hw & Hr & Hc).
  pose proof (is_matrix_entry A Hw) as HA. rewrite Hr, Hc in HA.
  pose proof (is_matrix_bounds _ _ _ _ HA) as (Hn & _ & Hnn).
  assert (Hh : 0 <= h) by lia.
  assert (H : returns
    (A11 <- getSubMatrix A 0 0 h ;;
     A12 <- getSubMatrix A 0 h h ;;
     A21 <- getSubMatrix A h 0 h ;;
     A22 <- getSubMatrix A h h h ;;
     C <- Matrix_new (h + h) (h + h) ;;
     C <- setSubMatrix C 0 0 A11 ;;
     C <- setSubMatrix C 0 h A12 ;;
     C <- setSubMatrix C h 0 A21 ;;
     C <- setSubMatrix C h h A22 ;;
     ret C) tt (fun C => is_matrix C (h + h) (h + h) (entry A))).
  { eapply returns_bind;
      [apply (getSubMatrix_returns tt A _ _ _ 0 0 h HA); lia|].
    cbn beta. intros A11 HA11.
    eapply returns_bind;
      [apply (getSubMatrix_returns tt A _ _ _ 0 h h HA); lia|].
    cbn beta. intros A12 HA12.
    eapply returns_bind;
      [apply (getSubMatrix_returns tt A _ _ _ h 0 h HA); lia|].
    cbn beta. intros A21 HA21.
    eapply returns_bind;
      [apply (getSubMatrix_returns tt A _ _ _ h h h HA); lia|].
    cbn beta. intros A22 HA22.
    eapply returns_bind; [apply (Matrix_new_returns tt (h + h) (h + h)); lia|].
    cbn beta. intros C0 HC0.
    eapply returns_bind;
      [apply (setSubMatrix_returns tt _ _ _ _ _ _ _ 0 0 HC0 HA11); lia|].
    cbn beta. intros C1 HC1.
    eapply returns_bind;
      [apply (setSubMatrix_returns tt _ _ _ _ _ _ _ 0 h HC1 HA12); lia|].
    cbn beta. intros C2 HC2.
    eapply returns_bind;
      [apply (setSubMatrix_returns tt _ _ _ _ _ _ _ h 0 HC2 HA21); lia|].
    cbn beta. intros C3 HC3.
    eapply returns_bind;
      [apply (setSubMatrix_returns tt _ _ _ _ _ _ _ h h HC3 HA22); lia|].
    cbn beta. intros C4 HC4.
    apply returns_ret. eapply is_matrix_fun; [exact HC4|].
    intros r c Hrr Hcc. cbn beta.
    destruct (Z.lt_ge_cases r h) as [Hrh|Hrh], (Z.lt_ge_cases c h) as [Hch|Hch];
      zdecide; f_equal; lia. }
  destruct H as (C & HC & HCm). unfold run. rewrite HC. f_equal.
  eapply is_matrix_ext; [exact HCm|exact HA].
Qed.

Lemma quadrants_reassemble_witness :
  run (A11 <- getSubMatrix A_2x2 0 0 1 ;;
       A12 <- getSubMatrix A_2x2 0 1 1 ;;
       A21 <- getSubMatrix A_2x2 1 0 1 ;;
       A22 <- getSubMatrix A_2x2 1 1 1 ;;
       C <- Matrix_new (1 + 1) (1 + 1) ;;
       C <- setSubMatrix C 0 0 A11 ;;
       C <- setSubMatrix C 0 1 A12 ;;
       C <- setSubMatrix C 1 0 A21 ;;
       C <- setSubMatrix C 1 1 A22 ;;
       ret C) = Ok A_2x2 tt.
Proof.
  apply (quadrants_reassemble A_2x2 1).
  unfold shaped, wf, INT_MAX. cbn. lia.
Defined.

(** ** Padding to any size *)

Section PaddingFacts.
Context {T : Type} {N : Numeric T}.

Lemma matrixPadding_any_size {S} (s : S) (A : Matrix T) rows cols fa newSize :
  is_matrix A rows cols fa ->
  0 <= newSize -> newSize * newSize <= INT_MAX ->
  returns (matrixPadding A newSize) s
    (fun R => is_matrix R newSize newSize
       (fun r c => if (r <? rows) && (c <? cols) then fa r c else Tzero)).
Proof.
  intros HA Hn0 Hm.
  pose proof (is_matrix_bounds _ _ _ _ HA) as (Hr0 & Hc0 & Hm0).
  pose proof HA as (_ & HrA & HcA & _).
  unfold matrixPadding. rewrite HrA, HcA.
  destruct ((newSize =? rows) && (newSize =? cols)) eqn:E.
  - apply andb_prop in E. destruct E as [E1 E2].
    apply Z.eqb_eq in E1, E2. clear HrA HcA.
    apply returns_ret. rewrite <- E1, <- E2 in HA.
    eapply is_matrix_fun; [exact HA|].
    intros r c Hrr Hcc. cbn beta. zbool.
  - assert (Hn : 0 <= newSize <= INT_MAX) by nia.
    eapply returns_bind; [apply (Matrix_new_returns s newSize newSize); lia|].
    cbn beta. intros R0 HR0.
    eapply returns_mono.
    + apply (fill_block s R0 newSize newSize _ 0 0 newSize newSize _
               (fun i j padded =>
                  if (i <? rows) && (j <? cols)
                  then v <- Matrix_at A i j ;; Matrix_set padded i j v
                  else Matrix_set padded i j Tzero)
               (fun i j => if (i <? rows) && (j <? cols) then fa i j else Tzero)
               HR0); try lia; [reflexivity|].
      intros i j M f Hi Hj HM _. cbn beta.
      destruct (Z.ltb_spec i rows), (Z.ltb_spec j cols); cbn; try reflexivity.
      unfold bind.
      rewrite (Matrix_at_is s A rows cols fa) by (assumption || lia).
      reflexivity.
    + cbn beta. intros R HR. eapply is_matrix_fun; [exact HR|].
      intros r c Hrr Hcc. cbn beta. rewrite !Z.sub_0_r.
      replace ((0 <=? r) && (r <? 0 + newSize) && (0 <=? c) && (c <? 0 + newSize))
        with true; [reflexivity|]. zbool.
Qed.

End PaddingFacts.

(** X7: for every well-formed matrix [A] and every [newSize >= 0] whose
    square is an [int], [matrixPadding(A, newSize)] returns the
    [newSize] x [newSize] matrix that holds [A(r, c)] wherever [(r, c)] is a
    position of [A] and zero elsewhere.  Nothing requires
    [newSize >= max(A.rows, A.cols)]: a smaller [newSize] cuts [A] down to
    its top-left corner. *)
Theorem matrixPadding_spec {T} {N : Numeric T} (A : Matrix T) (newSize : Z) :
  wf A -> 0 <= newSize -> newSize * newSize <= INT_MAX ->
  exists R,
    run (matrixPadding A newSize) = Ok R tt /\
    shaped R newSize newSize /\
    forall r c, 0 <= r < newSize -> 0 <= c < newSize ->
      entry R r c =
      if (r <? m_rows A) && (c <? m_cols A) then entry A r c else Tzero.
Proof.
  intros Hw Hn Hsq.
  destruct (matrixPadding_any_size tt A _ _ _ newSize (is_matrix_entry A Hw)
              Hn Hsq) as (R & HR & HwR & HrR & HcR & HeR).
  exists R. split; [exact HR|]. split; [|exact HeR].
  split; [exact HwR|]. split; assumption.
Qed.

Lemma matrixPadding_spec_witness :
  exists R,
    run (matrixPadding (mkMatrix 2 3 [1; 2; 3; 4; 5; 6]) 2) = Ok R tt /\
    shaped R 2 2 /\
    forall r c, 0 <= r < 2 -> 0 <= c < 2 ->
      entry R r c =
      if (r <? 2) && (c <? 3)
      then entry (mkMatrix 2 3 [1; 2; 3; 4; 5; 6]) r c else 0.
Proof.
  refine (matrixPadding_spec (N := Numeric_Z)
            (mkMatrix 2 3 [1; 2; 3; 4; 5; 6]) 2 _ _ _).
  - unfold wf, INT_MAX. cbn. lia.
  - lia.
  - unfold INT_MAX. lia.
Defined.

(** ** Sums, differences and products over exact arithmetic *)

Section ExactOperators.
Context {T : Type} {N : Numeric T}.
Variables (Tone : T) (Topp : T -> T).
Hypothesis Tring : ring_theory Tzero Tone Tadd Tmul Tsub Topp (@eq T).

Add Ring T_ring_operators : Tring.

(** X8: over exact arithmetic, subtracting [B] from [A + B] gives [A] back,
    for all well-formed matrices of the same shape. *)
Theorem Matrix_add_sub_roundtrip (A B : Matrix T) :
  wf A -> wf B -> m_rows A = m_rows B -> m_cols A = m_cols B ->
  exists C,
    run (Matrix_add A B) = Ok C tt /\ run (Matrix_sub C B) = Ok A tt.
Proof.
  intros HwA HwB Hr Hc.
  pose proof (is_matrix_entry A HwA) as HA.
  pose proof (is_matrix_entry B HwB) as HB. rewrite <- Hr, <- Hc in HB.
  destruct (Matrix_add_returns tt A B _ _ _ _ HA HB) as (C & HC & HCm).
  exists C. split; [exact HC|].
  destruct (Matrix_sub_returns tt C B _ _ _ _ HCm HB) as (D & HD & HDm).
  unfold run. rewrite HD. f_equal.
  eapply is_matrix_ext; [exact HDm|].
  eapply is_matrix_fun; [exact HA|].
  intros r c Hrr Hcc. cbn beta. ring.
Qed.

(** [operator*] on operands of compatible dimensions. *)
Lemma Matrix_mul_returns {S} (s : S) (fuel : nat) (A B : Matrix T)
  n K m fa fb :
  is_matrix A n K fa -> is_matrix B K m fb ->
  max4 n K K m <= 32768 -> (16 <= fuel)%nat ->
  returns (Matrix_mul fuel A B) s
    (fun R => is_matrix R n m
       (fun i j => msum (Z.to_nat K) (fun k => Tmul (fa i k) (fb k j)))).
Proof.
  intros HA HB Hmax Hfuel.
  pose proof (is_matrix_bounds _ _ _ _ HA) as (Hn & HK & HnK).
  pose proof (is_matrix_bounds _ _ _ _ HB) as (_ & Hm & HKm).
  pose proof HA as (_ & HrA & HcA & _). pose proof HB as (_ & HrB & HcB & _).
  assert (Hnm : n * m <= INT_MAX) by (unfold max4, INT_MAX in *; nia).
  unfold Matrix_mul. rewrite HrA, HcA, HrB, HcB, Z.eqb_refl. cbn [negb].
  cbn zeta. unfold returns.
  rewrite (bind_Ok _ _ _ _ _ (int_op_ok s (K * n) ltac:(unfold INT_MIN; nia))).
  destruct (K * n <? 64).
  { apply (matrixMultiply_returns s A B n K m fa fb HA HB Hnm). }
  rewrite (bind_Ok _ _ _ _ _ (int_op_ok s (m * K) ltac:(unfold INT_MIN; nia))).
  destruct (m * K <? 64).
  { apply (matrixMultiply_returns s A B n K m fa fb HA HB Hnm). }
  apply (recursive_product_returns Tone Topp Tring s fuel A B n K m fa fb
           HA HB Hmax Hfuel).
Qed.

(** X9: over exact arithmetic, on every pair of well-formed matrices with
    [A.cols = B.rows] whose dimensions are at most 32768, [operator*]
    returns the [A.rows] x [B.cols] matrix of the sums
    [A(i,0) * B(0,j) + ... + A(i,K-1) * B(K-1,j)], whichever of its two
    algorithms it runs; a recursion depth of 16 is enough. *)
Theorem Matrix_mul_product (fuel : nat) (A B : Matrix T) :
  wf A -> wf B -> m_cols A = m_rows B ->
  max4 (m_rows A) (m_cols A) (m_rows B) (m_cols B) <= 32768 ->
  (16 <= fuel)%nat ->
  exists C,
    run (Matrix_mul fuel A B) = Ok C tt /\
    shaped C (m_rows A) (m_cols B) /\
    forall i j, 0 <= i < m_rows A -> 0 <= j < m_cols B ->
      entry C i j =
      msum (Z.to_nat (m_cols A)) (fun k => Tmul (entry A i k) (entry B k j)).
Proof.
  intros HwA HwB Hdim Hmax Hfuel.
  pose proof (is_matrix_entry A HwA) as HA.
  pose proof (is_matrix_entry B HwB) as HB.
  rewrite <- Hdim in *.
  destruct (Matrix_mul_returns tt fuel A B _ _ _ _ _ HA HB Hmax Hfuel)
    as (C & HC & HwC & HrC & HcC & HeC).
  exists C. split; [exact HC|]. split; [|exact HeC].
  split; [exact HwC|]. split; assumption.
Qed.

(** X10: over exact arithmetic, on two [n] x [n] matrices with [n] a power
    of two, [strassenMultiply] returns the product matrix, once the
    recursion may go as deep as the halvings from [n] down to 64 need. *)
Theorem strassenMultiply_product (fuel : nat) (A B : Matrix T) (n : Z) :
  shaped A n n -> shaped B n n -> is_pow2 n ->
  (0 < fuel)%nat -> n <= 64 * 2 ^ (Z.of_nat fuel - 1) ->
  exists C,
    run (strassenMultiply fuel A B) = Ok C tt /\
    shaped C n n /\
    forall i j, 0 <= i < n -> 0 <= j < n ->
      entry C i j =
      msum (Z.to_nat n) (fun k => Tmul (entry A i k) (entry B k j)).
Proof.
  intros (HwA & HrA & HcA) (HwB & HrB & HcB) Hp Hf Hn.
  pose proof (is_matrix_entry A HwA) as HA. rewrite HrA, HcA in HA.
  pose proof (is_matrix_entry B HwB) as HB. rewrite HrB, HcB in HB.
  destruct (strassenMultiply_returns Tone Topp Tring tt fuel A B n _ _
              HA HB Hp Hf Hn) as (C & HC & HwC & HrC & HcC & HeC).
  exists C. split; [exact HC|]. split; [|exact HeC].
  split; [exact HwC|]. split; assumption.
Qed.

End ExactOperators.

Lemma Matrix_add_sub_roundtrip_witness :
  exists C,
    run (Matrix_add A_2x2 B_2x2) = Ok C tt /\ run (Matrix_sub C B_2x2) = Ok A_2x2 tt.
Proof.
  refine (Matrix_add_sub_roundtrip (N := Numeric_Z) 1 Z.opp Zth A_2x2 B_2x2
            _ _ _ _).
  - unfold wf, INT_MAX. cbn. lia.
  - unfold wf, INT_MAX. cbn. lia.
  - reflexivity.
  - reflexivity.
Defined.

Lemma Matrix_mul_product_witness :
  exists C,
    run (Matrix_mul 16 ones_65 ones_65) = Ok C tt /\
    shaped C 65 65 /\
    forall i j, 0 <= i < 65 -> 0 <= j < 65 ->
      entry C i j =
      msum 65 (fun k => Tmul (entry ones_65 i k) (entry ones_65 k j)).
Proof.
  refine (Matrix_mul_product (N := Numeric_Z) 1 Z.opp Zth 16 ones_65 ones_65
            _ _ _ _ _).
  - unfold wf, INT_MAX. cbn [m_rows m_cols m_data ones_65].
    rewrite repeat_length. lia.
  - unfold wf, INT_MAX. cbn [m_rows m_cols m_data ones_65].
    rewrite repeat_length. lia.
  - reflexivity.
  - cbn. lia.
  - lia.
Defined.

Lemma strassenMultiply_product_witness :
  exists C,
    run (strassenMultiply 2 (mkMatrix 128 128 (repeat 1 (Z.to_nat 16384)))
           (mkMatrix 128 128 (repeat 1 (Z.to_nat 16384)))) = Ok C tt /\
    shaped C 128 128 /\
    forall i j, 0 <= i < 128 -> 0 <= j < 128 ->
      entry C i j =
      msum 128 (fun k =>
        Tmul (entry (mkMatrix 128 128 (repeat 1 (Z.to_nat 16384))) i k)
             (entry (mkMatrix 128 128 (repeat 1 (Z.to_nat 16384))) k j)).
Proof.
  assert (Hs : shaped (mkMatrix 128 128 (repeat 1 (Z.to_nat 16384))) 128 128).
  { unfold shaped, wf, INT_MAX. cbn [m_rows m_cols m_data].
    rewrite repeat_length. lia. }
  refine (strassenMultiply_product (N := Numeric_Z) 1 Z.opp Zth 2 _ _ 128
            Hs Hs _ _ _).
  - exists 7. split; [lia|reflexivity].
  - lia.
  - cbn. lia.
Defined.

(** ** The recursion on sizes that are not powers of two *)

Lemma quot_2_bounds (n : Z) :
  0 <= n -> 2 * Z.quot n 2 <= n <= 2 * Z.quot n 2 + 1.
Proof.
  intros Hn. rewrite Z.quot_div_nonneg by lia.
  pose proof (Z.div_mod n 2 ltac:(lia)).
  pose proof (Z.mod_pos_bound n 2 ltac:(lia)). lia.
Qed.

Section AnySize.
Context {T : Type} {N : Numeric T}.

(** On two [n] x [n] matrices, whatever [n], [strassenMultiply] returns an
    [n] x [n] matrix; above the threshold, what it assembles are four blocks
    of size [n / 2], and the elements outside them are those of the fresh
    [Matrix(n, n)]. *)
Lemma strassenMultiply_blocks {S} (s : S) (fuel : nat) :
  forall (A B : Matrix T) n fa fb,
  is_matrix A n n fa -> is_matrix B n n fb ->
  (0 < fuel)%nat -> n <= 64 * 2 ^ (Z.of_nat fuel - 1) ->
  returns (strassenMultiply fuel A B) s
    (fun R => exists f, is_matrix R n n f /\
       (64 < n -> forall r c, 0 <= r < n -> 0 <= c < n ->
          2 * Z.quot n 2 <= r \/ 2 * Z.quot n 2 <= c -> f r c = Tzero)).
Proof.
  induction fuel as [|fuel IH]; intros A B n fa fb HA HB Hf Hn; [lia|].
  pose proof (is_matrix_bounds _ _ _ _ HA) as (Hn0 & _ & Hnn).
  pose proof HA as (_ & HrA & _ & _).
  cbn [strassenMultiply]. cbn zeta. rewrite HrA.
  destruct (Z.leb_spec n 64) as [Hsmall|Hbig].
  { eapply returns_mono;
      [apply (matrixMultiply_returns s A B n n n fa fb HA HB Hnn)|].
    cbn beta. intros R HR. eexists. split; [exact HR|]. intros; lia. }
  pose proof (quot_2_bounds n ltac:(lia)) as Hq.
  set (h := Z.quot n 2) in *.
  assert (Hfuel : (0 < fuel)%nat).
  { destruct fuel; [|lia]. cbn in Hn. lia. }
  assert (Hhb : h <= 64 * 2 ^ (Z.of_nat fuel - 1)).
  { replace (Z.of_nat (Datatypes.S fuel) - 1) with (1 + (Z.of_nat fuel - 1)) in Hn
      by lia.
    rewrite Z.pow_add_r in Hn by lia. lia. }
  assert (Hh0 : 0 <= h) by lia.
  assert (Hsub : forall (X Y : Matrix T) fx fy,
            is_matrix X h h fx -> is_matrix Y h h fy ->
            returns (strassenMultiply fuel X Y) s
              (fun R => exists f, is_matrix R h h f)).
  { intros X Y fx fy HX HY. eapply returns_mono;
      [apply (IH X Y h fx fy HX HY Hfuel Hhb)|].
    cbn beta. intros R (f & HR & _). eauto. }
  eapply returns_bind;
    [apply (getSubMatrix_returns s A n n fa 0 0 h HA); lia|].
  cbn beta. intros A11 HA11.
  eapply returns_bind;
    [apply (getSubMatrix_returns s A n n fa 0 h h HA); lia|].
  cbn beta. intros A12 HA12.
  eapply returns_bind;
    [apply (getSubMatrix_returns s A n n fa h 0 h HA); lia|].
  cbn beta. intros A21 HA21.
  eapply returns_bind;
    [apply (getSubMatrix_returns s A n n fa h h h HA); lia|].
  cbn beta. intros A22 HA22.
  eapply returns_bind;
    [apply (getSubMatrix_returns s B n n fb 0 0 h HB); lia|].
  cbn beta. intros B11 HB11.
  eapply returns_bind;
    [apply (getSubMatrix_returns s B n n fb 0 h h HB); lia|].
  cbn beta. intros B12 HB12.
  eapply returns_bind;
    [apply (getSubMatrix_returns s B n n fb h 0 h HB); lia|].
  cbn beta. intros B21 HB21.
  eapply returns_bind;
    [apply (getSubMatrix_returns s B n n fb h h h HB); lia|].
  cbn beta. intros B22 HB22.
  eapply returns_bind; [apply (Matrix_add_returns s _ _ _ _ _ _ HA11 HA22)|].
  cbn beta. intros a1 Ha1.
  eapply returns_bind; [apply (Matrix_add_returns s _ _ _ _ _ _ HB11 HB22)|].
  cbn beta. intros b1 Hb1.
  eapply returns_bind; [apply (Hsub _ _ _ _ Ha1 Hb1)|].
  cbn beta. intros M1 (f1 & HM1).
  eapply returns_bind; [apply (Matrix_add_returns s _ _ _ _ _ _ HA21 HA22)|].
  cbn beta. intros a2 Ha2.
  eapply returns_bind; [apply (Hsub _ _ _ _ Ha2 HB11)|].
  cbn beta. intros M2 (f2 & HM2).
  eapply returns_bind; [apply (Matrix_sub_returns s _ _ _ _ _ _ HB12 HB22)|].
  cbn beta. intros b3 Hb3.
  eapply returns_bind; [apply (Hsub _ _ _ _ HA11 Hb3)|].
  cbn beta. intros M3 (f3 & HM3).
  eapply returns_bind; [apply (Matrix_sub_returns s _ _ _ _ _ _ HB21 HB11)|].
  cbn beta. intros b4 Hb4.
  eapply returns_bind; [apply (Hsub _ _ _ _ HA22 Hb4)|].
  cbn beta. intros M4 (f4 & HM4).
  eapply returns_bind; [apply (Matrix_add_returns s _ _ _ _ _ _ HA11 HA12)|].
  cbn beta. intros a5 Ha5.
  eapply returns_bind; [apply (Hsub _ _ _ _ Ha5 HB22)|].
  cbn beta. intros M5 (f5 & HM5).
  eapply returns_bind; [apply (Matrix_sub_returns s _ _ _ _ _ _ HA21 HA11)|].
  cbn beta. intros a6 Ha6.
  eapply returns_bind; [apply (Matrix_add_returns s _ _ _ _ _ _ HB11 HB12)|].
  cbn beta. intros b6 Hb6.
  eapply returns_bind; [apply (Hsub _ _ _ _ Ha6 Hb6)|].
  cbn beta. intros M6 (f6 & HM6).
  eapply returns_bind; [apply (Matrix_sub_returns s _ _ _ _ _ _ HA12 HA22)|].
  cbn beta. intros a7 Ha7.
  eapply returns_bind; [apply (Matrix_add_returns s _ _ _ _ _ _ HB21 HB22)|].
  cbn beta. intros b7 Hb7.
  eapply returns_bind; [apply (Hsub _ _ _ _ Ha7 Hb7)|].
  cbn beta. intros M7 (f7 & HM7).
  eapply returns_bind; [apply (Matrix_add_returns s _ _ _ _ _ _ HM1 HM4)|].
  cbn beta. intros c1 Hc1.
  eapply returns_bind; [apply (Matrix_sub_returns s _ _ _ _ _ _ Hc1 HM5)|].
  cbn beta. intros c2 Hc2.
  eapply returns_bind; [apply (Matrix_add_returns s _ _ _ _ _ _ Hc2 HM7)|].
  cbn beta. intros C11 HC11.
  eapply returns_bind; [apply (Matrix_add_returns s _ _ _ _ _ _ HM3 HM5)|].
  cbn beta. intros C12 HC12.
  eapply returns_bind; [apply (Matrix_add_returns s _ _ _ _ _ _ HM2 HM4)|].
  cbn beta. intros C21 HC21.
  eapply returns_bind; [apply (Matrix_sub_returns s _ _ _ _ _ _ HM1 HM2)|].
  cbn beta. intros d1 Hd1.
  eapply returns_bind; [apply (Matrix_add_returns s _ _ _ _ _ _ Hd1 HM3)|].
  cbn beta. intros d2 Hd2.
  eapply returns_bind; [apply (Matrix_add_returns s _ _ _ _ _ _ Hd2 HM6)|].
  cbn beta. intros C22 HC22.
  eapply returns_bind; [apply (Matrix_new_returns s n n); lia|].
  cbn beta. intros C0 HC0.
  eapply returns_bind;
    [apply (setSubMatrix_returns s _ _ _ _ _ _ _ 0 0 HC0 HC11); lia|].
  cbn beta. intros C1 HC1.
  eapply returns_bind;
    [apply (setSubMatrix_returns s _ _ _ _ _ _ _ 0 h HC1 HC12); lia|].
  cbn beta. intros C2 HC2.
  eapply returns_bind;
    [apply (setSubMatrix_returns s _ _ _ _ _ _ _ h 0 HC2 HC21); lia|].
  cbn beta. intros C3 HC3.
  eapply returns_bind;
    [apply (setSubMatrix_returns s _ _ _ _ _ _ _ h h HC3 HC22); lia|].
  cbn beta. intros C4 HC4.
  apply returns_ret. eexists. split; [exact HC4|].
  intros _ r c Hr Hc Hout. cbn beta.
  destruct Hout as [Hout|Hout]; zbool.
Qed.

End AnySize.

(** X11: on two [n] x [n] matrices with [n] odd and above the threshold of
    64, [strassenMultiply] returns an [n] x [n] matrix whose last row and
    last column are zero: the four blocks of size [n / 2] it assembles do
    not reach them.  The recursion is the product only on sizes that halve
    evenly, which is why [operator*] pads to a power of two first. *)
Theorem strassenMultiply_odd_size {T} {N : Numeric T} (fuel : nat)
  (A B : Matrix T) (n : Z) :
  shaped A n n -> shaped B n n -> 64 < n -> Z.odd n = true ->
  n <= 64 * 2 ^ (Z.of_nat fuel - 1) ->
  exists C,
    run (strassenMultiply fuel A B) = Ok C tt /\
    shaped C n n /\
    forall k, 0 <= k < n ->
      entry C (n - 1) k = Tzero /\ entry C k (n - 1) = Tzero.
Proof.
  intros (HwA & HrA & HcA) (HwB & HrB & HcB) Hbig Hodd Hn.
  pose proof (is_matrix_entry A HwA) as HA. rewrite HrA, HcA in HA.
  pose proof (is_matrix_entry B HwB) as HB. rewrite HrB, HcB in HB.
  assert (Hfuel : (0 < fuel)%nat).
  { destruct fuel; [|lia]. cbn in Hn. lia. }
  destruct (strassenMultiply_blocks tt fuel A B n _ _ HA HB Hfuel Hn)
    as (C & HC & f & HCm & Hzero).
  exists C. split; [exact HC|].
  pose proof HCm as (HwC & HrC & HcC & HeC).
  split; [split; [exact HwC|split; assumption]|].
  apply Z.odd_spec in Hodd. destruct Hodd as (m & Hm).
  pose proof (quot_2_bounds n ltac:(lia)) as Hq.
  intros k Hk. split.
  - rewrite HeC by lia. apply (Hzero Hbig); lia.
  - rewrite HeC by lia. apply (Hzero Hbig); lia.
Qed.

Lemma strassenMultiply_odd_size_witness :
  exists C,
    run (strassenMultiply 2 ones_65 ones_65) = Ok C tt /\
    shaped C 65 65 /\
    forall k, 0 <= k < 65 -> entry C (65 - 1) k = 0 /\ entry C k (65 - 1) = 0.
Proof.
  assert (Hs : shaped ones_65 65 65).
  { unfold shaped, wf, INT_MAX. cbn [m_rows m_cols m_data ones_65].
    rewrite repeat_length. lia. }
  refine (strassenMultiply_odd_size (N := Numeric_Z) 2 ones_65 ones_65 65
            Hs Hs _ _ _).
  - lia.
  - reflexivity.
  - cbn. lia.
Defined.

(** ** Helper.hpp: check *)

Lemma for_return_count_scan {S R} (body : Z -> prog S (option R))
  (p : Z -> bool) (v : R) (s s' : S) :
  forall (n l : nat),
  (forall i, Z.of_nat l <= i < Z.of_nat l + Z.of_nat n ->
     body i s = if p i then Ok (Some v) s' else Ok None s) ->
  for_return_count n (Z.of_nat l) body s =
  if existsb p (map Z.of_nat (seq l n)) then Ok (Some v) s' else Ok None s.
Proof.
  induction n as [|n IH]; intros l Hb; [reflexivity|].
  cbn [for_return_count seq map existsb]. unfold bind.
  rewrite Hb by lia.
  destruct (p (Z.of_nat l)); cbn [orb]; [reflexivity|].
  replace (Z.of_nat l + 1) with (Z.of_nat (Datatypes.S l)) by lia.
  apply IH. intros i Hi. apply Hb. lia.
Qed.

(** A loop that returns [v] at the first index that satisfies [p], and
    falls through when there is none. *)
Lemma for_return_scan {S R} (body : Z -> prog S (option R))
  (p : Z -> bool) (v : R) (s s' : S) (n : Z) :
  (forall i, 0 <= i < n ->
     body i s = if p i then Ok (Some v) s' else Ok None s) ->
  for_return 0 n body s =
  if existsb p (steps n) then Ok (Some v) s' else Ok None s.
Proof.
  intros Hb. unfold for_return, steps. rewrite Z.sub_0_r.
  apply (for_return_count_scan body p v s s' (Z.to_nat n) 0).
  intros i Hi. apply Hb. lia.
Qed.

Lemma existsb_steps_false (p : Z -> bool) (n : Z) :
  existsb p (steps n) = false <-> forall i, 0 <= i < n -> p i = false.
Proof.
  split.
  - intros H i Hi. destruct (p i) eqn:E; [|reflexivity].
    assert (Hex : existsb p (steps n) = true).
    { apply existsb_exists. exists i. split; [apply In_steps; exact Hi|exact E]. }
    congruence.
  - intros H. destruct (existsb p (steps n)) eqn:E; [|reflexivity].
    apply existsb_exists in E. destruct E as (i & Hi & Hp).
    apply In_steps in Hi. rewrite (H i Hi) in Hp. discriminate.
Qed.

Section CheckFacts.
Context {T : Type} {N : Numeric T} {C : Comparable T}.

(** The comparison loop of [check], on a product [P] and an expected matrix
    [B] that has the columns of [P] and at least its rows. *)
Lemma check_scan (P B : Matrix T) n m n' fp fb (out : string) :
  is_matrix P n m fp -> is_matrix B n' m fb -> n <= n' ->
  (r <- for_return 0 (m_rows P) (fun i =>
          for_return 0 (m_cols P) (fun j =>
            a <- Matrix_at P i j ;;
            b <- Matrix_at B i j ;;
            if Tneq a b
            then cout_line failed_msg ;; ret (Some false)
            else ret None)) ;;
   match r with
   | Some v => ret v
   | None => cout_line successful_msg ;; ret true
   end) out =
  let bad := existsb (fun i => existsb (fun j => Tneq (fp i j) (fb i j)) (steps m))
               (steps n) in
  Ok (negb bad)
     (out ++ (if negb bad then successful_msg else failed_msg) ++ endl)%string.
Proof.
  intros HP HB Hnn. pose proof HP as (_ & HrP & HcP & _).
  rewrite HrP, HcP. cbn zeta.
  assert (Hscan :
    for_return 0 n (fun i =>
      for_return 0 m (fun j =>
        a <- Matrix_at P i j ;;
        b <- Matrix_at B i j ;;
        if Tneq a b
        then cout_line failed_msg ;; ret (Some false)
        else ret None)) out =
    if existsb (fun i => existsb (fun j => Tneq (fp i j) (fb i j)) (steps m))
         (steps n)
    then Ok (Some false) (out ++ failed_msg ++ endl)%string
    else Ok None out).
  { apply for_return_scan. intros i Hi.
    apply for_return_scan. intros j Hj. unfold bind.
    rewrite (Matrix_at_is out P n m fp) by assumption.
    rewrite (Matrix_at_is out B n' m fb) by (assumption || lia).
    destruct (Tneq (fp i j) (fb i j)); reflexivity. }
  unfold bind at 1. rewrite Hscan.
  destruct (existsb _ (steps n)); reflexivity.
Qed.

End CheckFacts.

(** X12: when the product [A * X] returns a matrix [P], and [B] is a
    well-formed matrix with the columns of [P] and at least its rows,
    [check(A, X, B)] writes exactly one line to [std::cout] and returns
    [true] exactly when no element of [P] compares [!=] to the element of
    [B] at the same position; the line is the success message then, and the
    failure message otherwise.  Rows of [B] beyond those of [P] are not
    compared. *)
Theorem check_verdict {T} {N : Numeric T} {C : Comparable T} (fuel : nat)
  (A X B P : Matrix T) (out : string) :
  Matrix_mul fuel A X out = Ok P out ->
  wf P -> wf B -> m_cols B = m_cols P -> m_rows P <= m_rows B ->
  exists v : bool,
    check fuel A X B out =
    Ok v (out ++ (if v then successful_msg else failed_msg) ++ endl)%string /\
    (v = true <->
     forall i j, 0 <= i < m_rows P -> 0 <= j < m_cols P ->
                 Tneq (entry P i j) (entry B i j) = false).
Proof.
  intros Hmul HwP HwB Hc Hr.
  pose proof (is_matrix_entry P HwP) as HP.
  pose proof (is_matrix_entry B HwB) as HB. rewrite Hc in HB.
  eexists. split.
  - unfold check. rewrite (bind_Ok _ _ _ _ _ Hmul).
    apply (check_scan P B _ _ _ _ _ out HP HB Hr).
  - cbn zeta. rewrite negb_true_iff, existsb_steps_false. split.
    + intros H i j Hi Hj. specialize (H i Hi).
      rewrite existsb_steps_false in H. apply H. exact Hj.
    + intros H i Hi. apply existsb_steps_false. intros j Hj. apply H; assumption.
Qed.

Lemma check_verdict_witness :
  exists v : bool,
    check 16 A_2x2 B_2x2 (mkMatrix 2 2 [19; 22; 43; 50]) EmptyString =
    Ok v (EmptyString ++ (if v then successful_msg else failed_msg) ++ endl)%string /\
    (v = true <->
     forall i j, 0 <= i < 2 -> 0 <= j < 2 ->
       Tneq (entry (mkMatrix 2 2 [19; 22; 43; 50]) i j)
            (entry (mkMatrix 2 2 [19; 22; 43; 50]) i j) = false).
Proof.
  refine (check_verdict (N := Numeric_Z) (C := Comparable_Z) 16 A_2x2 B_2x2
            (mkMatrix 2 2 [19; 22; 43; 50]) (mkMatrix 2 2 [19; 22; 43; 50])
            EmptyString _ _ _ _ _).
  - vm_compute. reflexivity.
  - unfold wf, INT_MAX. cbn. lia.
  - unfold wf, INT_MAX. cbn. lia.
  - reflexivity.
  - cbn. lia.
Defined.

(** The worked product of the specification passes the check, and a wrong
    expected matrix fails it. *)
Example check_2x2 :
  check 16 A_2x2 B_2x2 (mkMatrix 2 2 [19; 22; 43; 50]) EmptyString =
  Ok true (successful_msg ++ endl)%string /\
  check 16 A_2x2 B_2x2 (mkMatrix 2 2 [19; 22; 43; 51]) EmptyString =
  Ok false (failed_msg ++ endl)%string.
Proof. split; vm_compute; reflexivity. Qed.

(** ** Matrices built from vectors *)

Lemma to_int_small (x : Z) : 0 <= x <= INT_MAX -> to_int x = x.
Proof.
  intros H. unfold to_int, INT_MAX in *. rewrite Z.mod_small; lia.
Qed.

Section VectorFacts.
Context {T : Type} {N : Numeric T}.

Lemma Matrix_from_vector_column (v : list T) :
  Z.of_nat (List.length v) <= INT_MAX ->
  is_matrix (Matrix_from_vector v true) (Z.of_nat (List.length v)) 1
    (fun i _ => nth (Z.to_nat i) v Tzero).
Proof.
  intros H. unfold Matrix_from_vector. cbn zeta.
  rewrite to_int_small by lia.
  split; [|split; [reflexivity|split; [reflexivity|]]].
  - unfold wf, INT_MAX in *. cbn. lia.
  - intros r c Hr Hc. unfold entry. cbn [m_cols m_data].
    replace (r * 1 + c) with r by lia. reflexivity.
Qed.

End VectorFacts.

Section ExactCheck.
Context {T : Type} {N : Numeric T} {C : Comparable T}.
Variables (Tone : T) (Topp : T -> T).
Hypothesis Tring : ring_theory Tzero Tone Tadd Tmul Tsub Topp (@eq T).

(** X13: the verification step of the demo program.  Over exact
    arithmetic, for a well-formed matrix [A] of dimensions at most 32768, a
    vector [x] of [A.cols] elements and a vector [b] of [A.rows] elements,
    [check(A, Matrix(x), Matrix(b))] on the two column matrices returns
    [true] exactly when every row of [A] times [x] does not compare [!=] to
    the element of [b] of that row, and writes the one line that says so. *)
Theorem check_solution (fuel : nat) (A : Matrix T) (x b : list T)
  (out : string) :
  wf A ->
  Z.of_nat (List.length x) = m_cols A -> Z.of_nat (List.length b) = m_rows A ->
  Z.max (m_rows A) (m_cols A) <= 32768 -> (16 <= fuel)%nat ->
  exists v : bool,
    check fuel A (Matrix_from_vector x true) (Matrix_from_vector b true) out =
    Ok v (out ++ (if v then successful_msg else failed_msg) ++ endl)%string /\
    (v = true <->
     forall i, 0 <= i < m_rows A ->
       Tneq (mat_vec (m_cols A) (entry A) x i) (nth (Z.to_nat i) b Tzero)
       = false).
Proof.
  intros HwA Hx Hb Hmax Hfuel.
  pose proof (is_matrix_entry A HwA) as HA.
  pose proof (is_matrix_bounds _ _ _ _ HA) as (Hn & HK & _).
  pose proof (Matrix_from_vector_column x ltac:(lia)) as HX. rewrite Hx in HX.
  pose proof (Matrix_from_vector_column b ltac:(lia)) as HB. rewrite Hb in HB.
  destruct (Matrix_mul_returns Tone Topp Tring out fuel A
              (Matrix_from_vector x true) _ _ _ _ _ HA HX
              ltac:(unfold max4; lia) Hfuel) as (P & HP & HPm).
  eexists. split.
  - unfold check. rewrite (bind_Ok _ _ _ _ _ HP).
    apply (check_scan P (Matrix_from_vector b true) _ _ _ _ _ out HPm HB).
    lia.
  - cbn zeta. rewrite negb_true_iff, existsb_steps_false. split.
    + intros H i Hi. specialize (H i Hi).
      rewrite existsb_steps_false in H. apply (H 0). lia.
    + intros H i Hi. apply existsb_steps_false. intros j Hj.
      assert (j = 0) by lia. subst j. apply H. exact Hi.
Qed.

End ExactCheck.

Lemma check_solution_witness :
  exists v : bool,
    check 16 A_2x2 (Matrix_from_vector [1; 1] true)
      (Matrix_from_vector [3; 7] true) EmptyString =
    Ok v (EmptyString ++ (if v then successful_msg else failed_msg) ++ endl)%string /\
    (v = true <->
     forall i, 0 <= i < 2 ->
       Tneq (mat_vec 2 (entry A_2x2) [1; 1] i) (nth (Z.to_nat i) [3; 7] 0)
       = false).
Proof.
  refine (check_solution (N := Numeric_Z) (C := Comparable_Z) 1 Z.opp Zth
            16 A_2x2 [1; 1] [3; 7] EmptyString _ _ _ _ _).
  - unfold wf, INT_MAX. cbn. lia.
  - reflexivity.
  - reflexivity.
  - cbn. lia.
  - lia.
Defined.

(** ** nextPowerOfTwo: the size of the padding *)

(** X14: for [1 <= n <= 2^63], [nextPowerOfTwo(n)] returns a value [p] with
    [n <= p < 2 n] (padding less than doubles a dimension), and
    [nextPowerOfTwo(p)] is [p] again. *)
Theorem nextPowerOfTwo_bounds (n : Z) (fuel : nat) :
  1 <= n <= 2 ^ 63 -> (Z.to_nat (Z.log2_up n) < fuel)%nat ->
  exists p,
    run (nextPowerOfTwo fuel n) = Ok p tt /\
    n <= p < 2 * n /\
    run (nextPowerOfTwo fuel p) = Ok p tt.
Proof.
  intros Hn Hf. exists (next_pow2 n).
  destruct (next_pow2_spec n ltac:(lia)) as (Hp & Hle & _).
  assert (Hlt : next_pow2 n < 2 * n).
  { unfold next_pow2. replace (n =? 0) with false
      by (symmetry; apply Z.eqb_neq; lia).
    destruct (Z.eq_dec n 1) as [->|Hn1]; [cbn; lia|].
    pose proof (Z.log2_up_spec n ltac:(lia)) as [Hlo _].
    pose proof (Z.log2_up_pos n ltac:(lia)) as Hpos.
    replace (Z.log2_up n) with (Z.succ (Z.pred (Z.log2_up n))) at 1 by lia.
    rewrite Z.pow_succ_r by lia. lia. }
  split; [apply nextPowerOfTwo_returns; [lia|exact Hf]|].
  split; [lia|].
  apply nextPowerOfTwo_pow2; [exact Hp|].
  apply Z.lt_le_trans with (2 * 2 ^ 63); [lia|discriminate].
Qed.

Lemma nextPowerOfTwo_bounds_witness :
  exists p,
    run (nextPowerOfTwo 4 5) = Ok p tt /\ 5 <= p < 2 * 5 /\
    run (nextPowerOfTwo 4 p) = Ok p tt.
Proof.
  apply (nextPowerOfTwo_bounds 5 4).
  - lia.
  - cbn. lia.
Defined.

Lemma not_pow2_above_2_63 (n : Z) : 2 ^ 63 < n < 2 ^ 64 -> ~ is_pow2 n.
Proof.
  intros Hn (k & Hk & H).
  destruct (Z.le_gt_cases k 63) as [Hle|Hgt].
  - assert (2 ^ k <= 2 ^ 63) by (apply Z.pow_le_mono_r; lia). lia.
  - assert (2 ^ 64 <= 2 ^ k) by (apply Z.pow_le_mono_r; lia). lia.
Qed.

(** X15: for every [n] above [2^63], [nextPowerOfTwo(n)] never returns: no
    power of two of [size_t] reaches [n], the doubling wraps to zero, and
    the loop [while (power < n)] has no exit. *)
Theorem nextPowerOfTwo_above_2_63 (n : Z) :
  2 ^ 63 < n < 2 ^ 64 ->
  never_returns (fun fuel => nextPowerOfTwo fuel n).
Proof.
  intros Hn fuel. apply nextPowerOfTwo_diverges; [lia| |lia].
  apply not_pow2_above_2_63. exact Hn.
Qed.

Lemma nextPowerOfTwo_above_2_63_witness :
  never_returns (fun fuel => nextPowerOfTwo fuel (2 ^ 64 - 1)).
Proof.
  apply (nextPowerOfTwo_above_2_63 (2 ^ 64 - 1)). lia.
Defined.

(** ** The solver over exact arithmetic *)

Section Sums.
Context {T : Type} {N : Numeric T}.

(** A loop that adds [g lo], ..., [g (hi - 1)] to zero, in that order. *)
Lemma for_fold_msum {S} (s : S) lo hi (body : Z -> T -> prog S T)
  (g : Z -> T) :
  lo <= hi ->
  (forall j sum, lo <= j < hi -> body j sum s = Ok (Tadd sum (g j)) s) ->
  for_fold lo hi body Tzero s =
  Ok (msum (Z.to_nat (hi - lo)) (fun k => g (lo + k))) s.
Proof.
  intros Hle Hb.
  destruct (returns_for_fold lo hi body
              (fun j sum => sum = msum (Z.to_nat (j - lo)) (fun k => g (lo + k)))
              Tzero s Hle) as (a & Ha & ->).
  - rewrite Z.sub_diag. reflexivity.
  - intros j sum Hj ->. eexists. split; [apply Hb; exact Hj|].
    replace (j + 1 - lo) with (j - lo + 1) by lia.
    rewrite msum_succ by lia. f_equal. f_equal. lia.
  - exact Ha.
Qed.

End Sums.

Section SolveValues.
Context {T : Type} {N : Numeric T} {F : Floating T}.
Variables (r : LUResult T) (n : Z) (f : Z -> Z -> T).
Hypothesis HLU : is_matrix (LU r) n n f.
Hypothesis HP : Permutation (P r) (steps n).

Lemma permute_rhs_value {S} (s : S) (b : list T) :
  Z.of_nat (List.length b) = n ->
  returns (permute_rhs r b) s
    (fun pb => Z.of_nat (List.length pb) = n /\
       forall i, 0 <= i < n ->
         nth (Z.to_nat i) pb Tzero =
         nth (Z.to_nat (nth (Z.to_nat i) (P r) 0)) b Tzero).
Proof.
  intros Hb. destruct (solve_dim r n f HLU) as (Hr & Hn).
  assert (Hlen : Z.of_nat (List.length (P r)) = n).
  { rewrite (Permutation_length HP). apply length_steps. exact Hn. }
  unfold permute_rhs. cbn zeta. rewrite Hr.
  eapply returns_bind; [apply returns_vec_new; exact Hn|].
  cbn beta. intros pb0 Hpb0.
  apply (returns_for_fold 0 n _
           (fun i pb => Z.of_nat (List.length pb) = n /\
              forall k, 0 <= k < i ->
                nth (Z.to_nat k) pb Tzero =
                nth (Z.to_nat (nth (Z.to_nat k) (P r) 0)) b Tzero));
    [exact Hn|split; [exact Hpb0|intros; lia]|].
  intros i pb Hi (Hpb & Hval).
  pose proof (P_entry_range r n f HLU HP i Hi) as Hp.
  unfold returns.
  rewrite (bind_Ok _ _ _ _ _ (vec_at_ok s (P r) i 0 ltac:(lia))).
  rewrite (bind_Ok _ _ _ _ _
             (vec_at_ok s b (nth (Z.to_nat i) (P r) 0) Tzero ltac:(lia))).
  rewrite vec_set_ok by lia.
  eexists. split; [reflexivity|].
  split; [rewrite length_list_upd; exact Hpb|].
  intros k Hk. destruct (Z.eq_dec k i) as [->|Hne].
  - apply nth_list_upd_eq. lia.
  - rewrite nth_list_upd_neq by lia. apply Hval. lia.
Qed.

Lemma forward_substitution_value {S} (s : S) (pb : list T) :
  Z.of_nat (List.length pb) = n ->
  returns (forward_substitution r pb) s
    (fun y => Z.of_nat (List.length y) = n /\
       forall i, 0 <= i < n ->
         nth (Z.to_nat i) y Tzero =
         Tsub (nth (Z.to_nat i) pb Tzero)
              (msum (Z.to_nat i)
                 (fun j => Tmul (f i j) (nth (Z.to_nat j) y Tzero)))).
Proof.
  intros Hpb. destruct (solve_dim r n f HLU) as (Hr & Hn).
  unfold forward_substitution. cbn zeta. rewrite Hr.
  eapply returns_bind; [apply returns_vec_new; exact Hn|].
  cbn beta. intros y0 Hy0.
  apply (returns_for_fold 0 n _
           (fun i y => Z.of_nat (List.length y) = n /\
              forall k, 0 <= k < i ->
                nth (Z.to_nat k) y Tzero =
                Tsub (nth (Z.to_nat k) pb Tzero)
                     (msum (Z.to_nat k)
                        (fun j => Tmul (f k j) (nth (Z.to_nat j) y Tzero)))));
    [exact Hn|split; [exact Hy0|intros; lia]|].
  intros i y Hi (Hy & Hval).
  assert (Hsum :
    for_fold 0 i (fun j sum =>
      l <- Matrix_at (LU r) i j ;;
      yj <- vec_at y j ;;
      ret (Tadd sum (Tmul l yj))) Tzero s =
    Ok (msum (Z.to_nat i)
          (fun j => Tmul (f i j) (nth (Z.to_nat j) y Tzero))) s).
  { rewrite (for_fold_msum s 0 i _
               (fun j => Tmul (f i j) (nth (Z.to_nat j) y Tzero))); [|lia|].
    - rewrite Z.sub_0_r. reflexivity.
    - intros j sum Hj. unfold bind.
      rewrite (Matrix_at_is s (LU r) n n f) by (assumption || lia).
      rewrite (vec_at_ok s y j Tzero) by lia. reflexivity. }
  unfold returns. rewrite (bind_Ok _ _ _ _ _ Hsum).
  rewrite (bind_Ok _ _ _ _ _ (vec_at_ok s pb i Tzero ltac:(lia))).
  rewrite vec_set_ok by lia.
  eexists. split; [reflexivity|].
  split; [rewrite length_list_upd; exact Hy|].
  intros k Hk. destruct (Z.eq_dec k i) as [->|Hne].
  - rewrite nth_list_upd_eq by lia. f_equal.
    apply msum_ext. intros j Hj. f_equal.
    rewrite nth_list_upd_neq by lia. reflexivity.
  - rewrite nth_list_upd_neq by lia. rewrite Hval by lia. f_equal.
    apply msum_ext. intros j Hj. f_equal.
    rewrite nth_list_upd_neq by lia. reflexivity.
Qed.

Lemma backward_substitution_value {S} (s : S) (y : list T) :
  Z.of_nat (List.length y) = n ->
  returns (backward_substitution (fun a d => ret (Tdiv a d)) r y) s
    (fun x => Z.of_nat (List.length x) = n /\
       forall i, 0 <= i < n ->
         nth (Z.to_nat i) x Tzero =
         Tdiv (Tsub (nth (Z.to_nat i) y Tzero)
                 (msum (Z.to_nat (n - (i + 1)))
                    (fun k => Tmul (f i (i + 1 + k))
                                (nth (Z.to_nat (i + 1 + k)) x Tzero))))
              (f i i)).
Proof.
  intros Hy. destruct (solve_dim r n f HLU) as (Hr & Hn).
  assert (Hd : divides_on_diagonal n f s (fun a d => ret (Tdiv a d)))
    by (intros a i Hi; reflexivity).
  unfold backward_substitution. cbn zeta. rewrite Hr.
  eapply returns_bind; [apply returns_vec_new; exact Hn|].
  cbn beta. intros x0 Hx0.
  eapply returns_mono.
  - apply (returns_for_down (n - 1) _
             (fun i x => Z.of_nat (List.length x) = n /\
                forall k, i < k < n ->
                  nth (Z.to_nat k) x Tzero =
                  Tdiv (Tsub (nth (Z.to_nat k) y Tzero)
                          (msum (Z.to_nat (n - (k + 1)))
                             (fun j => Tmul (f k (k + 1 + j))
                                         (nth (Z.to_nat (k + 1 + j)) x Tzero))))
                       (f k k)));
      [lia|split; [exact Hx0|intros; lia]|].
    intros i x Hi (Hx & Hval).
    destruct (backward_row_value r n f HLU s _ y x i Hd Hy Hx ltac:(lia))
      as (sum & Hsum & Hrow).
    rewrite (for_fold_msum s (i + 1) n _
               (fun j => Tmul (f i j) (nth (Z.to_nat j) x Tzero))) in Hsum;
      [|lia|].
    2:{ intros j sum0 Hj. unfold bind.
        rewrite (Matrix_at_is s (LU r) n n f) by (assumption || lia).
        rewrite (vec_at_ok s x j Tzero) by lia. reflexivity. }
    injection Hsum as <-.
    eexists. split; [exact Hrow|].
    split; [rewrite length_list_upd; exact Hx|].
    intros k Hk. destruct (Z.eq_dec k i) as [->|Hne].
    + rewrite nth_list_upd_eq by lia. f_equal. f_equal.
      apply msum_ext. intros j Hj. f_equal.
      rewrite nth_list_upd_neq by lia. reflexivity.
    + rewrite nth_list_upd_neq by lia. rewrite Hval by lia. f_equal. f_equal.
      apply msum_ext. intros j Hj. f_equal.
      rewrite nth_list_upd_neq by lia. reflexivity.
  - cbn beta. intros x (H1 & H2). split; [exact H1|].
    intros i Hi. apply H2. lia.
Qed.

(** What [solve] computes: the recurrences of the two substitutions, on the
    permuted right-hand side. *)
Lemma solve_recurrences {S} (s : S) (b : list T) :
  Z.of_nat (List.length b) = n ->
  exists y x,
    solve r b s = Ok x s /\
    Z.of_nat (List.length y) = n /\ Z.of_nat (List.length x) = n /\
    (forall i, 0 <= i < n ->
       nth (Z.to_nat i) y Tzero =
       Tsub (nth (Z.to_nat (nth (Z.to_nat i) (P r) 0)) b Tzero)
            (msum (Z.to_nat i)
               (fun j => Tmul (f i j) (nth (Z.to_nat j) y Tzero)))) /\
    (forall i, 0 <= i < n ->
       nth (Z.to_nat i) x Tzero =
       Tdiv (Tsub (nth (Z.to_nat i) y Tzero)
               (msum (Z.to_nat (n - (i + 1)))
                  (fun k => Tmul (f i (i + 1 + k))
                              (nth (Z.to_nat (i + 1 + k)) x Tzero))))
            (f i i)).
Proof.
  intros Hb.
  destruct (permute_rhs_value s b Hb) as (pb & Hpb & Hlpb & Hvpb).
  destruct (forward_substitution_value s pb Hlpb) as (y & Hy & Hly & Hvy).
  destruct (backward_substitution_value s y Hly) as (x & Hx & Hlx & Hvx).
  exists y, x. split; [|split; [exact Hly|split; [exact Hlx|split]]].
  - unfold solve, solve_with, bind. rewrite Hpb, Hy. exact Hx.
  - intros i Hi. rewrite Hvy by exact Hi. rewrite Hvpb by exact Hi. reflexivity.
  - exact Hvx.
Qed.

End SolveValues.

Section ExactSolver.
Context {T : Type} {N : Numeric T} {F : Floating T}.
Variables (Tone : T) (Topp : T -> T).
Hypothesis Tring : ring_theory Tzero Tone Tadd Tmul Tsub Topp (@eq T).
Hypothesis Tdiv_mul : forall a d, d <> Tzero -> Tmul (Tdiv a d) d = a.

Add Ring T_ring_solver : Tring.

Lemma msum_add (n : nat) (f g : Z -> T) :
  msum n (fun k => Tadd (f k) (g k)) = Tadd (msum n f) (msum n g).
Proof.
  induction n as [|n IH]; cbn [msum]; [ring|]. rewrite IH. ring.
Qed.

Lemma msum_mul_l (n : nat) (c : T) (f : Z -> T) :
  msum n (fun k => Tmul c (f k)) = Tmul c (msum n f).
Proof.
  induction n as [|n IH]; cbn [msum]; [ring|]. rewrite IH. ring.
Qed.

Lemma msum_mul_r (n : nat) (c : T) (f : Z -> T) :
  msum n (fun k => Tmul (f k) c) = Tmul (msum n f) c.
Proof.
  induction n as [|n IH]; cbn [msum]; [ring|]. rewrite IH. ring.
Qed.

Lemma msum_swap (n m : nat) (f : Z -> Z -> T) :
  msum n (fun i => msum m (fun j => f i j)) =
  msum m (fun j => msum n (fun i => f i j)).
Proof.
  induction n as [|n IH]; cbn [msum].
  - symmetry. apply (msum_zero Tone Topp Tring). reflexivity.
  - rewrite IH. rewrite <- msum_add. reflexivity.
Qed.

Lemma msum_peel (n : nat) (f : Z -> T) :
  msum (Datatypes.S n) f = Tadd (f 0) (msum n (fun k => f (1 + k))).
Proof.
  change (Datatypes.S n) with (1 + n)%nat.
  rewrite (msum_split Tone Topp Tring). cbn [msum]. cbn [Z.of_nat].
  change (Z.pos (Pos.of_succ_nat 0)) with 1. ring.
Qed.

(** The sum of a row of the upper triangle against a vector. *)
Lemma upper_row_sum (n : Z) (g : Z -> Z -> T) (xs : Z -> T) (k : Z) :
  0 <= k < n ->
  msum (Z.to_nat n)
    (fun j => Tmul (if k <=? j then g k j else Tzero) (xs j)) =
  Tadd (Tmul (g k k) (xs k))
       (msum (Z.to_nat (n - (k + 1)))
          (fun j => Tmul (g k (k + 1 + j)) (xs (k + 1 + j)))).
Proof.
  intros Hk.
  replace (Z.to_nat n)
    with (Z.to_nat k + Datatypes.S (Z.to_nat (n - (k + 1))))%nat by lia.
  rewrite (msum_split Tone Topp Tring).
  rewrite (msum_zero Tone Topp Tring (Z.to_nat k)).
  2:{ intros j Hj. zdecide. ring. }
  rewrite msum_peel. rewrite Z2Nat.id by lia.
  replace (k + 0) with k by lia. rewrite Z.leb_refl.
  rewrite (msum_ext _ _ (fun j => Tmul (g k (k + 1 + j)) (xs (k + 1 + j)))).
  - ring.
  - intros j Hj. cbn beta. zdecide.
    replace (k + (1 + j)) with (k + 1 + j) by lia. reflexivity.
Qed.

(** The sum of a row of the unit lower triangle against a vector. *)
Lemma lower_row_sum (n : Z) (g : Z -> Z -> T) (ys : Z -> T) (i : Z) :
  0 <= i < n ->
  msum (Z.to_nat n)
    (fun k => Tmul (if k <? i then g i k
                    else if k =? i then Tone else Tzero) (ys k)) =
  Tadd (msum (Z.to_nat i) (fun k => Tmul (g i k) (ys k))) (ys i).
Proof.
  intros Hi.
  replace (Z.to_nat n)
    with (Z.to_nat i + Datatypes.S (Z.to_nat (n - (i + 1))))%nat by lia.
  rewrite (msum_split Tone Topp Tring).
  rewrite (msum_ext (Z.to_nat i) _ (fun k => Tmul (g i k) (ys k))).
  2:{ intros k Hk. zdecide. reflexivity. }
  rewrite msum_peel. rewrite Z2Nat.id by lia.
  replace (i + 0) with i by lia. rewrite Z.ltb_irrefl, Z.eqb_refl.
  rewrite (msum_zero Tone Topp Tring (Z.to_nat (n - (i + 1)))).
  - ring.
  - intros k Hk. cbn beta. zdecide. ring.
Qed.

(** [L (U x) = (L U) x], on the factors read off a result. *)
Lemma LU_product_vector (r : LUResult T) (n : Z) (xs ys : Z -> T) (i : Z) :
  m_rows (LU r) = n ->
  (forall k, 0 <= k < n ->
     msum (Z.to_nat n) (fun j => Tmul (U_entry r k j) (xs j)) = ys k) ->
  msum (Z.to_nat n) (fun j => Tmul (LU_product Tone r i j) (xs j)) =
  msum (Z.to_nat n) (fun k => Tmul (L_entry Tone r i k) (ys k)).
Proof.
  intros Hr HU. unfold LU_product. rewrite Hr.
  rewrite (msum_ext _ _
    (fun j => msum (Z.to_nat n)
       (fun k => Tmul (Tmul (L_entry Tone r i k) (U_entry r k j)) (xs j)))).
  2:{ intros j Hj. cbn beta. rewrite msum_mul_r. reflexivity. }
  rewrite msum_swap.
  apply msum_ext. intros k Hk. cbn beta.
  rewrite Z2Nat.id in Hk by lia.
  rewrite <- (HU k Hk). rewrite <- msum_mul_l.
  apply msum_ext. intros j Hj. cbn beta. ring.
Qed.

Lemma solve_exact_states {S} (s : S) (r : LUResult T) (n : Z) (b : list T) :
  is_matrix (LU r) n n (entry (LU r)) ->
  Permutation (P r) (steps n) ->
  Z.of_nat (List.length b) = n ->
  (forall i, 0 <= i < n -> entry (LU r) i i <> Tzero) ->
  exists x,
    solve r b s = Ok x s /\ Z.of_nat (List.length x) = n /\
    forall i, 0 <= i < n ->
      mat_vec n (LU_product Tone r) x i =
      nth (Z.to_nat (nth (Z.to_nat i) (P r) 0)) b Tzero.
Proof.
  intros HLU HP Hb Hdiag.
  pose proof HLU as (_ & Hr & _ & _).
  assert (Hn : 0 <= n) by (pose proof (is_matrix_bounds _ _ _ _ HLU); lia).
  destruct (solve_recurrences r n _ HLU HP s b Hb)
    as (y & x & Hx & Hly & Hlx & Hy & Hxv).
  exists x. split; [exact Hx|]. split; [exact Hlx|].
  intros i Hi. unfold mat_vec.
  rewrite (LU_product_vector r n (fun j => nth (Z.to_nat j) x Tzero)
             (fun k => nth (Z.to_nat k) y Tzero) i Hr).
  - unfold L_entry.
    rewrite (lower_row_sum n (entry (LU r))
               (fun k => nth (Z.to_nat k) y Tzero) i Hi).
    rewrite (Hy i Hi). ring.
  - intros k Hk. unfold U_entry.
    rewrite (upper_row_sum n (entry (LU r))
               (fun j => nth (Z.to_nat j) x Tzero) k Hk).
    rewrite (Hxv k Hk) at 1.
    set (a := Tsub _ _). set (d := entry (LU r) k k).
    transitivity (Tadd (Tmul (Tdiv a d) d) (Tsub (nth (Z.to_nat k) y Tzero) a));
      [unfold a; ring|].
    rewrite Tdiv_mul by (apply Hdiag; exact Hk). unfold a. ring.
Qed.

(** X16: over exact arithmetic with division, for every decomposition
    whose packed matrix is square with a non-zero diagonal and whose [P] is
    a permutation, and every right-hand side [b] of matching length,
    [solve] returns a vector [x] of that length with [(L U) x = P b]: row
    [i] of the product of the two factors, applied to [x], is [b[P[i]]]. *)
Theorem solve_exact (r : LUResult T) (b : list T) :
  wf (LU r) -> m_rows (LU r) = m_cols (LU r) ->
  Permutation (P r) (steps (m_rows (LU r))) ->
  Z.of_nat (List.length b) = m_rows (LU r) ->
  (forall i, 0 <= i < m_rows (LU r) -> entry (LU r) i i <> Tzero) ->
  exists x,
    run (solve r b) = Ok x tt /\
    Z.of_nat (List.length x) = m_rows (LU r) /\
    forall i, 0 <= i < m_rows (LU r) ->
      mat_vec (m_rows (LU r)) (LU_product Tone r) x i =
      nth (Z.to_nat (nth (Z.to_nat i) (P r) 0)) b Tzero.
Proof.
  intros Hw Hsq HP Hb Hdiag.
  pose proof (is_matrix_entry (LU r) Hw) as HLU. rewrite <- Hsq in HLU.
  exact (solve_exact_states tt r _ b HLU HP Hb Hdiag).
Qed.

End ExactSolver.

(** *** The rationals *)

Lemma rational_ring :
  ring_theory (rational 0) (rational 1) Qcanon.Qcplus Qcanon.Qcmult
    Qcanon.Qcminus Qcanon.Qcopp (@eq Qcanon.Qc).
Proof. exact Qcanon.Qcrt. Qed.

Lemma rational_div_mul (a d : Qcanon.Qc) :
  d <> Tzero -> Tmul (Tdiv a d) d = a.
Proof.
  intros Hd. cbn [Tmul Tdiv Numeric_Qc Floating_Qc].
  rewrite Qcanon.Qcmult_comm. apply Qcanon.Qcmult_div_r. exact Hd.
Qed.

Lemma rational_neq (a b : Z) : a <> b -> rational a <> rational b.
Proof.
  intros Hab H. unfold rational in H.
  apply (proj1 (Qcanon.Q2Qc_eq_iff _ _)) in H.
  apply (proj1 (QArith_base.inject_Z_injective _ _)) in H.
  contradiction.
Qed.

Lemma solve_exact_witness :
  exists x,
    run (solve (mkLUResult
                  (mkMatrix 2 2 [rational 2; rational 1; rational 1; rational 3])
                  [0; 1] 1) [rational 3; rational 5]) = Ok x tt /\
    Z.of_nat (List.length x) = 2 /\
    forall i, 0 <= i < 2 ->
      mat_vec 2
        (LU_product (rational 1)
           (mkLUResult
              (mkMatrix 2 2 [rational 2; rational 1; rational 1; rational 3])
              [0; 1] 1)) x i =
      nth (Z.to_nat (nth (Z.to_nat i) [0; 1] 0)) [rational 3; rational 5]
        (rational 0).
Proof.
  refine (solve_exact (N := Numeric_Qc) (F := Floating_Qc)
            (rational 1) Qcanon.Qcopp rational_ring rational_div_mul
            (mkLUResult
               (mkMatrix 2 2 [rational 2; rational 1; rational 1; rational 3])
               [0; 1] 1) [rational 3; rational 5] _ _ _ _ _).
  - unfold wf, INT_MAX. cbn. lia.
  - reflexivity.
  - apply Permutation_refl.
  - reflexivity.
  - intros i Hi. assert (Hc : i = 0 \/ i = 1) by (cbn in Hi; lia).
    destruct Hc as [-> | ->]; apply rational_neq; lia.
Defined.

(** ** Partial pivoting *)

Section Pivoting.
Context {T : Type} {N : Numeric T} {F : Floating T}.

(** On the magnitudes of the elements of column [i] from row [i] down, [>]
    is asymmetric and its complement is transitive, as it is on numbers
    none of which is NaN. *)
Variables (f : Z -> Z -> T) (n i : Z).
Hypothesis Tgt_asym :
  forall j k, i <= j < n -> i <= k < n ->
    Tgt (Tabs (f j i)) (Tabs (f k i)) = true ->
    Tgt (Tabs (f k i)) (Tabs (f j i)) = false.
Hypothesis Tgt_trans :
  forall j k l, i <= j < n -> i <= k < n -> i <= l < n ->
    Tgt (Tabs (f j i)) (Tabs (f k i)) = false ->
    Tgt (Tabs (f k i)) (Tabs (f l i)) = false ->
    Tgt (Tabs (f j i)) (Tabs (f l i)) = false.

Lemma Tgt_irrefl (j : Z) :
  i <= j < n -> Tgt (Tabs (f j i)) (Tabs (f j i)) = false.
Proof.
  intros Hj. destruct (Tgt (Tabs (f j i)) (Tabs (f j i))) eqn:E; [|reflexivity].
  pose proof (Tgt_asym j j Hj Hj E). congruence.
Qed.

(** What exceeds an element exceeds all that do not exceed that element. *)
Lemma Tgt_above (j k l : Z) :
  i <= j < n -> i <= k < n -> i <= l < n ->
  Tgt (Tabs (f j i)) (Tabs (f k i)) = true ->
  Tgt (Tabs (f l i)) (Tabs (f k i)) = false ->
  Tgt (Tabs (f j i)) (Tabs (f l i)) = true.
Proof.
  intros Hj Hk Hl Hjk Hlk.
  destruct (Tgt (Tabs (f j i)) (Tabs (f l i))) eqn:E; [reflexivity|].
  pose proof (Tgt_trans j l k Hj Hl Hk E Hlk). congruence.
Qed.

(** The search returns the first row whose element in column [i] no element
    of the column from row [i] down exceeds in magnitude, and leaves the
    memory as it is. *)
Lemma pivot_search_largest (A : Matrix T) p t s :
  lu_state A n f p t s -> 0 <= i < n ->
  exists m, pivot_search n i s = Ok m s /\ i <= m < n /\
    (forall j, i <= j < n -> Tgt (Tabs (f j i)) (Tabs (f m i)) = false) /\
    (forall j, i <= j < m -> Tgt (Tabs (f m i)) (Tabs (f j i)) = true).
Proof.
  intros Hs Hi.
  assert (H : wp False (pivot_search n i) s
                (fun m s' => s' = s /\ i <= m < n /\
                   (forall j, i <= j < n ->
                      Tgt (Tabs (f j i)) (Tabs (f m i)) = false) /\
                   (forall j, i <= j < m ->
                      Tgt (Tabs (f m i)) (Tabs (f j i)) = true))
                (fun _ _ => False)).
  { unfold pivot_search. apply wp_bind.
    eapply wp_LU_at; [exact Hs|lia|lia|].
    apply wp_bind.
    eapply wp_mono.
    - apply (wp_for_fold False (i + 1) n _
               (fun j (x : T * Z) s' =>
                  s' = s /\ i <= snd x < j /\ fst x = Tabs (f (snd x) i) /\
                  (forall j', i <= j' < j ->
                     Tgt (Tabs (f j' i)) (fst x) = false) /\
                  (forall j', i <= j' < snd x ->
                     Tgt (fst x) (Tabs (f j' i)) = true))
               (fun _ _ => False)); [lia| |].
      + cbn. split; [reflexivity|]. split; [lia|]. split; [reflexivity|].
        split.
        * intros j' Hj'. assert (j' = i) by lia. subst j'.
          apply Tgt_irrefl. lia.
        * intros j' Hj'. lia.
      + intros j [maxVal maxIndex] s1 Hj (-> & Hm & Hmax & Hall & Hfirst).
        cbn [fst snd] in Hm, Hmax, Hall, Hfirst. subst maxVal.
        apply wp_bind. eapply wp_LU_at; [exact Hs|lia|lia|].
        destruct (Tgt (Tabs (f j i)) (Tabs (f maxIndex i))) eqn:E.
        * apply wp_bind. eapply wp_LU_at; [exact Hs|lia|lia|].
          apply wp_ret. cbn [fst snd].
          split; [reflexivity|]. split; [lia|]. split; [reflexivity|].
          split.
          -- intros j' Hj'. destruct (Z.eq_dec j' j) as [->|Hne].
             ++ apply Tgt_irrefl. lia.
             ++ apply (Tgt_trans j' maxIndex j); try lia; [apply Hall; lia|].
                apply Tgt_asym; [lia|lia|exact E].
          -- intros j' Hj'.
             apply (Tgt_above j maxIndex j'); try lia; [exact E|].
             apply Hall. lia.
        * apply wp_ret. cbn [fst snd].
          split; [reflexivity|]. split; [lia|]. split; [reflexivity|].
          split; [|exact Hfirst].
          intros j' Hj'. destruct (Z.eq_dec j' j) as [->|Hne];
            [exact E|apply Hall; lia].
    - cbn beta. intros [maxVal maxIndex] s1 (-> & Hm & Hmax & Hall & Hfirst).
      cbn [fst snd] in Hm, Hmax, Hall, Hfirst. apply wp_ret. cbn [snd].
      split; [reflexivity|]. split; [lia|]. rewrite <- Hmax. auto.
    - auto. }
  unfold wp in H. destruct (pivot_search n i s) as [m s'| | |]; try contradiction.
  destruct H as (-> & Hm & Hall & Hfirst). exists m. auto.
Qed.

End Pivoting.

(** X19: the row pivoting of step [i] brings the largest magnitude of
    column [i], from row [i] down, to the pivot position.  On a memory whose
    [result.LU] is a square matrix [M], when [>] is asymmetric and its
    complement transitive on the magnitudes of these elements (on [double]:
    none of them is NaN), the pivoting returns, and there is a row [m] at or
    below [i] such that: no element of column [i] of [M] from row [i] down
    exceeds [M(m,i)] in magnitude, and [M(m,i)] exceeds every one before it
    (rows [i] to [m - 1]); the matrix left in [result.LU] is [M] with the
    rows [i] and [m] exchanged from column [i] on, the columns before [i]
    staying in place; [P] has its entries [i] and [m] exchanged and the
    sign is reversed, unless [m = i], when nothing changes.  So no element
    of the column from row [i] down exceeds the new pivot. *)
Theorem lu_pivot_largest {T} {N : Numeric T} {F : Floating T}
  (A M : Matrix T) (p : list Z) (t n i : Z) :
  shaped M n n -> Z.of_nat (List.length p) = n -> t = 1 \/ t = -1 ->
  0 <= i < n ->
  (forall j k, i <= j < n -> i <= k < n ->
     Tgt (Tabs (entry M j i)) (Tabs (entry M k i)) = true ->
     Tgt (Tabs (entry M k i)) (Tabs (entry M j i)) = false) ->
  (forall j k l, i <= j < n -> i <= k < n -> i <= l < n ->
     Tgt (Tabs (entry M j i)) (Tabs (entry M k i)) = false ->
     Tgt (Tabs (entry M k i)) (Tabs (entry M l i)) = false ->
     Tgt (Tabs (entry M j i)) (Tabs (entry M l i)) = false) ->
  exists m s',
    lu_pivot n i (mkLuMem A (mkLUResult M p t)) = Ok tt s' /\
    i <= m < n /\
    (forall j, i <= j < n ->
       Tgt (Tabs (entry M j i)) (Tabs (entry M m i)) = false) /\
    (forall j, i <= j < m ->
       Tgt (Tabs (entry M m i)) (Tabs (entry M j i)) = true) /\
    caller_A s' = A /\ shaped (LU (result s')) n n /\
    (forall r c, 0 <= r < n -> 0 <= c < n ->
       entry (LU (result s')) r c =
       if c <? i then entry M r c
       else if r =? i then entry M m c
       else if r =? m then entry M i c
       else entry M r c) /\
    P (result s') = (if m =? i then p else swap_list p i m) /\
    toggleSign (result s') = (if m =? i then t else t * -1) /\
    forall j, i <= j < n ->
      Tgt (Tabs (entry (LU (result s')) j i))
          (Tabs (entry (LU (result s')) i i)) = false.
Proof.
  intros (HwM & HrM & HcM) Hp Ht Hi Hasym Htrans.
  set (s := mkLuMem A (mkLUResult M p t)).
  assert (Hs : lu_state A n (entry M) p t s).
  { split; [reflexivity|]. split; [|split; reflexivity].
    pose proof (is_matrix_entry M HwM) as H. rewrite HrM, HcM in H. exact H. }
  destruct (pivot_search_largest (entry M) n i Hasym Htrans A p t s Hs Hi)
    as (m & Hps & Hm & Hmax & Hfirst).
  destruct (lu_pivot_spec A n _ p t s i Hs Hi Hp Ht)
    as (m' & s1 & _ & Hps' & Hpv & Hs1).
  assert (m' = m) by congruence. subst m'.
  exists m, s1. split; [exact Hpv|]. split; [exact Hm|].
  split; [exact Hmax|]. split; [exact Hfirst|].
  destruct Hs1 as (HA1 & HM1 & HP1 & Ht1). split; [exact HA1|].
  pose proof HM1 as (Hw1 & Hr1 & Hc1 & He1).
  split; [split; [exact Hw1|split; assumption]|].
  assert (Hentries : forall r c, 0 <= r < n -> 0 <= c < n ->
            entry (LU (result s1)) r c =
            if c <? i then entry M r c
            else if r =? i then entry M m c
            else if r =? m then entry M i c
            else entry M r c).
  { intros r c Hr Hc. rewrite He1 by assumption.
    unfold pivoted_fun. destruct (Z.eqb_spec m i) as [->|Hne];
      [|reflexivity].
    destruct (c <? i); [reflexivity|].
    destruct (Z.eqb_spec r i) as [->|_]; reflexivity. }
  split; [exact Hentries|].
  split; [exact HP1|]. split; [exact Ht1|].
  intros j Hj. rewrite !Hentries by lia.
  rewrite Z.ltb_irrefl, Z.eqb_refl.
  destruct (Z.eqb_spec j i) as [->|Hji];
    [apply (Tgt_irrefl (entry M) n i Hasym); lia|].
  destruct (Z.eqb_spec j m) as [->|Hjm]; apply Hmax; lia.
Qed.

Lemma lu_pivot_largest_witness :
  exists m s',
    lu_pivot 2 0 (mkLuMem exchange_2x2 (mkLUResult exchange_2x2 [0; 1] 1))
    = Ok tt s' /\
    0 <= m < 2 /\
    (forall j, 0 <= j < 2 ->
       Tgt (Tabs (entry exchange_2x2 j 0)) (Tabs (entry exchange_2x2 m 0))
       = false) /\
    (forall j, 0 <= j < m ->
       Tgt (Tabs (entry exchange_2x2 m 0)) (Tabs (entry exchange_2x2 j 0))
       = true) /\
    caller_A s' = exchange_2x2 /\ shaped (LU (result s')) 2 2 /\
    (forall r c, 0 <= r < 2 -> 0 <= c < 2 ->
       entry (LU (result s')) r c =
       if c <? 0 then entry exchange_2x2 r c
       else if r =? 0 then entry exchange_2x2 m c
       else if r =? m then entry exchange_2x2 0 c
       else entry exchange_2x2 r c) /\
    P (result s') = (if m =? 0 then [0; 1] else swap_list [0; 1] 0 m) /\
    toggleSign (result s') = (if m =? 0 then 1 else 1 * -1) /\
    forall j, 0 <= j < 2 ->
      Tgt (Tabs (entry (LU (result s')) j 0))
          (Tabs (entry (LU (result s')) 0 0)) = false.
Proof.
  assert (Hcases : forall j, 0 <= j < 2 -> j = 0 \/ j = 1) by (intros; lia).
  refine (lu_pivot_largest (N := Numeric_double) (F := Floating_double)
            exchange_2x2 exchange_2x2 [0; 1] 1 2 0 _ _ _ _ _ _).
  - split; [unfold wf, INT_MAX; cbn; lia|split; reflexivity].
  - reflexivity.
  - left; reflexivity.
  - lia.
  - intros j k Hj Hk.
    destruct (Hcases j Hj) as [-> | ->], (Hcases k Hk) as [-> | ->];
      vm_compute; congruence.
  - intros j k l Hj Hk Hl.
    destruct (Hcases j Hj) as [-> | ->], (Hcases k Hk) as [-> | ->],
      (Hcases l Hl) as [-> | ->]; vm_compute; congruence.
Defined.

(** ** Products of products and of sums *)

Section ExactAlgebra.
Context {T : Type} {N : Numeric T}.
Variables (Tone : T) (Topp : T -> T).
Hypothesis Tring : ring_theory Tzero Tone Tadd Tmul Tsub Topp (@eq T).

Add Ring T_ring_algebra : Tring.

(** X20: over exact arithmetic, [operator*] distributes over [operator+]:
    [A * (B + C)] and [A * B + A * C] return the same matrix, for
    well-formed operands of compatible dimensions up to 32768. *)
Theorem Matrix_mul_distributes (fuel : nat) (A B C : Matrix T) :
  wf A -> wf B -> wf C ->
  m_cols A = m_rows B -> m_rows B = m_rows C -> m_cols B = m_cols C ->
  max4 (m_rows A) (m_cols A) (m_rows B) (m_cols B) <= 32768 ->
  (16 <= fuel)%nat ->
  exists R,
    run (S <- Matrix_add B C ;; Matrix_mul fuel A S) = Ok R tt /\
    run (R1 <- Matrix_mul fuel A B ;; R2 <- Matrix_mul fuel A C ;;
         Matrix_add R1 R2) = Ok R tt.
Proof.
  intros HwA HwB HwC Hdim Hr Hc Hmax Hfuel.
  pose proof (is_matrix_entry A HwA) as HA.
  pose proof (is_matrix_entry B HwB) as HB.
  pose proof (is_matrix_entry C HwC) as HC.
  rewrite <- Hr, <- Hc in HC. rewrite <- Hdim in *.
  destruct (Matrix_add_returns tt B C _ _ _ _ HB HC) as (S & HS & HSm).
  destruct (Matrix_mul_returns Tone Topp Tring tt fuel A S _ _ _ _ _ HA HSm
              Hmax Hfuel) as (L & HL & HLm).
  destruct (Matrix_mul_returns Tone Topp Tring tt fuel A B _ _ _ _ _ HA HB
              Hmax Hfuel) as (R1 & HR1 & HR1m).
  destruct (Matrix_mul_returns Tone Topp Tring tt fuel A C _ _ _ _ _ HA HC
              Hmax Hfuel) as (R2 & HR2 & HR2m).
  destruct (Matrix_add_returns tt R1 R2 _ _ _ _ HR1m HR2m) as (R & HR & HRm).
  exists R. unfold run. split.
  - rewrite (bind_Ok _ _ _ _ _ HS). rewrite HL. f_equal.
    eapply is_matrix_ext; [exact HLm|].
    eapply is_matrix_fun; [exact HRm|].
    intros i j Hi Hj. cbn beta.
    rewrite <- (msum_add Tone Topp Tring). apply msum_ext.
    intros k Hk. cbn beta. ring.
  - rewrite (bind_Ok _ _ _ _ _ HR1). rewrite (bind_Ok _ _ _ _ _ HR2).
    exact HR.
Qed.

(** X21: over exact arithmetic, [operator*] is associative:
    [(A * B) * C] and [A * (B * C)] return the same matrix, for well-formed
    operands of compatible dimensions up to 32768, whichever algorithm each
    of the four products runs. *)
Theorem Matrix_mul_associative (fuel : nat) (A B C : Matrix T) :
  wf A -> wf B -> wf C ->
  m_cols A = m_rows B -> m_cols B = m_rows C ->
  Z.max (max4 (m_rows A) (m_cols A) (m_rows B) (m_cols B)) (m_cols C) <= 32768 ->
  (16 <= fuel)%nat ->
  exists R,
    run (AB <- Matrix_mul fuel A B ;; Matrix_mul fuel AB C) = Ok R tt /\
    run (BC <- Matrix_mul fuel B C ;; Matrix_mul fuel A BC) = Ok R tt.
Proof.
  intros HwA HwB HwC Hd1 Hd2 Hmax Hfuel.
  pose proof (is_matrix_entry A HwA) as HA.
  pose proof (is_matrix_entry B HwB) as HB.
  pose proof (is_matrix_entry C HwC) as HC.
  rewrite <- Hd1 in *. rewrite <- Hd2 in *.
  pose proof (is_matrix_bounds _ _ _ _ HA) as (Hn & HK & _).
  pose proof (is_matrix_bounds _ _ _ _ HB) as (_ & HL & _).
  pose proof (is_matrix_bounds _ _ _ _ HC) as (_ & Hm & _).
  unfold max4 in Hmax.
  destruct (Matrix_mul_returns Tone Topp Tring tt fuel A B _ _ _ _ _ HA HB
              ltac:(unfold max4; lia) Hfuel) as (AB & HAB & HABm).
  destruct (Matrix_mul_returns Tone Topp Tring tt fuel AB C _ _ _ _ _ HABm HC
              ltac:(unfold max4; lia) Hfuel) as (R & HR & HRm).
  destruct (Matrix_mul_returns Tone Topp Tring tt fuel B C _ _ _ _ _ HB HC
              ltac:(unfold max4; lia) Hfuel) as (BC & HBC & HBCm).
  destruct (Matrix_mul_returns Tone Topp Tring tt fuel A BC _ _ _ _ _ HA HBCm
              ltac:(unfold max4; lia) Hfuel) as (R' & HR' & HR'm).
  exists R. unfold run. split.
  - rewrite (bind_Ok _ _ _ _ _ HAB). exact HR.
  - rewrite (bind_Ok _ _ _ _ _ HBC). rewrite HR'. f_equal.
    eapply is_matrix_ext; [exact HR'm|].
    eapply is_matrix_fun; [exact HRm|].
    intros i j Hi Hj. cbn beta.
    rewrite (msum_ext _ _
      (fun l => msum (Z.to_nat (m_cols A))
         (fun k => Tmul (Tmul (entry A i k) (entry B k l)) (entry C l j)))).
    2:{ intros l Hl. cbn beta. rewrite (msum_mul_r Tone Topp Tring).
        reflexivity. }
    rewrite (msum_swap Tone Topp Tring).
    apply msum_ext. intros k Hk. cbn beta.
    rewrite <- (msum_mul_l Tone Topp Tring).
    apply msum_ext. intros l Hl. cbn beta. ring.
Qed.

End ExactAlgebra.

Lemma Matrix_mul_distributes_witness :
  exists R,
    run (S <- Matrix_add B_2x2 A_2x2 ;; Matrix_mul 16 A_2x2 S) = Ok R tt /\
    run (R1 <- Matrix_mul 16 A_2x2 B_2x2 ;; R2 <- Matrix_mul 16 A_2x2 A_2x2 ;;
         Matrix_add R1 R2) = Ok R tt.
Proof.
  refine (Matrix_mul_distributes (N := Numeric_Z) 1 Z.opp Zth 16
            A_2x2 B_2x2 A_2x2 _ _ _ _ _ _ _ _).
  - unfold wf, INT_MAX. cbn. lia.
  - unfold wf, INT_MAX. cbn. lia.
  - unfold wf, INT_MAX. cbn. lia.
  - reflexivity.
  - reflexivity.
  - reflexivity.
  - cbn. lia.
  - lia.
Defined.

Lemma Matrix_mul_associative_witness :
  exists R,
    run (AB <- Matrix_mul 16 ones_65 ones_65 ;; Matrix_mul 16 AB ones_65)
    = Ok R tt /\
    run (BC <- Matrix_mul 16 ones_65 ones_65 ;; Matrix_mul 16 ones_65 BC)
    = Ok R tt.
Proof.
  assert (Hw : wf ones_65).
  { unfold wf, INT_MAX. cbn [m_rows m_cols m_data ones_65].
    rewrite repeat_length. lia. }
  refine (Matrix_mul_associative (N := Numeric_Z) 1 Z.opp Zth 16
            ones_65 ones_65 ones_65 Hw Hw Hw _ _ _ _).
  - reflexivity.
  - reflexivity.
  - cbn. lia.
  - lia.
Defined.

(** ** Three ways to the top-left corner *)

(** X22: for a well-formed matrix [M] and a size [k] that fits in both of
    its dimensions, [getSubMatrix(0, 0, k)], [matrixUnpadding(k, k)] and
    [matrixPadding(M, k)] return the same [k] x [k] matrix, the top-left
    corner of [M]. *)
Theorem top_left_corner {T} {N : Numeric T} (M : Matrix T) (k : Z) :
  wf M -> 0 <= k -> k <= m_rows M -> k <= m_cols M ->
  exists R,
    run (getSubMatrix M 0 0 k) = Ok R tt /\
    run (matrixUnpadding M k k) = Ok R tt /\
    run (matrixPadding M k) = Ok R tt /\
    shaped R k k /\
    forall r c, 0 <= r < k -> 0 <= c < k -> entry R r c = entry M r c.
Proof.
  intros Hw Hk Hkr Hkc.
  pose proof (is_matrix_entry M Hw) as HM.
  pose proof (is_matrix_bounds _ _ _ _ HM) as (Hr & Hc & Hm).
  assert (Hkk : k * k <= INT_MAX) by nia.
  destruct (getSubMatrix_returns tt M _ _ _ 0 0 k HM ltac:(lia) ltac:(lia) Hk
              ltac:(lia) ltac:(lia)) as (R & HR & HRm).
  destruct (matrixUnpadding_returns tt M _ _ _ k k HM ltac:(lia) ltac:(lia))
    as (R1 & HR1 & HR1m).
  destruct (matrixPadding_any_size tt M _ _ _ k HM Hk Hkk) as (R2 & HR2 & HR2m).
  assert (HRe : is_matrix R k k (entry M)).
  { eapply is_matrix_fun; [exact HRm|]. intros r c Hrr Hcc. reflexivity. }
  exists R. unfold run. split; [exact HR|]. split; [|split; [|split]].
  - rewrite HR1. f_equal. eapply is_matrix_ext; [exact HR1m|exact HRe].
  - rewrite HR2. f_equal. eapply is_matrix_ext; [exact HR2m|].
    eapply is_matrix_fun; [exact HRe|]. intros r c Hrr Hcc. cbn beta. zbool.
  - destruct HRe as (H1 & H2 & H3 & _). split; [exact H1|split; assumption].
  - apply HRe.
Qed.

Lemma top_left_corner_witness :
  exists R,
    run (getSubMatrix (mkMatrix 2 3 [1; 2; 3; 4; 5; 6]) 0 0 2) = Ok R tt /\
    run (matrixUnpadding (mkMatrix 2 3 [1; 2; 3; 4; 5; 6]) 2 2) = Ok R tt /\
    run (matrixPadding (mkMatrix 2 3 [1; 2; 3; 4; 5; 6]) 2) = Ok R tt /\
    shaped R 2 2 /\
    forall r c, 0 <= r < 2 -> 0 <= c < 2 ->
      entry R r c = entry (mkMatrix 2 3 [1; 2; 3; 4; 5; 6]) r c.
Proof.
  refine (top_left_corner (N := Numeric_Z) (mkMatrix 2 3 [1; 2; 3; 4; 5; 6]) 2
            _ _ _ _).
  - unfold wf, INT_MAX. cbn. lia.
  - lia.
  - cbn. lia.
  - cbn. lia.
Defined.

(** ** Negative dimensions *)

(** X23: the constructor [Matrix(d, d)] accepts a negative [d]: the product
    [d * d] is positive, and the matrix it builds keeps the negative
    dimensions.  For [d <= -8] such a matrix has at least 64 elements, and
    multiplying it by itself never returns: [operator*] takes the
    recursive path, the largest dimension [d] becomes a [size_t] above
    [2^63], and the loop of [nextPowerOfTwo] has no exit. *)
Theorem Matrix_mul_negative_dimensions {T} {N : Numeric T} (d : Z) :
  -46340 <= d <= -8 ->
  exists M,
    run (Matrix_new d d) = Ok M tt /\ m_rows M = d /\ m_cols M = d /\
    never_returns (fun fuel => Matrix_mul fuel M M).
Proof.
  intros Hd.
  assert (Hdd : 64 <= d * d <= INT_MAX) by (unfold INT_MAX; nia).
  exists (mkMatrix d d (repeat Tzero (Z.to_nat (d * d)))).
  split; [|split; [reflexivity|split; [reflexivity|]]].
  - unfold run, Matrix_new, bind.
    rewrite int_op_ok by (unfold INT_MIN; lia).
    rewrite vec_new_ok by lia. reflexivity.
  - intros fuel. unfold run, Matrix_mul. cbn [m_rows m_cols].
    rewrite Z.eqb_refl. cbn [negb]. cbn zeta.
    rewrite (bind_Ok _ _ _ _ _ (int_op_ok tt (d * d) ltac:(unfold INT_MIN; lia))).
    replace (d * d <? 64) with false by (symmetry; apply Z.ltb_ge; lia).
    rewrite (bind_Ok _ _ _ _ _ (int_op_ok tt (d * d) ltac:(unfold INT_MIN; lia))).
    replace (d * d <? 64) with false by (symmetry; apply Z.ltb_ge; lia).
    unfold recursive_product. cbn [m_rows m_cols]. cbn zeta.
    replace (max4 d d d d) with d by (unfold max4; lia).
    assert (Hs : to_size_t d = 2 ^ 64 + d).
    { unfold to_size_t, SIZE_BITS.
      rewrite <- (Z.mod_add d 1 (2 ^ 64)) by lia.
      rewrite Z.mod_small; lia. }
    rewrite Hs. unfold bind.
    pose proof (nextPowerOfTwo_diverges fuel (2 ^ 64 + d)) as Hdiv.
    unfold run in Hdiv. rewrite Hdiv; [reflexivity|lia| |lia].
    apply not_pow2_above_2_63. lia.
Qed.

Lemma Matrix_mul_negative_dimensions_witness :
  exists M : Matrix float,
    run (Matrix_new (-8) (-8)) = Ok M tt /\ m_rows M = -8 /\ m_cols M = -8 /\
    never_returns (fun fuel => Matrix_mul fuel M M).
Proof.
  apply (Matrix_mul_negative_dimensions (-8)). lia.
Defined.

(** ** operator* below the threshold *)



(** ** The solver on a right-hand side that is too short *)

Lemma least_index (p : Z -> bool) (m : nat) :
  (forall i, 0 <= i < Z.of_nat m -> p i = false) \/
  exists k, 0 <= k < Z.of_nat m /\ p k = true /\
            forall i, 0 <= i < k -> p i = false.
Proof.
  induction m as [|m IH]; [left; intros; lia|].
  destruct IH as [Hall|(k & Hk & Hpk & Hmin)].
  - destruct (p (Z.of_nat m)) eqn:E.
    + right. exists (Z.of_nat m). split; [lia|]. split; [exact E|exact Hall].
    + left. intros i Hi. destruct (Z.eq_dec i (Z.of_nat m)) as [->|Hne];
        [exact E|apply Hall; lia].
  - right. exists k. split; [lia|]. split; assumption.
Qed.

(** X25: [solve] does not compare the length of [b] with the dimension of
    the decomposition: for a square decomposition whose [P] is a
    permutation and a right-hand side with fewer elements than the
    dimension, the permutation step reads [b] past its end, which is
    undefined behaviour; no exception reports the mismatch. *)
Theorem solve_short_rhs {T} {N : Numeric T} {F : Floating T}
  (r : LUResult T) (b : list T) :
  wf (LU r) -> m_rows (LU r) = m_cols (LU r) ->
  Permutation (P r) (steps (m_rows (LU r))) ->
  Z.of_nat (List.length b) < m_rows (LU r) ->
  run (solve r b) = Undefined.
Proof.
  intros Hw Hsq HP Hb.
  set (n := m_rows (LU r)) in *.
  pose proof (is_matrix_entry (LU r) Hw) as HLU.
  fold n in HLU. rewrite <- Hsq in HLU. fold n in HLU.
  assert (Hn : 0 < n) by lia.
  assert (Hlen : Z.of_nat (List.length (P r)) = n).
  { rewrite (Permutation_length HP). apply length_steps. lia. }
  set (far := fun i => Z.of_nat (List.length b) <=? nth (Z.to_nat i) (P r) 0).
  destruct (least_index far (Z.to_nat n)) as [Hall|(k & Hk & Hfar & Hmin)].
  { exfalso.
    assert (Hin : In (n - 1) (P r)).
    { apply (Permutation_in _ (Permutation_sym HP)). apply In_steps. lia. }
    destruct (In_nth _ _ 0 Hin) as (i & Hi & Hnth).
    specialize (Hall (Z.of_nat i) ltac:(lia)). unfold far in Hall.
    rewrite Nat2Z.id, Hnth in Hall. apply Z.leb_gt in Hall. lia. }
  rewrite Z2Nat.id in Hk by lia.
  unfold far in Hfar. apply Z.leb_le in Hfar.
  assert (Hperm : permute_rhs r b tt = Undefined).
  { unfold permute_rhs. cbn zeta. fold n.
    rewrite (bind_Ok _ _ _ _ _ (vec_new_ok tt n Tzero ltac:(lia))).
    apply (for_fold_undefined 0 n k _
             (fun _ pb => Z.of_nat (List.length pb) = n)); [lia| | |].
    - rewrite repeat_length. lia.
    - intros i pb Hi Hpb.
      pose proof (P_entry_range r n _ HLU HP i ltac:(lia)) as Hp.
      pose proof (Hmin i Hi) as Hnear. unfold far in Hnear.
      apply Z.leb_gt in Hnear.
      unfold returns.
      rewrite (bind_Ok _ _ _ _ _ (vec_at_ok tt (P r) i 0 ltac:(lia))).
      rewrite (bind_Ok _ _ _ _ _
                 (vec_at_ok tt b (nth (Z.to_nat i) (P r) 0) Tzero ltac:(lia))).
      rewrite vec_set_ok by lia.
      eexists. split; [reflexivity|]. rewrite length_list_upd. exact Hpb.
    - intros pb Hpb.
      rewrite (bind_Ok _ _ _ _ _ (vec_at_ok tt (P r) k 0 ltac:(lia))).
      unfold bind. rewrite vec_at_outside by exact Hfar. reflexivity. }
  unfold run, solve, solve_with, bind. rewrite Hperm. reflexivity.
Qed.

Lemma solve_short_rhs_witness :
  run (solve (mkLUResult (mkMatrix 2 2 [2; 1; 0.5; 2.5]%float) [0; 1] 1)
         [3%float]) = Undefined.
Proof.
  refine (solve_short_rhs (N := Numeric_double) (F := Floating_double)
            (mkLUResult (mkMatrix 2 2 [2; 1; 0.5; 2.5]%float) [0; 1] 1)
            [3%float] _ _ _ _).
  - unfold wf, INT_MAX. cbn. lia.
  - reflexivity.
  - apply Permutation_refl.
  - cbn. lia.
Defined.

(** ** The exceptions of the products *)

Lemma yields_ret {S A} (a : A) (Q : A -> Prop) : Q a -> yields (@ret S A a) Q.
Proof. intros H s. exact H. Qed.

Lemma yields_undefined {S A} (Q : A -> Prop) : yields (@undefined S A) Q.
Proof. intros s. exact I. Qed.

Lemma yields_diverge {S A} (Q : A -> Prop) : yields (@diverge S A) Q.
Proof. intros s. exact I. Qed.

Lemma yields_bind {S A B} (c : prog S A) (k : A -> prog S B)
  (Q : A -> Prop) (Q' : B -> Prop) :
  yields c Q -> (forall a, Q a -> yields (k a) Q') -> yields (bind c k) Q'.
Proof.
  intros Hc Hk s. apply wp_bind. eapply wp_mono; [apply Hc| |auto].
  cbn beta. intros a s' Ha. apply Hk. exact Ha.
Qed.

Lemma yields_mono {S A} (c : prog S A) (Q Q' : A -> Prop) :
  yields c Q -> (forall a, Q a -> Q' a) -> yields c Q'.
Proof.
  intros Hc H s. eapply wp_mono; [apply Hc| |auto]. cbn beta. auto.
Qed.

Lemma yields_any {S A} (c : prog S A) :
  throws_only is_length_error c -> yields c (fun _ => True).
Proof. intros H s. exact (H s). Qed.

Lemma yields_for_fold {S X} lo hi (body : Z -> X -> prog S X)
  (I : X -> Prop) x :
  I x -> (forall i x, I x -> yields (body i x) I) ->
  yields (for_fold lo hi body x) I.
Proof.
  intros H0 Hb. unfold for_fold. generalize (Z.to_nat (hi - lo)) as n.
  intros n. revert lo x H0. induction n as [|n IH]; intros lo x H0.
  - apply yields_ret. exact H0.
  - cbn [for_count]. eapply yields_bind; [apply Hb; exact H0|].
    intros x' Hx'. apply IH. exact Hx'.
Qed.

Section ProductExceptions.
Context {T : Type} {N : Numeric T}.

Lemma yields_Matrix_new {S} rows cols :
  yields (@Matrix_new T N S rows cols)
    (fun M => m_rows M = rows /\ m_cols M = cols).
Proof.
  unfold Matrix_new.
  eapply yields_bind; [apply yields_any, length_error_only_int_op|].
  intros n _.
  eapply yields_bind; [apply yields_any, length_error_only_vec_new|].
  intros data _. apply yields_ret. split; reflexivity.
Qed.

Lemma yields_Matrix_at {S} (M : Matrix T) r c :
  yields (@Matrix_at T S M r c) (fun _ => True).
Proof. apply yields_any, length_error_only_Matrix_at. Qed.

Lemma yields_Matrix_set {S} (M : Matrix T) r c v :
  yields (@Matrix_set T S M r c v) (same_dims M).
Proof.
  unfold Matrix_set, Matrix_index.
  eapply yields_bind.
  { eapply yields_bind; [apply yields_any, length_error_only_int_op|].
    intros p _. apply yields_any, length_error_only_int_op. }
  intros k _.
  eapply yields_bind; [apply yields_any, length_error_only_vec_set|].
  intros d _. apply yields_ret. split; reflexivity.
Qed.

(** Two nested loops whose body assigns one element of the accumulator. *)
Lemma yields_fill {S} (M0 : Matrix T) lo hi lo' hi'
  (body : Z -> Z -> Matrix T -> prog S (Matrix T)) :
  (forall i j M, yields (body i j M) (same_dims M)) ->
  yields (for_fold lo hi (fun i M => for_fold lo' hi' (body i) M) M0)
    (same_dims M0).
Proof.
  intros Hb.
  apply yields_for_fold; [split; reflexivity|].
  intros i M HM.
  apply yields_for_fold; [exact HM|].
  intros j M1 HM1. eapply yields_mono; [apply Hb|].
  intros M2 (H1 & H2). destruct HM1 as (H3 & H4). split; congruence.
Qed.

Lemma yields_assign {S} (M : Matrix T) r c (read : prog S T) :
  yields read (fun _ => True) ->
  yields (v <- read ;; Matrix_set M r c v) (same_dims M).
Proof.
  intros Hr. eapply yields_bind; [exact Hr|]. intros v _.
  apply yields_Matrix_set.
Qed.

Lemma yields_Matrix_add {S} (A B : Matrix T) :
  m_rows A = m_rows B -> m_cols A = m_cols B ->
  yields (@Matrix_add T N S A B) (same_dims A).
Proof.
  intros Hr Hc. unfold Matrix_add. rewrite dims_differ_false by assumption.
  eapply yields_bind; [apply yields_Matrix_new|].
  intros R0 (H1 & H2).
  eapply yields_mono.
  - apply (yields_fill R0 0 (m_rows A) 0 (m_cols A)
             (fun i j result =>
                a <- Matrix_at A i j ;; b <- Matrix_at B i j ;;
                Matrix_set result i j (Tadd a b))).
    intros i j M.
    eapply yields_bind; [apply yields_Matrix_at|]. intros a _.
    eapply yields_bind; [apply yields_Matrix_at|]. intros b _.
    apply yields_Matrix_set.
  - intros R (H3 & H4). split; congruence.
Qed.

Lemma yields_Matrix_sub {S} (A B : Matrix T) :
  m_rows A = m_rows B -> m_cols A = m_cols B ->
  yields (@Matrix_sub T N S A B) (same_dims A).
Proof.
  intros Hr Hc. unfold Matrix_sub. rewrite dims_differ_false by assumption.
  eapply yields_bind; [apply yields_Matrix_new|].
  intros R0 (H1 & H2).
  eapply yields_mono.
  - apply (yields_fill R0 0 (m_rows A) 0 (m_cols A)
             (fun i j result =>
                a <- Matrix_at A i j ;; b <- Matrix_at B i j ;;
                Matrix_set result i j (Tsub a b))).
    intros i j M.
    eapply yields_bind; [apply yields_Matrix_at|]. intros a _.
    eapply yields_bind; [apply yields_Matrix_at|]. intros b _.
    apply yields_Matrix_set.
  - intros R (H3 & H4). split; congruence.
Qed.

Lemma yields_getSubMatrix {S} (A : Matrix T) a b size :
  yields (@getSubMatrix T N S A a b size)
    (fun M => m_rows M = size /\ m_cols M = size).
Proof.
  unfold getSubMatrix.
  eapply yields_bind; [apply yields_Matrix_new|].
  intros R0 (H1 & H2).
  eapply yields_mono.
  - apply yields_for_fold with (I := same_dims R0); [split; reflexivity|].
    intros i M HM.
    apply yields_for_fold; [exact HM|].
    intros j M1 HM1.
    eapply yields_bind; [apply yields_any, length_error_only_int_op|].
    intros r _.
    eapply yields_bind; [apply yields_any, length_error_only_int_op|].
    intros c _.
    eapply yields_bind; [apply yields_Matrix_at|]. intros v _.
    eapply yields_mono; [apply yields_Matrix_set|].
    intros M2 (H3 & H4). destruct HM1 as (H5 & H6). split; congruence.
  - intros R (H3 & H4). split; congruence.
Qed.

Lemma yields_setSubMatrix {S} (A : Matrix T) a b (B : Matrix T) :
  yields (@setSubMatrix T S A a b B) (same_dims A).
Proof.
  unfold setSubMatrix.
  apply (yields_fill A 0 (m_rows B) 0 (m_cols B)
           (fun i j this =>
              v <- Matrix_at B i j ;; r <- int_op (a + i) ;;
              c <- int_op (b + j) ;; Matrix_set this r c v)).
  intros i j M.
  eapply yields_bind; [apply yields_Matrix_at|]. intros v _.
  eapply yields_bind; [apply yields_any, length_error_only_int_op|].
  intros r _.
  eapply yields_bind; [apply yields_any, length_error_only_int_op|].
  intros c _. apply yields_Matrix_set.
Qed.

Lemma yields_matrixMultiply {S} (A B : Matrix T) :
  yields (@matrixMultiply T N S A B)
    (fun M => m_rows M = m_rows A /\ m_cols M = m_cols B).
Proof.
  unfold matrixMultiply.
  eapply yields_bind; [apply yields_Matrix_new|].
  intros R0 (H1 & H2).
  eapply yields_mono.
  - apply yields_for_fold with (I := same_dims R0); [split; reflexivity|].
    intros i M HM.
    apply yields_for_fold; [exact HM|].
    intros k M1 HM1.
    eapply yields_bind; [apply yields_Matrix_at|]. intros tmp _.
    apply yields_for_fold; [exact HM1|].
    intros j M2 HM2.
    eapply yields_bind; [apply yields_Matrix_at|]. intros b _.
    eapply yields_bind; [apply yields_Matrix_at|]. intros r _.
    eapply yields_mono; [apply yields_Matrix_set|].
    intros M3 (H3 & H4). destruct HM2 as (H5 & H6). split; congruence.
  - intros R (H3 & H4). split; congruence.
Qed.

(** The recursion keeps every operand of its sums and differences square
    of the same size, whatever it is given. *)
Lemma yields_strassenMultiply {S} (fuel : nat) :
  forall A B : Matrix T,
  yields (@strassenMultiply T N S fuel A B)
    (fun M => m_rows M = m_rows A /\
              m_cols M = if m_rows A <=? 64 then m_cols B else m_rows A).
Proof.
  induction fuel as [|fuel IH]; intros A B; cbn [strassenMultiply].
  - apply yields_diverge.
  - cbn zeta. destruct (m_rows A <=? 64); [apply yields_matrixMultiply|].
    set (h := Z.quot (m_rows A) 2).
    assert (Hsq : forall X Y : Matrix T,
              m_rows X = h /\ m_cols X = h -> m_rows Y = h /\ m_cols Y = h ->
              yields (@strassenMultiply T N S fuel X Y)
                (fun M => m_rows M = h /\ m_cols M = h)).
    { intros X Y (HX1 & HX2) (HY1 & HY2).
      eapply yields_mono; [apply IH|]. cbn beta.
      rewrite HX1, HY2. intros M (H1 & H2). split; [exact H1|].
      destruct (h <=? 64); exact H2. }
    assert (Hadd : forall X Y : Matrix T,
              m_rows X = h /\ m_cols X = h -> m_rows Y = h /\ m_cols Y = h ->
              yields (@Matrix_add T N S X Y)
                (fun M => m_rows M = h /\ m_cols M = h)).
    { intros X Y (HX1 & HX2) (HY1 & HY2).
      eapply yields_mono; [apply yields_Matrix_add; congruence|].
      intros M (H1 & H2). split; congruence. }
    assert (Hsub : forall X Y : Matrix T,
              m_rows X = h /\ m_cols X = h -> m_rows Y = h /\ m_cols Y = h ->
              yields (@Matrix_sub T N S X Y)
                (fun M => m_rows M = h /\ m_cols M = h)).
    { intros X Y (HX1 & HX2) (HY1 & HY2).
      eapply yields_mono; [apply yields_Matrix_sub; congruence|].
      intros M (H1 & H2). split; congruence. }
    repeat first
      [ apply yields_ret
      | eapply yields_bind;
        [ first [ apply yields_getSubMatrix
                | apply Hsq; assumption
                | apply Hadd; assumption
                | apply Hsub; assumption
                | apply yields_Matrix_new
                | apply yields_setSubMatrix ]
        | cbn beta; intros ? ? ] ].
    match goal with
    | H0 : m_rows ?C0 = m_rows A /\ m_cols ?C0 = m_rows A,
      H1 : same_dims ?C0 ?C1, H2 : same_dims ?C1 ?C2,
      H3 : same_dims ?C2 ?C3, H4 : same_dims ?C3 ?C4 |- _ =>
        destruct H0, H1, H2, H3, H4; split; congruence
    end.
Qed.

End ProductExceptions.

(** X26: whatever its operands, well-formed or not, an exception that
    [strassenMultiply] throws is the [length_error] of a constructor that is
    given a negative size: the dimension tests of the sums and differences
    inside the recursion never fail, every block they combine being square
    of the same size. *)
Theorem strassenMultiply_exceptions {T} {N : Numeric T} (fuel : nat)
  (A B : Matrix T) (e : exn) :
  run (strassenMultiply fuel A B) = Throw e tt -> e = length_error.
Proof.
  intros H. pose proof (yields_strassenMultiply (S := unit) fuel A B tt) as Hy.
  unfold wp in Hy. unfold run in H. rewrite H in Hy. exact Hy.
Qed.

Lemma strassenMultiply_exceptions_witness : length_error = length_error.
Proof.
  apply (strassenMultiply_exceptions 1 (mkMatrix (-1) (-1) [0%float])
           (mkMatrix 1 1 [0%float]) length_error).
  vm_compute. reflexivity.
Defined.

Lemma yields_throws_only {S A} (c : prog S A) (Q : A -> Prop) :
  yields c Q -> throws_only is_length_error c.
Proof.
  intros H s. eapply wp_mono; [apply H| |auto]. cbn beta. auto.
Qed.

Lemma length_error_only_nextPowerOfTwo {S} fuel n :
  throws_only is_length_error (@nextPowerOfTwo S fuel n).
Proof. unfold nextPowerOfTwo. repeat throws_step. Qed.

Lemma length_error_only_recursive_product {T} {N : Numeric T} {S} fuel
  (A B : Matrix T) :
  throws_only is_length_error (@recursive_product T N S fuel A B).
Proof.
  unfold recursive_product. cbn zeta.
  repeat first [ apply length_error_only_nextPowerOfTwo
               | apply length_error_only_matrixPadding
               | apply (yields_throws_only _ _ (yields_strassenMultiply _ _ _))
               | apply length_error_only_matrixUnpadding
               | throws_step ].
Qed.

(** X27: whatever its operands, an exception that [operator*] throws is
    either its own [invalid_argument], thrown exactly when
    [A.cols != B.rows], or, on operands with [A.cols = B.rows], the
    [length_error] of a constructor that is given a negative size; no other
    exception leaves it, from either algorithm. *)
Theorem Matrix_mul_exceptions {T} {N : Numeric T} (fuel : nat)
  (A B : Matrix T) (e : exn) :
  run (Matrix_mul fuel A B) = Throw e tt ->
  (m_cols A <> m_rows B /\ e = invalid_argument mul_msg) \/
  (m_cols A = m_rows B /\ e = length_error).
Proof.
  unfold run, Matrix_mul.
  destruct (Z.eqb_spec (m_cols A) (m_rows B)) as [Heq|Hne]; cbn [negb].
  - intros H. right. split; [exact Heq|].
    assert (Hq : throws_only is_length_error (S := unit)
              (a <- int_op (m_cols A * m_rows A) ;;
               if a <? 64 then matrixMultiply A B
               else b <- int_op (m_cols B * m_rows B) ;;
                    if b <? 64 then matrixMultiply A B
                    else recursive_product fuel A B)).
    { repeat first [ apply length_error_only_int_op
                   | apply length_error_only_matrixMultiply
                   | apply length_error_only_recursive_product
                   | throws_step ]. }
    specialize (Hq tt). unfold wp in Hq. cbn zeta in H. rewrite H in Hq.
    exact Hq.
  - intros H. left. split; [exact Hne|]. unfold throw in H. congruence.
Qed.

Lemma Matrix_mul_exceptions_witness :
  (m_cols A_2x2 <> m_rows (mkMatrix 3 2 [5; 6; 7; 8; 9; 10]) /\
   invalid_argument mul_msg = invalid_argument mul_msg) \/
  (m_cols A_2x2 = m_rows (mkMatrix 3 2 [5; 6; 7; 8; 9; 10]) /\
   invalid_argument mul_msg = length_error).
Proof.
  apply (Matrix_mul_exceptions 16 A_2x2 (mkMatrix 3 2 [5; 6; 7; 8; 9; 10])
           (invalid_argument mul_msg)).
  vm_compute. reflexivity.
Defined.
